(** * Chat-story video generator: a shallow embedding and its properties

    The development embeds the job supervisor of [server.js] (and of its
    decimating, background-compositing sibling), the two canvas frame
    generators of [videoService.js], the controller of the canvas variant,
    and the helpers they use ([wrapText], the frame file names), and proves
    the properties the design document states about them.

    Conventions.
    - A JavaScript number is a rational ([Q]) or, where the code only ever
      produces integers (loop counters, [Math.floor], [Math.round]), an
      integer ([Z]).  The numbers of a request are the rationals its JSON
      text writes, and [JS.number] is the double that [JSON.parse] makes of
      one.  The frame count and the times handed to the page are computed
      as the code computes them, in IEEE 754 binary64 arithmetic
      ([JS.mul], [JS.div]: the exact result rounded to the nearest double,
      ties to even); the progress percentages, the encoder's input rate
      and the animation values of the canvas services are exact rationals.
      [NaN] and the infinities are outside the model: [JS.number] is the
      code's value for magnitudes up to [JS.MAX_VALUE].
    - A JavaScript string is a [string]; [job.status] is a string in the
      source and stays one here.
    - An awaited external call (browser, encoder, downloader) is a question
      put to an environment record that says whether the call resolves or
      rejects; the code is a state-and-exception computation over the job
      record, and every assignment to the job is logged. *)

From Stdlib Require Import ZArith QArith Qround Qpower Lqa String Ascii List Sorted Lia.
From stdpp Require Import base strings gmap list.

(* ===================================================================== *)
(** * Part I: the embedding                                               *)
(* ===================================================================== *)

(** ** JavaScript built-ins used by the sources *)

Module JS.

(** ["0123456789"[d]] *)
Definition digit_char (d : Z) : ascii :=
  match d with
  | 0%Z => "0" | 1%Z => "1" | 2%Z => "2" | 3%Z => "3" | 4%Z => "4"
  | 5%Z => "5" | 6%Z => "6" | 7%Z => "7" | 8%Z => "8" | _ => "9"
  end%char.

(** Decimal digits of a non-negative integer, least significant digit
    first, pushed in front of [acc]. *)
Fixpoint digits_acc (fuel : nat) (n : Z) (acc : string) : string :=
  match fuel with
  | O => acc
  | S f =>
      if (n <? 10)%Z then String (digit_char n) acc
      else digits_acc f (n / 10)%Z (String (digit_char (n mod 10)%Z) acc)
  end.

(** A number below [2^(k+1)] has at most [k+1] decimal digits. *)
Definition digits_fuel (n : Z) : nat := S (Z.to_nat (Z.log2 n)).

(** [String(n)] for an integer [n]. *)
Definition String_of_Z (n : Z) : string :=
  if (n <? 0)%Z
  then String "-"%char (digits_acc (digits_fuel (- n)) (- n)%Z EmptyString)
  else digits_acc (digits_fuel n) n EmptyString.

Fixpoint repeat_char (c : ascii) (k : nat) : string :=
  match k with
  | O => EmptyString
  | S k' => String c (repeat_char c k')
  end.

(** [s.padStart(targetLength, c)] for a one-character filler: nothing is
    added to a string that is already long enough, and nothing is ever cut. *)
Definition padStart (s : string) (targetLength : nat) (c : ascii) : string :=
  repeat_char c (targetLength - String.length s) +:+ s.


(** [Math.round]: the nearest integer, ties towards plus infinity. *)
Definition Math_round (x : Q) : Z := Qfloor (x + (1 # 2))%Q.

(** [Math.floor] *)
Definition Math_floor (x : Q) : Z := Qfloor x.

(** *** Doubles

    The finite doubles are the rationals [m * 2^s] with [|m| < 2^53] and
    [-1074 <= s <= 971].  An arithmetic operation returns the double
    nearest to its exact result, a tie going to the even significand. *)

(** The binade of a positive rational: the [e] with
    [2^e <= x < 2^(e+1)]. *)
Definition binade (x : Q) : Z :=
  let k := (Z.log2 (Qnum x) - Z.log2 (Zpos (Qden x)))%Z in
  if Qle_bool (2 ^ k) x then k else (k - 1)%Z.

(** The exponent of the unit of the last place of the doubles around [x]:
    52 binary places below the leading one, and [-1074] for the subnormal
    numbers. *)
Definition ulp_exponent (x : Q) : Z := Z.max (-1074) (binade x - 52).

(** The nearest integer, a tie going to the even one. *)
Definition round_half_even (q : Q) : Z :=
  let f := Qfloor q in
  match (q - inject_Z f ?= 1 # 2)%Q with
  | Lt => f
  | Gt => (f + 1)%Z
  | Eq => if Z.even f then f else (f + 1)%Z
  end.

(** The double nearest to a positive rational. *)
Definition nearest (x : Q) : Q :=
  let s := ulp_exponent x in
  (inject_Z (round_half_even (x / 2 ^ s)) * 2 ^ s)%Q.

(** The double nearest to a rational: the value of a numeric literal and
    of the exact result of an operation. *)
Definition number (x : Q) : Q :=
  match Qnum x with
  | Z0 => 0%Q
  | Zpos _ => nearest x
  | Zneg _ => (- nearest (- x))%Q
  end.

(** [a * b] and [a / b] on doubles.  ([a / 0] is not a rational; the
    sources divide by [fps] only inside a loop that a zero [fps] never
    enters.) *)
Definition mul (a b : Q) : Q := number (a * b).
Definition div (a b : Q) : Q := number (a / b).

(** [Number.MAX_VALUE], the largest finite double. *)
Definition MAX_VALUE : Q := (inject_Z (2 ^ 53 - 1) * 2 ^ 971)%Q.

(** [path.join(dir, base)] for a normalised [dir] and a plain file name. *)
Definition path_join (dir base : string) : string := dir +:+ "/" +:+ base.

End JS.

(** ** Frame file names

    [`frame_${String(i).padStart(5, '0')}.jpg`] in [server.js] and its
    sibling, [`frame_${String(frameIndex).padStart(6, '0')}.png`] in both
    versions of [videoService.js]. *)

Module FrameName.

Definition frame_file (width : nat) (ext : string) (i : Z) : string :=
  "frame_" +:+ JS.padStart (JS.String_of_Z i) width "0"%char +:+ ext.

Definition server_frame_file : Z -> string := frame_file 5 ".jpg".
Definition canvas_frame_file : Z -> string := frame_file 6 ".png".

(** The [width]-digit rendering of [n], most significant digit first: what
    a zero-padded ordinal looks like while it fits. *)
Fixpoint fixed_digits (w : nat) (n : Z) : string :=
  match w with
  | O => EmptyString
  | S w' =>
      String (JS.digit_char (n / 10 ^ Z.of_nat w')%Z)
             (fixed_digits w' (n mod 10 ^ Z.of_nat w')%Z)
  end.

End FrameName.

(** ** The job supervisor: [server.js] and its decimating sibling

    Both files hold the same [POST /api/generate] handler and the same
    [generateVideo]; the sibling adds [frameStep], the background video and
    three request fields.  [Variant] says which file is meant. *)

Module Server.

(** [{ id, status, progress, message, outputFile }] *)
Record Job := mkJob {
  id : string;
  status : string;
  progress : Z;
  message : string;
  outputFile : option string
}.

Definition with_status (s : string) (j : Job) : Job :=
  mkJob (id j) s (progress j) (message j) (outputFile j).
Definition with_progress (p : Z) (j : Job) : Job :=
  mkJob (id j) (status j) p (message j) (outputFile j).
Definition with_message (m : string) (j : Job) : Job :=
  mkJob (id j) (status j) (progress j) m (outputFile j).
Definition with_outputFile (f : string) (j : Job) : Job :=
  mkJob (id j) (status j) (progress j) (message j) (Some f).

(** One chat message, [{ type, who, name, icon, text, image, caption }];
    the supervisor only hands the list to the page. *)
Record Message := mkMessage {
  m_type : string;
  m_who : option string;
  m_name : option string;
  m_icon : option string;
  m_text : option string;
  m_image : option string;
  m_caption : option string
}.

(** [server.js] is [Plain]; the sibling is [Decimated 2]
    ([const frameStep = 2]). *)
Inductive Variant :=
| Plain
| Decimated (frameStep : Z).

(** The argument object of [generateVideo] (the job itself is the state of
    the computation). *)
Record Config := mkConfig {
  title : string;
  episode : Z;
  totalEpisodes : Z;
  messages : list Message;
  durationSec : Q;
  fps : Q;
  width : Z;
  height : Z;
  framesPath : string;
  outFile : string;
  backgroundUrl : string;
  theme : string;
  messageDelay : option Q
}.

(** The ffmpeg invocation: frame pattern, [-framerate], [-r], and the
    background video to overlay the frames on, if any. *)
Record EncodeCmd := mkEncodeCmd {
  inputPattern : string;
  inputFramerate : Q;
  outputRate : Q;
  overlayOn : option string
}.

(** What the computation does, in program order: assignments to the job
    (the record after the assignment) and calls to the outside. *)
Inductive Event :=
| EvJob (j : Job)
| EvLaunch (w h : Z)
| EvNewPage
| EvGoto
| EvYtdlp (url out : string)
| EvScale (src dst : string)
| EvPageData
| EvStartRender
| EvSetTimelineTime (t : Q)
| EvScreenshot (file : string)
| EvEncodeStart (c : EncodeCmd)
| EvEncodeProgress (percent : option Q)
| EvEncodeEnd
| EvEncodeError
| EvBrowserClose
| EvCleanupScheduled (dir : string).

(** An awaited promise resolves or rejects with an error (its rendering by
    [String(err?.stack || err)]). *)
Inductive Outcome :=
| Resolves
| Rejects (err : string).

(** Everything the outside decides during one job. [percent] of a progress
    event is [None] when ffmpeg reports none ([undefined] or [NaN]). *)
Record Env := mkEnv {
  launch : Outcome;
  newPage : Outcome;
  goto : Outcome;
  bgId : string;
  ytdlp : Outcome;
  scale : Outcome;
  pageData : Outcome;
  startRender : Outcome;
  setTimelineTime : Z -> Outcome;
  screenshot : Z -> Outcome;
  encoderProgress : list (option Q);
  encoderEnd : Outcome;
  browserClose : Outcome
}.

(** *** Computations over the job: state, log and exceptions *)

Definition M (A : Type) : Type := Job -> list Event * Job * (string + A).

Definition ret {A} (a : A) : M A := fun j => ([], j, inr a).

Definition bind {A B} (m : M A) (k : A -> M B) : M B :=
  fun j =>
    match m j with
    | (l1, j1, inl e) => (l1, j1, inl e)
    | (l1, j1, inr a) =>
        match k a j1 with
        | (l2, j2, r) => (l1 ++ l2, j2, r)
        end
    end.

Definition throw {A} (e : string) : M A := fun j => ([], j, inl e).

Definition emit (e : Event) : M unit := fun j => ([e], j, inr tt).

(** [job.field = value] *)
Definition assign (f : Job -> Job) : M unit :=
  fun j => ([EvJob (f j)], f j, inr tt).

(** [await call(...)] *)
Definition await (call : Event) (o : Outcome) : M unit :=
  fun j =>
    match o with
    | Resolves => ([call], j, inr tt)
    | Rejects e => ([call], j, inl e)
    end.

(** [try { body } finally { fin }]: [fin] always runs; if it throws, its
    exception replaces the outcome of [body]. *)
Definition try_finally {A} (body : M A) (fin : M unit) : M A :=
  fun j =>
    match body j with
    | (l1, j1, r) =>
        match fin j1 with
        | (l2, j2, inl e) => (l1 ++ l2, j2, inl e)
        | (l2, j2, inr _) => (l1 ++ l2, j2, r)
        end
    end.

(** [promise.catch(handler)] *)
Definition catch {A} (m : M A) (handler : string -> M A) : M A :=
  fun j =>
    match m j with
    | (l1, j1, inl e) =>
        match handler e j1 with
        | (l2, j2, r) => (l1 ++ l2, j2, r)
        end
    | r => r
    end.

(** Sequencing is written with stdpp's monad notation: [x ← m; k] and
    [m ;; k]. *)
#[global] Instance M_ret : MRet M := @ret.
#[global] Instance M_bind : MBind M := fun A B k m => bind m k.

(** [for (let i = start; i < bound; i++) body(i)]; [fuel] bounds the number
    of iterations and [bound - start] of it is always enough. *)
Fixpoint for_loop (fuel : nat) (i bound : Z) (body : Z -> M unit) : M unit :=
  match fuel with
  | O => ret tt
  | S f =>
      if (i <? bound)%Z
      then body i ;; for_loop f (i + 1)%Z bound body
      else ret tt
  end.

(** *** [generateVideo] *)

Definition frameStep_of (v : Variant) : Z :=
  match v with Plain => 1%Z | Decimated d => d end.

(** [Math.floor(durationSec * fps)], resp.
    [Math.floor((durationSec * fps) / frameStep)], on the doubles that
    the request's [durationSec] and [fps] are. *)
Definition totalFrames (v : Variant) (c : Config) : Z :=
  let product := JS.mul (JS.number (durationSec c)) (JS.number (fps c)) in
  match v with
  | Plain => JS.Math_floor product
  | Decimated d => JS.Math_floor (JS.div product (inject_Z d))
  end.

(** [const t = i / fps], resp. [const t = (i * frameStep) / fps]: the
    double passed to the page as [timeSec]. *)
Definition timeSec (v : Variant) (c : Config) (i : Z) : Q :=
  match v with
  | Plain => JS.div (inject_Z i) (JS.number (fps c))
  | Decimated d =>
      JS.div (JS.mul (inject_Z i) (inject_Z d)) (JS.number (fps c))
  end.

(** The quotient [i / fps], resp. [(i * frameStep) / fps], before it is
    rounded: the instant of the timeline that frame [i] shows. *)
Definition sampleTime (v : Variant) (c : Config) (i : Z) : Q :=
  match v with
  | Plain => inject_Z i / fps c
  | Decimated d => inject_Z (i * d) / fps c
  end.

(** [Math.round(((i + 1) / totalFrames) * 80)] *)
Definition captureProgress (i total : Z) : Z :=
  JS.Math_round ((inject_Z (i + 1) / inject_Z total) * 80).

(** [85 + Math.min(10, Math.round(p.percent / 10))] *)
Definition encodeProgress (percent : Q) : Z :=
  (85 + Z.min 10 (JS.Math_round (percent / 10)))%Z.

(** [if (p.percent) job.progress = ...]: [undefined] and [0] are falsy. *)
Definition onProgress (percent : option Q) : M unit :=
  match percent with
  | Some q =>
      if Qeq_bool q 0 then ret tt
      else assign (with_progress (encodeProgress q))
  | None => ret tt
  end.

Fixpoint progressEvents (ps : list (option Q)) : M unit :=
  match ps with
  | [] => ret tt
  | p :: ps' =>
      emit (EvEncodeProgress p) ;; onProgress p ;; progressEvents ps'
  end.

(** [ensureBackgroundVideo(backgroundUrl, width, height)]; the result is
    the local path of the video, [None] for [null]. *)
Definition ensureBackgroundVideo (env : Env) (url : string) : M (option string) :=
  if String.eqb url "" then ret None
  else if String.prefix "/backgrounds/" url then ret (Some ("." +:+ url))
  else
    let out := JS.path_join "data/backgrounds" (bgId env +:+ ".mp4") in
    await (EvYtdlp url out) (ytdlp env) ;;
    let scaled := JS.path_join "data/backgrounds" (bgId env +:+ "-scaled.mp4") in
    await (EvScale out scaled) (scale env) ;;
    ret (Some scaled).

(** The background of a job: none in [server.js];
    [ensureBackgroundVideo(...).catch(() => null)] in the sibling.  The
    promise is created after [page.goto] and awaited before the capture
    loop; it never touches the job, so it is run where it is created. *)
Definition resolveBackground (v : Variant) (env : Env) (c : Config) : M (option string) :=
  match v with
  | Plain => ret None
  | Decimated _ =>
      catch (ensureBackgroundVideo env (backgroundUrl c)) (fun _ => ret None)
  end.

(** [-framerate]: [fps], resp. [Math.round(fps / frameStep)] *)
Definition inputRate (v : Variant) (c : Config) : Q :=
  match v with
  | Plain => fps c
  | Decimated d => inject_Z (JS.Math_round (fps c / inject_Z d))
  end.

Definition captureFrame (v : Variant) (env : Env) (c : Config) (total i : Z) : M unit :=
  await (EvSetTimelineTime (timeSec v c i)) (setTimelineTime env i) ;;
  let file := JS.path_join (framesPath c) (FrameName.server_frame_file i) in
  await (EvScreenshot file) (screenshot env i) ;;
  assign (with_progress (captureProgress i total)) ;;
  assign (with_message
            ("Captured frame " +:+ JS.String_of_Z (i + 1) +:+ "/"
               +:+ JS.String_of_Z total)).

Definition encode (v : Variant) (env : Env) (c : Config) (bgVideo : option string) : M unit :=
  emit (EvEncodeStart
          (mkEncodeCmd (JS.path_join (framesPath c) "frame_%05d.jpg")
             (inputRate v c) (fps c) bgVideo)) ;;
  progressEvents (encoderProgress env) ;;
  match encoderEnd env with
  | Resolves => emit EvEncodeEnd
  | Rejects e => emit EvEncodeError ;; throw e
  end.

Definition generateVideo (v : Variant) (env : Env) (c : Config) : M unit :=
  assign (with_status "rendering") ;;
  assign (with_message "Launching headless browser") ;;
  let total := totalFrames v c in
  await (EvLaunch (width c) (height c)) (launch env) ;;
  try_finally
    (await EvNewPage (newPage env) ;;
     await EvGoto (goto env) ;;
     bgVideo ← resolveBackground v env c;
     await EvPageData (pageData env) ;;
     await EvStartRender (startRender env) ;;
     for_loop (Z.to_nat total) 0 total (captureFrame v env c total) ;;
     assign (with_message "Encoding video") ;;
     assign (with_progress 85) ;;
     encode v env c bgVideo ;;
     assign (with_progress 100) ;;
     assign (with_status "done") ;;
     assign (with_message "Completed") ;;
     assign (with_outputFile (outFile c)))
    (await EvBrowserClose (browserClose env) ;;
     emit (EvCleanupScheduled (framesPath c))).

(** [generateVideo({...}).catch((err) => { job.status = 'error';
    job.message = String(err?.stack || err); })] *)
Definition jobTask (v : Variant) (env : Env) (c : Config) : M unit :=
  catch (generateVideo v env c)
        (fun err =>
           assign (with_status "error") ;;
           assign (with_message err)).

(** [{ id: jobId, status: 'queued', progress: 0, message: 'Queued',
      outputFile: null }] *)
Definition newJob (jobId : string) : Job :=
  mkJob jobId "queued" 0 "Queued" None.

(** The life of one job: its creation, then everything its task does. *)
Definition lifetime (v : Variant) (env : Env) (c : Config) (jobId : string) : list Event :=
  EvJob (newJob jobId) :: fst (fst (jobTask v env c (newJob jobId))).

Definition finalJob (v : Variant) (env : Env) (c : Config) (jobId : string) : Job :=
  snd (fst (jobTask v env c (newJob jobId))).

(** Projections of a log. *)
Definition snapshots (l : list Event) : list Job :=
  omap (fun e => match e with EvJob j => Some j | _ => None end) l.

Definition timestamps (l : list Event) : list Q :=
  omap (fun e => match e with EvSetTimelineTime t => Some t | _ => None end) l.

Definition encodeCmds (l : list Event) : list EncodeCmd :=
  omap (fun e => match e with EvEncodeStart c => Some c | _ => None end) l.

(** The environment in which nothing fails and the encoder reports the
    given percentages. *)
Definition calm (percents : list (option Q)) : Env :=
  mkEnv Resolves Resolves Resolves "bg0001" Resolves Resolves Resolves Resolves
        (fun _ => Resolves) (fun _ => Resolves) percents Resolves Resolves.

(** The sample schedule of a job: the times the capture loop sets on the
    page when nothing fails. *)
Definition sampleTimes (v : Variant) (c : Config) : list Q :=
  timestamps (lifetime v (calm []) c "job").

End Server.

(** ** The HTTP handlers of [server.js] and its sibling

    [const jobs = new Map()] holds references to job objects; the task that
    [generateVideo] becomes keeps mutating its own object.  The state keeps
    the map, the objects, and for every task the events it still has to
    perform; the outside chooses which task moves next. *)

Module Api.
Import Server.

(** [req.body]; a field the client left out is [None]. *)
Record Body := mkBody {
  b_title : option string;
  b_episode : option Z;
  b_totalEpisodes : option Z;
  b_messages : option (list Message);
  b_durationSec : option Q;
  b_fps : option Q;
  b_width : option Z;
  b_height : option Z;
  b_backgroundUrl : option string;
  b_theme : option string;
  b_messageDelay : option Q
}.

Definition defaultMessages (v : Variant) : list Message :=
  match v with
  | Plain =>
      [ mkMessage "text" (Some "other") (Some "Ava") None
          (Some "WE DID IT BABE! I'M PREGNANT!") None None;
        mkMessage "text" (Some "you") None None (Some "fr?") None None;
        mkMessage "text" (Some "other") (Some "Ava") None
          (Some "YES! I'm so excited for US 😘") None None;
        mkMessage "text" (Some "other") (Some "Ava") None
          (Some "I know this has been a dream of yours too") None None;
        mkMessage "system" None None None (Some "Detalhes importam.") None None;
        mkMessage "media" (Some "other") (Some "Ava") None None
          (Some "") (Some "Ultrassom 10:23");
        mkMessage "alert" None None None (Some "Continua no Ep. 2…") None None ]
  | Decimated _ =>
      [ mkMessage "text" (Some "other") None (Some "🍼")
          (Some "WE DID IT BABE! I'M PREGNANT!") None None;
        mkMessage "text" (Some "you") None None (Some "fr?") None None;
        mkMessage "media" (Some "other") (Some "Ava") None None
          (Some "") (Some "Ultrassom 10:23");
        mkMessage "alert" None None None (Some "Continua no Ep. 2…") None None ]
  end.

(** The destructuring with defaults at the top of the handler, and the
    paths derived from the job id.  The fields are used as they come: the
    handler checks none of them. *)
Definition config_of (v : Variant) (body : Body) (jobId : string) : Config :=
  mkConfig
    (default "Mensagem no Ultrassom" (b_title body))
    (default 1%Z (b_episode body))
    (default 7%Z (b_totalEpisodes body))
    (default (defaultMessages v) (b_messages body))
    (default 90%Q (b_durationSec body))
    (default (match v with Plain => 24%Q | Decimated _ => 60%Q end)
             (b_fps body))
    (default 1080%Z (b_width body))
    (default 1920%Z (b_height body))
    (JS.path_join "data/frames" jobId)
    (JS.path_join "data/videos" (jobId +:+ ".mp4"))
    (default "" (b_backgroundUrl body))
    (default "sunset" (b_theme body))
    (b_messageDelay body).

Record State := mkState {
  jobs : gmap string nat;
  heap : gmap nat Job;
  tasks : gmap nat (list Event);
  issued : list Event
}.

Definition init : State := mkState ∅ ∅ ∅ [].

Inductive Response :=
| Accepted (jobId : string)
| JobView (id status : string) (progress : Z) (message : string)
          (outputUrl : option string)
| NotFound.

(** A task runs until it has issued its next call to the outside; the
    assignments before the call are made at once. *)
Fixpoint run_to_call (todo : list Event) (job : Job) : Job * list Event * list Event :=
  match todo with
  | [] => (job, [], [])
  | EvJob job' :: rest => run_to_call rest job'
  | call :: rest => (job, [call], rest)
  end.

Definition fresh_object (s : State) : nat := size (heap s).

(** [app.post('/api/generate', ...)]: the job is created, put in the map,
    [generateVideo] is called (and runs up to its first [await]), and the
    id is sent.  [jobId] is what [nanoid(8)] returns; creating the frame
    directory is taken to succeed. *)
Definition post_generate (v : Variant) (body : Body) (jobId : string)
    (env : Env) (s : State) : State * Response :=
  let c := config_of v body jobId in
  let job := newJob jobId in
  let obj := fresh_object s in
  let registry := <[jobId := obj]> (jobs s) in
  let todo := fst (fst (jobTask v env c job)) in
  let '(job', calls, rest) := run_to_call todo job in
  (mkState registry (<[obj := job']> (heap s)) (<[obj := rest]> (tasks s))
           (issued s ++ calls),
   Accepted jobId).

(** [path.basename] of a path with [/] separators. *)
Fixpoint basename_from (s acc : string) : string :=
  match s with
  | EmptyString => acc
  | String c s' =>
      if Ascii.eqb c "/" then basename_from s' EmptyString
      else basename_from s' (acc +:+ String c EmptyString)
  end.

Definition basename (s : string) : string := basename_from s EmptyString.

(** [app.get('/api/progress/:jobId', ...)] *)
Definition get_progress (jobId : string) (s : State) : Response :=
  match jobs s !! jobId with
  | None => NotFound
  | Some obj =>
      match heap s !! obj with
      | None => NotFound
      | Some job =>
          JobView jobId (status job) (progress job) (message job)
            (match outputFile job with
             | Some f =>
                 if String.eqb f "" then None
                 else Some ("/videos/" +:+ basename f)
             | None => None
             end)
      end
  end.

(** The task of job object [obj] resumes and runs to its next call. *)
Definition resume (obj : nat) (s : State) : State :=
  match heap s !! obj, tasks s !! obj with
  | Some job, Some todo =>
      let '(job', calls, rest) := run_to_call todo job in
      mkState (jobs s) (<[obj := job']> (heap s)) (<[obj := rest]> (tasks s))
              (issued s ++ calls)
  | _, _ => s
  end.

(** What happens to the server, one thing at a time. *)
Inductive Action :=
| Submit (body : Body) (jobId : string) (env : Env)
| Poll (jobId : string)
| Resume (obj : nat).

Definition step (v : Variant) (a : Action) (s : State) : State * option Response :=
  match a with
  | Submit body jobId env =>
      let '(s', r) := post_generate v body jobId env s in (s', Some r)
  | Poll jobId => (s, Some (get_progress jobId s))
  | Resume obj => (resume obj s, None)
  end.

Fixpoint exec (v : Variant) (actions : list Action) (s : State) : State * list Response :=
  match actions with
  | [] => (s, [])
  | a :: rest =>
      let '(s1, r) := step v a s in
      let '(s2, rs) := exec v rest s1 in
      (s2, match r with Some x => x :: rs | None => rs end)
  end.

End Api.

(** ** The canvas variant: [videoService.js] (two versions) and its
    controller

    Frames are drawn on a canvas instead of being captured from a page.
    What is drawn is a function of the arguments of [createFrame]; a frame
    is represented by those arguments, and [createFrame] by the conditions
    under which it throws. *)

Module Canvas.

(** One entry of [videoData.dialogues]; a missing property is [None]. *)
Record Dialogue := mkDialogue {
  d_speaker : option string;
  d_message : option string;
  d_image : option string;
  d_type : option string;
  d_caption : option string
}.

Definition frameRate : Z := 30.

(** [value ? ... : ...] on a string *)
Definition nonempty (s : string) : bool := negb (String.eqb s "").

(** [a > b] on numbers *)
Definition Qgtb (a b : Q) : bool := negb (Qle_bool a b).

(** [list[i]] for an integer [i]: [undefined] outside the list. *)
Definition at_index {A} (l : list A) (i : Z) : option A :=
  if (i <? 0)%Z then None else l !! Z.to_nat i.

(** *** [wrapText] (the same in both versions) *)

Section WrapText.

(** [ctx.measureText(s).width] for the font in use *)
Variable measureText : string -> Q.

(** [text.split(' ')] *)
Fixpoint split_from (s cur : string) : list string :=
  match s with
  | EmptyString => [cur]
  | String c s' =>
      if Ascii.eqb c " " then cur :: split_from s' EmptyString
      else split_from s' (cur +:+ String c EmptyString)
  end.

Definition split_space (s : string) : list string := split_from s EmptyString.

(** The body of [for (const word of words)] on [(lines, currentLine)]. *)
Definition wrap_word (maxWidth : Q) (st : list string * string) (word : string)
    : list string * string :=
  let '(lines, currentLine) := st in
  let testLine :=
    currentLine +:+ (if nonempty currentLine then " " else "") +:+ word in
  if Qgtb (measureText testLine) maxWidth && nonempty currentLine
  then (lines ++ [currentLine], word)
  else (lines, testLine).

Definition wrapWords (words : list string) (maxWidth : Q) : list string :=
  let '(lines, currentLine) := fold_left (wrap_word maxWidth) words ([], EmptyString) in
  if nonempty currentLine then lines ++ [currentLine] else lines.

Definition wrapText (text : string) (maxWidth : Q) : list string :=
  wrapWords (split_space text) maxWidth.

End WrapText.

(** *** Writing frames *)

Record Written (Picture : Type) := mkWritten {
  frames : list (string * Picture);
  frameIndex : Z
}.
Arguments mkWritten {Picture} _ _.
Arguments frames {Picture} _.
Arguments frameIndex {Picture} _.

(** [fs.writeFile(framePath, frame); frames.push(framePath); frameIndex++] *)
Definition writeFrame {Picture} (tempDir : string) (pic : Picture)
    (w : Written Picture) : Written Picture :=
  mkWritten
    (frames w ++ [(JS.path_join tempDir (FrameName.canvas_frame_file (frameIndex w)),
                   pic)])
    (frameIndex w + 1)%Z.

(** A loop over [xs] that stops at the first exception; the state reached
    is kept either way. *)
Fixpoint for_each {A S} (xs : list A) (body : A -> S -> S * option string)
    (st : S) : S * option string :=
  match xs with
  | [] => (st, None)
  | x :: xs' =>
      match body x st with
      | (st', Some e) => (st', Some e)
      | (st', None) => for_each xs' body st'
      end
  end.

(** *** [videoService.js]: one block of frames per dialogue, then a hold *)

Module V1.

(** What [createFrame] draws: the background, the bubbles of the visible
    dialogues, and the image of the current dialogue when it is shown. *)
Record Picture := mkPicture {
  p_background : string;
  p_frameNumber : Z;
  p_bubbles : list Dialogue;
  p_image : option string
}.

(** [drawChatInterface]: dialogue [i] is skipped when it is the last one
    and [progress <= 0.1]. *)
Definition visible (all : list Dialogue) (progress : Q) : list Dialogue :=
  if Qgtb progress (1 # 10) then all
  else take (length all - 1) all.

(** [createFrame(currentDialogue, allDialogues, backgroundType, progress,
    frameNumber)].  [wrapText] calls [text.split] on the message of every
    visible dialogue, and [currentDialogue.image] is read afterwards: both
    throw a [TypeError] on [undefined]. *)
Definition createFrame (currentDialogue : option Dialogue)
    (allDialogues : list Dialogue) (backgroundType : string) (progress : Q)
    (frameNumber : Z) : string + Picture :=
  if existsb (fun d => match d_message d with None => true | Some _ => false end)
             (visible allDialogues progress)
  then inl "TypeError: Cannot read properties of undefined (reading 'split')"
  else
    match currentDialogue with
    | None =>
        inl "TypeError: Cannot read properties of undefined (reading 'image')"
    | Some d =>
        inr (mkPicture backgroundType frameNumber
               (visible allDialogues progress)
               (match d_image d with
                | Some url =>
                    if nonempty url && Qgtb progress (3 # 10)
                    then Some url else None
                | None => None
                end))
    end.

Definition draw (tempDir : string) (r : string + Picture)
    (w : Written Picture) : Written Picture * option string :=
  match r with
  | inl e => (w, Some e)
  | inr pic => (writeFrame tempDir pic w, None)
  end.

(** [generateFrames(dialogues, backgroundType, tempDir)] *)
Definition generateFrames (dialogues : list Dialogue) (backgroundType : string)
    (tempDir : string) : Written Picture * option string :=
  let framesPerDialogue := (frameRate * 2)%Z in
  let perDialogue :=
    for_each (seqZ 0 (Z.of_nat (length dialogues)))
      (fun i w =>
         for_each (seqZ 0 framesPerDialogue)
           (fun f w =>
              draw tempDir
                (createFrame (at_index dialogues i)
                   (take (Z.to_nat (i + 1)) dialogues) backgroundType
                   (inject_Z f / inject_Z framesPerDialogue)
                   (frameIndex w)) w)
           w)
      (mkWritten [] 0%Z) in
  match perDialogue with
  | (w, Some e) => (w, Some e)
  | (w, None) =>
      let finalFrames := frameRate in
      for_each (seqZ 0 finalFrames)
        (fun f w =>
           let lastDialogue :=
             at_index dialogues (Z.of_nat (length dialogues) - 1) in
           draw tempDir
             (createFrame lastDialogue dialogues backgroundType 1 (frameIndex w))
             w)
        w
  end.

End V1.

(** *** The later [videoService.js]: one timeline over all frames *)

Module V2.

(** [{ ...dialogue, animationProgress, index }] *)
Record VisibleMessage := mkVisible {
  vm_dialogue : Dialogue;
  animationProgress : Q;
  index : Z
}.

(** The argument of [createFrame]. *)
Record RenderState := mkRenderState {
  title : string;
  episode : Z;
  totalEpisodes : Z;
  visibleMessages : list VisibleMessage;
  currentChapter : Z;
  totalChapters : Z;
  xpProgress : option Q;
  globalProgress : Q;
  messageProgress : Q;
  background : string;
  isHookMoment : bool;
  isRevelation : bool;
  isCliffhanger : bool;
  frameNumber : Z
}.

Record VideoData := mkVideoData {
  v_title : string;
  v_episode : Z;
  v_totalEpisodes : Z;
  v_dialogues : list Dialogue;
  v_background : string
}.

(** [a / b] on numbers that are not negative: [0 / 0] is [NaN], here
    [None]. *)
Definition ratio (a b : Z) : option Q :=
  if (b =? 0)%Z then None else Some (inject_Z a / inject_Z b)%Q.

(** [Math.min(1, x)] *)
Definition min1 (x : Q) : Q := if Qle_bool 1 x then 1%Q else x.

(** [createFrame(state)]: [drawChatPanel] wraps the message of each of the
    last eight visible messages; [wrapText] throws on [undefined]. *)
Definition createFrame (state : RenderState) : string + RenderState :=
  let shown := drop (length (visibleMessages state) - 8) (visibleMessages state) in
  if existsb (fun m => match d_message (vm_dialogue m) with
                       | None => true | Some _ => false end) shown
  then inl "TypeError: Cannot read properties of undefined (reading 'split')"
  else inr state.

(** [{ ...value }]: the properties of [value], none for [undefined]. *)
Definition spread (value : option Dialogue) : Dialogue :=
  match value with
  | Some d => d
  | None => mkDialogue None None None None None
  end.

(** The variables of [generateFrames] that live across iterations. *)
Record Timeline := mkTimeline {
  currentMessageIndex : Z;
  shownMessages : list VisibleMessage;
  chapter : Z;
  written : Written RenderState
}.

(** One iteration of [for (let f = 0; f < totalFrames; f++)]. *)
Definition frameStep (data : VideoData) (tempDir : string) (f : Z)
    (t : Timeline) : Timeline * option string :=
  let dialogues := v_dialogues data in
  let totalMessages := Z.of_nat (length dialogues) in
  let framesPerMessage := JS.Math_floor (inject_Z frameRate * 2) in
  let totalFrames := (totalMessages * framesPerMessage + frameRate * 2)%Z in
  let totalChapters := 7%Z in
  let globalProgress := (inject_Z f / inject_Z totalFrames)%Q in
  let messageFrame := (f mod framesPerMessage)%Z in
  let messageProgress := (inject_Z messageFrame / inject_Z framesPerMessage)%Q in
  let '(cmi, vis, chap) :=
    if (0 <? f)%Z && (f mod framesPerMessage =? 0)%Z
       && (currentMessageIndex t <? totalMessages)%Z
    then
      let cmi' := (currentMessageIndex t + 1)%Z in
      (cmi',
       shownMessages t ++
         [mkVisible (spread (at_index dialogues (currentMessageIndex t)))
                    0 (currentMessageIndex t)],
       Z.min totalChapters
         (JS.Math_floor
            ((inject_Z cmi' / inject_Z totalMessages) * inject_Z totalChapters)
          + 1))
    else (currentMessageIndex t, shownMessages t, chapter t) in
  let vis' :=
    map (fun m => mkVisible (vm_dialogue m) (min1 (animationProgress m + (1 # 10)))
                            (index m)) vis in
  let xp := ratio cmi totalMessages in
  let hook := (f <? frameRate * 2)%Z in
  let revelation :=
    match at_index dialogues (cmi - 1) with
    | Some d => match d_type d with
                | Some ty => String.eqb ty "revelation"
                | None => false
                end
    | None => false
    end in
  let cliffhanger :=
    (totalMessages - 1 <=? cmi)%Z && (totalFrames - frameRate * 2 <=? f)%Z in
  let state :=
    mkRenderState (v_title data) (v_episode data) (v_totalEpisodes data)
                  vis' chap totalChapters xp globalProgress messageProgress
                  (v_background data) hook revelation cliffhanger f in
  match createFrame state with
  | inl e => (mkTimeline cmi vis' chap (written t), Some e)
  | inr frame =>
      (mkTimeline cmi vis' chap (writeFrame tempDir frame (written t)), None)
  end.

Definition totalFrames (data : VideoData) : Z :=
  (Z.of_nat (length (v_dialogues data)) * JS.Math_floor (inject_Z frameRate * 2)
   + frameRate * 2)%Z.

(** [generateFrames(videoData, tempDir)] *)
Definition generateFrames (data : VideoData) (tempDir : string)
    : Timeline * option string :=
  for_each (seqZ 0 (totalFrames data)) (frameStep data tempDir)
           (mkTimeline 0 [] 1 (mkWritten [] 0%Z)).

End V2.

(** *** The service and the controller *)

(** [req.body] of the canvas controller: [b_dialogues] is [None] when the
    property is missing or is not an array. *)
Record Body := mkBody {
  b_title : option string;
  b_episode : option Z;
  b_totalEpisodes : option Z;
  b_background : option string;
  b_dialogues : option (list Dialogue)
}.

Inductive Version := Earlier | Later.

(** [videoService.generateVideo(videoData, jobId)]: the frames, then the
    encoder; an exception of either is thrown again.  The result is the
    number of frames handed to the encoder.  Creating the directory and
    writing the files are taken to succeed, and so are the canvas calls. *)
Definition generateVideo (ver : Version) (videoData : Body) (jobId : string)
    (encoder : Server.Outcome) : string + nat :=
  let dialogues := default [] (b_dialogues videoData) in
  let background := default "minecraft" (b_background videoData) in
  let jobTempDir := JS.path_join "temp" jobId in
  let generated :=
    match ver with
    | Earlier =>
        let '(w, r) := V1.generateFrames dialogues background jobTempDir in
        (length (frames w), r)
    | Later =>
        let '(t, r) :=
          V2.generateFrames
            (V2.mkVideoData (default "Mensagem no Ultrassom" (b_title videoData))
               (default 1%Z (b_episode videoData))
               (default 7%Z (b_totalEpisodes videoData))
               dialogues background)
            jobTempDir in
        (length (frames (V2.written t)), r)
    end in
  match generated with
  | (_, Some e) => inl e
  | (n, None) =>
      match encoder with
      | Server.Resolves => inr n
      | Server.Rejects e => inl e
      end
  end.

Inductive Reply :=
| Started (jobId : string)
| BadRequest.

(** [exports.generateVideo]: the only check is that [dialogues] is an
    array; the reply, and the status the job ends with
    ([jobStatus.set(jobId, { status: ... })] in [.then] and [.catch]). *)
Definition controller (ver : Version) (body : Body) (jobId : string)
    (encoder : Server.Outcome) : Reply * option string :=
  match b_dialogues body with
  | None => (BadRequest, None)
  | Some _ =>
      (Started jobId,
       Some (match generateVideo ver body jobId encoder with
             | inr _ => "completed"
             | inl _ => "failed"
             end))
  end.

End Canvas.

(** ** Names of uploaded files

    [Date.now() + '-' + file.originalname.replace(/[^a-zA-Z0-9_.-]/g, '_')]
    in the [multer] storage of [server.js] and its sibling.  A JavaScript
    string is a sequence of UTF-16 code units, and the pattern (no [u]
    flag) is matched against one code unit at a time. *)

Module Upload.

(** The complement of the class [[^a-zA-Z0-9_.-]]. *)
Definition in_class (u : Z) : bool :=
  ((97 <=? u) && (u <=? 122))%Z || ((65 <=? u) && (u <=? 90))%Z
  || ((48 <=? u) && (u <=? 57))%Z
  || (u =? 95)%Z || (u =? 46)%Z || (u =? 45)%Z.

(** [name.replace(/[^a-zA-Z0-9_.-]/g, '_')] *)
Definition sanitize (name : list Z) : list Z :=
  map (fun u => if in_class u then u else 95%Z) name.

(** The code units of a string of the model. *)
Definition units (s : string) : list Z :=
  map (fun a => Z.of_N (N_of_ascii a)) (list_ascii_of_string s).

(** The name the file is stored under; [now] is what [Date.now()]
    returns. *)
Definition filename (now : Z) (originalname : list Z) : list Z :=
  units (JS.String_of_Z now) ++ [45%Z] ++ sanitize originalname.

End Upload.

(** ** The list of videos and the download

    [app.get('/api/videos', ...)] and [app.get('/api/download/:id', ...)]
    of [server.js] and its sibling.  The directory is given by the names
    [fs.readdirSync] returns and by what [fs.statSync] says of each. *)

Module Listing.





Section Directory.

(** [fs.statSync(path.join(videosDir, f))]: [size] and [mtimeMs] *)
Variable stat : string -> Z * Q.





End Directory.


End Listing.

(* ===================================================================== *)
(** * Part II: properties                                                 *)
(* ===================================================================== *)

(** ** Rounding to the nearest double *)

Section NumberFacts.
Import JS.
Local Open Scope Q_scope.

Lemma two_nonzero : ~ 2 == 0.
Proof. discriminate. Qed.

Lemma pow2_pos (k : Z) : 0 < 2 ^ k.
Proof. apply Qpower_0_lt. reflexivity. Qed.

Lemma pow2_add (a b : Z) : 2 ^ (a + b) == 2 ^ a * 2 ^ b.
Proof. apply Qpower_plus, two_nonzero. Qed.

Lemma pow2_le (a b : Z) : (a <= b)%Z -> 2 ^ a <= 2 ^ b.
Proof. intros H. apply Qpower_le_compat_l; [exact H | discriminate]. Qed.

Lemma pow2_lt (a b : Z) : (a < b)%Z -> 2 ^ a < 2 ^ b.
Proof. intros H. apply Qpower_lt_compat_l; [exact H | reflexivity]. Qed.

Lemma pow2_lt_inv (a b : Z) : 2 ^ a < 2 ^ b -> (a < b)%Z.
Proof. intros H. apply (Qpower_lt_compat_l_inv 2); [exact H | reflexivity]. Qed.

Lemma pow2_Z (k : Z) : (0 <= k)%Z -> 2 ^ k == inject_Z (2 ^ k).
Proof. intros H. symmetry. apply (Zpower_Qpower 2 k H). Qed.

Lemma pow2_sub (a b : Z) : 2 ^ a / 2 ^ b == 2 ^ (a - b).
Proof. symmetry. apply Qpower_minus, two_nonzero. Qed.

Lemma pow2_nonzero (k : Z) : ~ 2 ^ k == 0.
Proof. apply Qpower_not_0, two_nonzero. Qed.

(** [x] scaled by [2^-s] and back. *)
Lemma scale_back (x : Q) (s : Z) : x / 2 ^ s * 2 ^ s == x.
Proof. field. apply pow2_nonzero. Qed.

Lemma scale_le (x y : Q) (s : Z) : x <= y -> x / 2 ^ s <= y / 2 ^ s.
Proof.
  intros H. unfold Qdiv. apply Qmult_le_compat_r; [exact H|].
  apply Qlt_le_weak, Qinv_lt_0_compat, pow2_pos.
Qed.

Lemma scale_lt (x y : Q) (s : Z) : x < y -> x / 2 ^ s < y / 2 ^ s.
Proof.
  intros H. unfold Qdiv. apply Qmult_lt_compat_r; [|exact H].
  apply Qinv_lt_0_compat, pow2_pos.
Qed.

(** *** The binade *)

Lemma binade_spec (x : Q) :
  0 < x -> 2 ^ binade x <= x /\ x < 2 ^ (binade x + 1).
Proof.
  intros Hx. destruct x as [n d].
  assert (Hn : (0 < n)%Z) by (unfold Qlt in Hx; simpl in Hx; lia).
  unfold binade. cbn [Qnum Qden].
  set (a := Z.log2 n). set (b := Z.log2 (Z.pos d)).
  pose proof (Z.log2_spec n Hn) as Ha. fold a in Ha.
  pose proof (Z.log2_spec (Z.pos d) ltac:(lia)) as Hb. fold b in Hb.
  pose proof (Z.log2_nonneg n) as Ha0. fold a in Ha0.
  pose proof (Z.log2_nonneg (Z.pos d)) as Hb0. fold b in Hb0.
  assert (Hxq : n # d == inject_Z n / inject_Z (Z.pos d)) by apply Qmake_Qdiv.
  assert (Hdpos : 0 < inject_Z (Z.pos d)) by reflexivity.
  assert (HnQ : 2 ^ a <= inject_Z n /\ inject_Z n < 2 ^ (a + 1)).
  { rewrite !pow2_Z by lia. rewrite <- Zle_Qle, <- Zlt_Qlt.
    unfold Z.succ in Ha. exact Ha. }
  assert (HdQ : 2 ^ b <= inject_Z (Z.pos d) /\ inject_Z (Z.pos d) < 2 ^ (b + 1)).
  { rewrite !pow2_Z by lia. rewrite <- Zle_Qle, <- Zlt_Qlt.
    unfold Z.succ in Hb. exact Hb. }
  assert (Hlow : 2 ^ (a - b - 1) <= n # d).
  { rewrite Hxq. apply Qle_shift_div_l; [exact Hdpos|].
    apply Qle_trans with (2 ^ (a - b - 1) * 2 ^ (b + 1)).
    - apply Qmult_le_l; [apply pow2_pos | apply Qlt_le_weak, HdQ].
    - rewrite <- pow2_add. replace (a - b - 1 + (b + 1))%Z with a by lia.
      apply HnQ. }
  assert (Hhigh : n # d < 2 ^ (a - b + 1)).
  { rewrite Hxq. apply Qlt_shift_div_r; [exact Hdpos|].
    apply Qlt_le_trans with (2 ^ (a + 1)); [apply HnQ|].
    replace (a + 1)%Z with (a - b + 1 + b)%Z by lia.
    rewrite pow2_add. apply Qmult_le_l; [apply pow2_pos | apply HdQ]. }
  destruct (Qle_bool (2 ^ (a - b)) (n # d)) eqn:Hle.
  - split; [now apply Qle_bool_imp_le | exact Hhigh].
  - split; [exact Hlow|].
    replace (a - b - 1 + 1)%Z with (a - b)%Z by lia.
    apply Qnot_le_lt. intros H. apply Qle_bool_iff in H. congruence.
Qed.

Lemma binade_unique (x : Q) (e : Z) :
  2 ^ e <= x -> x < 2 ^ (e + 1) -> binade x = e.
Proof.
  intros Hlo Hhi.
  assert (Hx : 0 < x) by (eapply Qlt_le_trans; [apply (pow2_pos e) | exact Hlo]).
  destruct (binade_spec x Hx) as [Hlo' Hhi'].
  assert (e < binade x + 1)%Z
    by (apply pow2_lt_inv; eapply Qle_lt_trans; eassumption).
  assert (binade x < e + 1)%Z
    by (apply pow2_lt_inv; eapply Qle_lt_trans; eassumption).
  lia.
Qed.

Lemma binade_mono (x y : Q) : 0 < x -> x <= y -> (binade x <= binade y)%Z.
Proof.
  intros Hx Hxy.
  assert (Hy : 0 < y) by (eapply Qlt_le_trans; eassumption).
  destruct (binade_spec x Hx) as [Hlo _].
  destruct (binade_spec y Hy) as [_ Hhi].
  assert (binade x < binade y + 1)%Z.
  { apply pow2_lt_inv. eapply Qle_lt_trans; [exact Hlo|].
    eapply Qle_lt_trans; eassumption. }
  lia.
Qed.

Lemma ulp_exponent_mono (x y : Q) :
  0 < x -> x <= y -> (ulp_exponent x <= ulp_exponent y)%Z.
Proof.
  intros Hx Hxy. pose proof (binade_mono x y Hx Hxy). unfold ulp_exponent. lia.
Qed.

(** What lies below [2^(e+1)] has fewer than [2^53] units of the last
    place. *)
Lemma below_2_53 (x : Q) :
  0 < x -> x / 2 ^ ulp_exponent x < 2 ^ 53.
Proof.
  intros Hx. destruct (binade_spec x Hx) as [_ Hhi].
  apply Qlt_shift_div_r; [apply pow2_pos|].
  rewrite <- pow2_add. eapply Qlt_le_trans; [exact Hhi|].
  apply pow2_le. unfold ulp_exponent. lia.
Qed.

(** *** Rounding to the nearest integer, ties to even *)

Lemma round_half_even_bounds (q : Q) :
  (Qfloor q <= round_half_even q <= Qfloor q + 1)%Z.
Proof.
  unfold round_half_even.
  destruct (q - inject_Z (Qfloor q) ?= 1 # 2); [destruct (Z.even _)| |]; lia.
Qed.

Lemma round_half_even_Z (m : Z) : round_half_even (inject_Z m) = m.
Proof.
  unfold round_half_even. rewrite Qfloor_Z.
  assert (H : inject_Z m - inject_Z m < 1 # 2).
  { setoid_replace (inject_Z m - inject_Z m) with 0 using relation Qeq by ring. reflexivity. }
  destruct (Qcompare_spec (inject_Z m - inject_Z m) (1 # 2)) as [E|E|E];
    [rewrite E in H; discriminate | reflexivity |].
  exfalso. apply (Qlt_irrefl (1 # 2)). eapply Qlt_trans; eassumption.
Qed.

Lemma round_half_even_mono (q q' : Q) :
  q <= q' -> (round_half_even q <= round_half_even q')%Z.
Proof.
  intros Hq. pose proof (Qfloor_resp_le q q' Hq) as Hf.
  pose proof (round_half_even_bounds q) as Hb.
  pose proof (round_half_even_bounds q') as Hb'.
  destruct (Z.eq_dec (Qfloor q) (Qfloor q')) as [Heq|Hne]; [|lia].
  unfold round_half_even in *. rewrite <- Heq in *.
  set (f := Qfloor q) in *.
  assert (Hr : q - inject_Z f <= q' - inject_Z f).
  { apply Qplus_le_compat; [exact Hq | apply Qle_refl]. }
  destruct (Qcompare_spec (q - inject_Z f) (1 # 2)) as [H1|H1|H1];
    destruct (Qcompare_spec (q' - inject_Z f) (1 # 2)) as [H2|H2|H2];
    try destruct (Z.even f); try lia; exfalso; lra.
Qed.

Lemma round_half_even_comp (q q' : Q) :
  q == q' -> round_half_even q = round_half_even q'.
Proof.
  intros H. apply Z.le_antisymm; apply round_half_even_mono;
    rewrite H; apply Qle_refl.
Qed.

(** *** The nearest double of a positive rational *)

Lemma nearest_nonneg (x : Q) : 0 < x -> 0 <= nearest x.
Proof.
  intros Hx. unfold nearest. apply Qmult_le_0_compat.
  - change 0 with (inject_Z 0). rewrite <- Zle_Qle.
    rewrite <- (round_half_even_Z 0). apply round_half_even_mono.
    apply Qle_shift_div_l; [apply pow2_pos|].
    rewrite Qmult_0_l. now apply Qlt_le_weak.
  - apply Qlt_le_weak, pow2_pos.
Qed.

(** A rational that is a whole number of units of its last place is a
    double. *)
Lemma nearest_units (x : Q) (m : Z) :
  x / 2 ^ ulp_exponent x == inject_Z m -> nearest x == x.
Proof.
  intros H. unfold nearest.
  rewrite (round_half_even_comp _ _ H), round_half_even_Z, <- H.
  apply scale_back.
Qed.

Lemma nearest_fixed (x : Q) (m t : Z) :
  (0 < m < 2 ^ 53)%Z -> (-1074 <= t)%Z -> x == inject_Z m * 2 ^ t ->
  nearest x == x.
Proof.
  intros Hm Ht Hx.
  assert (Hpos : 0 < x).
  { rewrite Hx. apply Qmult_lt_0_compat; [|apply pow2_pos].
    change 0 with (inject_Z 0). rewrite <- Zlt_Qlt. lia. }
  destruct (binade_spec x Hpos) as [Hlo _].
  assert (Hs : (ulp_exponent x <= t)%Z).
  { assert (binade x < 53 + t)%Z; [|unfold ulp_exponent; lia].
    apply pow2_lt_inv. eapply Qle_lt_trans; [exact Hlo|].
    rewrite Hx, pow2_add. apply Qmult_lt_compat_r; [apply pow2_pos|].
    rewrite pow2_Z by lia. rewrite <- Zlt_Qlt. lia. }
  apply (nearest_units x (m * 2 ^ (t - ulp_exponent x))).
  revert Hs. generalize (ulp_exponent x). intros s Hs.
  rewrite inject_Z_mult, <- pow2_Z by lia.
  rewrite <- pow2_sub, Hx. field. apply pow2_nonzero.
Qed.

Lemma nearest_mono (x y : Q) : 0 < x -> x <= y -> nearest x <= nearest y.
Proof.
  intros Hx Hxy.
  assert (Hy : 0 < y) by (eapply Qlt_le_trans; eassumption).
  pose proof (ulp_exponent_mono x y Hx Hxy) as Hs.
  destruct (Z.eq_dec (ulp_exponent x) (ulp_exponent y)) as [Heq|Hne].
  - unfold nearest. rewrite Heq.
    apply Qmult_le_compat_r; [|apply Qlt_le_weak, pow2_pos].
    rewrite <- Zle_Qle. apply round_half_even_mono, scale_le, Hxy.
  - destruct (binade_spec x Hx) as [_ Hxhi].
    destruct (binade_spec y Hy) as [Hylo _].
    assert (Hsy : ulp_exponent y = (binade y - 52)%Z)
      by (unfold ulp_exponent in *; lia).
    assert (Hbin : (binade x < binade y)%Z)
      by (unfold ulp_exponent in *; lia).
    assert (Hex : (0 <= binade y - ulp_exponent x)%Z)
      by (unfold ulp_exponent in *; lia).
    apply Qle_trans with (2 ^ binade y).
    + unfold nearest.
      setoid_replace (2 ^ binade y)
        with (inject_Z (2 ^ (binade y - ulp_exponent x)) * 2 ^ ulp_exponent x)
        using relation Qeq.
      2:{ rewrite <- pow2_Z by lia. rewrite <- pow2_add.
          now replace (binade y - ulp_exponent x + ulp_exponent x)%Z
            with (binade y) by lia. }
      apply Qmult_le_compat_r; [|apply Qlt_le_weak, pow2_pos].
      rewrite <- Zle_Qle.
      rewrite <- (round_half_even_Z (2 ^ (binade y - ulp_exponent x))).
      apply round_half_even_mono.
      rewrite <- pow2_Z by lia. rewrite <- pow2_sub. apply scale_le.
      apply Qlt_le_weak. eapply Qlt_le_trans; [exact Hxhi|].
      apply pow2_le. lia.
    + unfold nearest. rewrite Hsy.
      setoid_replace (2 ^ binade y)
        with (inject_Z (2 ^ 52) * 2 ^ (binade y - 52)) using relation Qeq at 1.
      2:{ rewrite <- pow2_Z by lia. rewrite <- pow2_add.
          now replace (52 + (binade y - 52))%Z with (binade y) by lia. }
      apply Qmult_le_compat_r; [|apply Qlt_le_weak, pow2_pos].
      rewrite <- Zle_Qle. rewrite <- (round_half_even_Z (2 ^ 52)).
      apply round_half_even_mono.
      rewrite <- pow2_Z by lia.
      setoid_replace (2 ^ 52) with (2 ^ binade y / 2 ^ (binade y - 52))
        using relation Qeq.
      2:{ rewrite pow2_sub.
          now replace (binade y - (binade y - 52))%Z with 52%Z by lia. }
      apply scale_le, Hylo.
Qed.

(** *** The nearest double *)

Lemma number_pos (x : Q) : 0 < x -> number x = nearest x.
Proof.
  destruct x as [[|p|p] d]; unfold Qlt; simpl; intros H; try lia.
  reflexivity.
Qed.

Lemma number_neg (x : Q) : x < 0 -> number x = - nearest (- x).
Proof.
  destruct x as [[|p|p] d]; unfold Qlt; simpl; intros H; try lia.
  reflexivity.
Qed.

Lemma number_zero (x : Q) : x == 0 -> number x = 0.
Proof.
  destruct x as [[|p|p] d]; unfold Qeq; simpl; intros H; try lia.
  reflexivity.
Qed.

Lemma sign_cases (x : Q) : x < 0 \/ x == 0 \/ 0 < x.
Proof.
  destruct (Qcompare_spec x 0) as [H|H|H]; [right; left|left|right; right];
    exact H.
Qed.

Lemma number_nonneg (x : Q) : 0 <= x -> 0 <= number x.
Proof.
  intros Hx. destruct (sign_cases x) as [H|[H|H]]; [lra| |].
  - rewrite (number_zero x H). apply Qle_refl.
  - rewrite (number_pos x H). now apply nearest_nonneg.
Qed.

Lemma number_nonpos (x : Q) : x <= 0 -> number x <= 0.
Proof.
  intros Hx. destruct (sign_cases x) as [H|[H|H]]; [| |lra].
  - rewrite (number_neg x H).
    assert (0 <= nearest (- x)) by (apply nearest_nonneg; lra). lra.
  - rewrite (number_zero x H). apply Qle_refl.
Qed.

Lemma number_mono (x y : Q) : x <= y -> number x <= number y.
Proof.
  intros Hxy. destruct (sign_cases x) as [Hx|[Hx|Hx]].
  - destruct (sign_cases y) as [Hy|[Hy|Hy]].
    + rewrite (number_neg x Hx), (number_neg y Hy).
      assert (nearest (- y) <= nearest (- x)) by (apply nearest_mono; lra).
      lra.
    + pose proof (number_nonpos x ltac:(lra)).
      pose proof (number_nonneg y ltac:(lra)). lra.
    + pose proof (number_nonpos x ltac:(lra)).
      pose proof (number_nonneg y ltac:(lra)). lra.
  - rewrite (number_zero x Hx). apply number_nonneg. lra.
  - rewrite (number_pos x Hx), (number_pos y ltac:(lra)).
    now apply nearest_mono.
Qed.

#[global] Instance number_comp : Proper (Qeq ==> Qeq) number.
Proof.
  intros x y H. apply Qle_antisym; apply number_mono; rewrite H; apply Qle_refl.
Qed.

#[global] Instance mul_comp : Proper (Qeq ==> Qeq ==> Qeq) mul.
Proof. intros x y H x' y' H'. unfold mul. now rewrite H, H'. Qed.

#[global] Instance div_comp : Proper (Qeq ==> Qeq ==> Qeq) div.
Proof. intros x y H x' y' H'. unfold div. now rewrite H, H'. Qed.

Lemma number_opp (x : Q) : number (- x) == - number x.
Proof.
  destruct (sign_cases x) as [Hx|[Hx|Hx]].
  - rewrite (number_neg x Hx), (number_pos (- x)) by lra. ring.
  - rewrite (number_zero x Hx), (number_zero (- x)) by lra. reflexivity.
  - rewrite (number_pos x Hx), (number_neg (- x)) by lra.
    assert (E : - - x == x) by ring.
    assert (E' : number (- - x) == number x) by now rewrite E.
    rewrite !number_pos in E' by lra. now rewrite E'.
Qed.

(** The doubles: [m * 2^t] with a significand of at most 53 bits. *)
Lemma number_fixed (x : Q) (m t : Z) :
  (Z.abs m <= 2 ^ 53)%Z -> (-1074 <= t)%Z -> x == inject_Z m * 2 ^ t ->
  number x == x.
Proof.
  assert (Hpos : forall x m t, (0 < m <= 2 ^ 53)%Z -> (-1074 <= t)%Z ->
                   x == inject_Z m * 2 ^ t -> number x == x).
  { clear. intros x m t Hm Ht Hx.
    assert (H0 : 0 < x).
    { rewrite Hx. apply Qmult_lt_0_compat; [|apply pow2_pos].
      change 0 with (inject_Z 0). rewrite <- Zlt_Qlt. lia. }
    rewrite (number_pos x H0).
    destruct (Z.eq_dec m (2 ^ 53)%Z) as [->|Hne].
    - apply (nearest_fixed x (2 ^ 52)%Z (t + 1)%Z); [lia | lia |].
      rewrite Hx, pow2_add. change (inject_Z (2 ^ 53)) with (inject_Z (2 ^ 52) * 2 ^ 1).
      ring.
    - apply (nearest_fixed x m t); [lia | lia | exact Hx]. }
  intros Hm Ht Hx. destruct (Z.lt_trichotomy m 0) as [Hneg|[->|Hp]].
  - assert (E : number (- x) == - x).
    { apply (Hpos (- x) (- m)%Z t); [lia | lia |].
      rewrite Hx, inject_Z_opp. ring. }
    rewrite number_opp in E. lra.
  - assert (E : x == 0) by (rewrite Hx; ring).
    rewrite (number_zero x E). now rewrite E.
  - apply (Hpos x m t); [lia | lia | exact Hx].
Qed.

(** Integers of at most 53 bits are doubles. *)
Lemma number_Z (k : Z) : (Z.abs k <= 2 ^ 53)%Z -> number (inject_Z k) == inject_Z k.
Proof.
  intros Hk. apply (number_fixed _ k 0); [exact Hk | lia |].
  change (2 ^ 0) with 1. ring.
Qed.

Lemma number_MAX_VALUE : number MAX_VALUE == MAX_VALUE.
Proof. apply (number_fixed _ (2 ^ 53 - 1)%Z 971%Z); [lia | lia | reflexivity]. Qed.

(** The result of a rounding is a double. *)
Lemma number_idem (x : Q) : number (number x) == number x.
Proof.
  assert (Hpos : forall x, 0 < x -> number (nearest x) == nearest x).
  { clear. intros x Hx. unfold nearest.
    apply (number_fixed _ (round_half_even (x / 2 ^ ulp_exponent x))
                        (ulp_exponent x)); [|unfold ulp_exponent; lia|reflexivity].
    assert (0 <= round_half_even (x / 2 ^ ulp_exponent x))%Z.
    { rewrite <- (round_half_even_Z 0). apply round_half_even_mono.
      apply Qle_shift_div_l; [apply pow2_pos|].
      change (inject_Z 0) with 0. rewrite Qmult_0_l. lra. }
    assert (round_half_even (x / 2 ^ ulp_exponent x) <= 2 ^ 53)%Z.
    { rewrite <- (round_half_even_Z (2 ^ 53)%Z). apply round_half_even_mono.
      rewrite <- pow2_Z by lia. apply Qlt_le_weak, below_2_53, Hx. }
    lia. }
  destruct (sign_cases x) as [Hx|[Hx|Hx]].
  - rewrite (number_neg x Hx), number_opp. rewrite Hpos by lra. reflexivity.
  - rewrite (number_zero x Hx). reflexivity.
  - rewrite (number_pos x Hx). now apply Hpos.
Qed.

(** Two rationals at least two units of the last place apart round to
    different doubles. *)
Lemma number_strict (x y : Q) :
  0 <= x -> x + 2 * 2 ^ ulp_exponent y <= y -> number x < number y.
Proof.
  intros Hx Hgap.
  assert (Hy : 0 < y) by (pose proof (pow2_pos (ulp_exponent y)); lra).
  pose proof (below_2_53 y Hy) as Hbelow.
  assert (Hs : (-1074 <= ulp_exponent y)%Z) by (unfold ulp_exponent; lia).
  revert Hgap Hbelow Hs. generalize (ulp_exponent y). intros s Hgap Hbelow Hs.
  pose proof (pow2_pos s) as Hu.
  set (m := Qfloor (y / 2 ^ s)).
  pose proof (Qfloor_le (y / 2 ^ s)) as Hlo. fold m in Hlo.
  pose proof (Qlt_floor (y / 2 ^ s)) as Hhi. fold m in Hhi.
  rewrite inject_Z_plus in Hhi. change (inject_Z 1) with 1 in Hhi.
  clearbody m.
  assert (Hg2 : inject_Z m * 2 ^ s <= y).
  { pose proof (Qmult_le_compat_r _ _ (2 ^ s) Hlo (Qlt_le_weak _ _ Hu)) as H.
    now rewrite scale_back in H. }
  assert (Hg3 : y < (inject_Z m + 1) * 2 ^ s).
  { pose proof (Qmult_lt_compat_r _ _ (2 ^ s) Hu Hhi) as H.
    now rewrite scale_back in H. }
  assert (Hg1 : x < inject_Z (m - 1) * 2 ^ s).
  { unfold Zminus. rewrite inject_Z_plus, inject_Z_opp.
    change (inject_Z 1) with 1. lra. }
  assert (Hm1 : (0 < m - 1)%Z).
  { rewrite Zlt_Qlt. change (inject_Z 0) with 0.
    apply (Qmult_lt_r _ _ (2 ^ s) Hu). lra. }
  assert (Hm2 : (m < 2 ^ 53)%Z).
  { rewrite Zlt_Qlt. rewrite <- pow2_Z by lia. lra. }
  assert (F1 : number (inject_Z (m - 1) * 2 ^ s) == inject_Z (m - 1) * 2 ^ s)
    by (apply (number_fixed _ (m - 1) s); [lia | lia | reflexivity]).
  assert (F2 : number (inject_Z m * 2 ^ s) == inject_Z m * 2 ^ s)
    by (apply (number_fixed _ m s); [lia | lia | reflexivity]).
  pose proof (number_mono x _ (Qlt_le_weak _ _ Hg1)) as M1.
  pose proof (number_mono _ y Hg2) as M2.
  assert (Hstep : inject_Z (m - 1) * 2 ^ s < inject_Z m * 2 ^ s).
  { apply Qmult_lt_compat_r; [exact Hu|]. rewrite <- Zlt_Qlt. lia. }
  lra.
Qed.

End NumberFacts.

(** ** Frame file names and lexicographic order *)

Section FrameNameFacts.
Import JS FrameName.

Local Open Scope Z_scope.

Lemma ascii_compare_refl (c : ascii) : Ascii.compare c c = Eq.
Proof. unfold Ascii.compare. apply N.compare_refl. Qed.

Lemma string_compare_refl (s : string) : String.compare s s = Eq.
Proof.
  induction s as [|c s IH]; simpl; [reflexivity|].
  now rewrite ascii_compare_refl.
Qed.

Lemma append_String (c : ascii) (s t : string) :
  String c s +:+ t = String c (s +:+ t).
Proof. reflexivity. Qed.

Lemma append_Empty (t : string) : EmptyString +:+ t = t.
Proof. reflexivity. Qed.



Lemma pow10_pos (w : nat) : 0 < 10 ^ Z.of_nat w.
Proof. apply Z.pow_pos_nonneg; lia. Qed.


Lemma append_assoc (a b c : string) : (a +:+ b) +:+ c = a +:+ (b +:+ c).
Proof.
  induction a as [|x a IH]; [reflexivity|].
  rewrite !append_String. now rewrite IH.
Qed.

Lemma append_nil_r (a : string) : a +:+ EmptyString = a.
Proof.
  induction a as [|x a IH]; [reflexivity|].
  rewrite append_String. now rewrite IH.
Qed.


Lemma pow10_succ (w : nat) : 10 ^ Z.of_nat (S w) = 10 * 10 ^ Z.of_nat w.
Proof. rewrite Nat2Z.inj_succ, Z.pow_succ_r by lia. reflexivity. Qed.

(** The last of [S w] digits is [n mod 10]; the digits before it are those
    of [n / 10]. *)
Lemma fixed_digits_snoc (w : nat) :
  forall n : Z,
    0 <= n -> n < 10 ^ Z.of_nat (S w) ->
    fixed_digits (S w) n =
    fixed_digits w (n / 10) +:+ String (digit_char (n mod 10)) EmptyString.
Proof.
  induction w as [|w IH]; intros n Hn Hlt.
  - cbn [fixed_digits]. rewrite append_Empty.
    change (10 ^ Z.of_nat 1) with 10 in Hlt.
    change (10 ^ Z.of_nat 0) with 1.
    rewrite Z.div_1_r, (Z.mod_small n 10) by lia. reflexivity.
  - pose proof (pow10_pos w) as Hp. pose proof (pow10_succ w) as Hs.
    rewrite (pow10_succ (S w)) in Hlt.
    set (q := 10 ^ Z.of_nat (S w)) in *.
    change (fixed_digits (S (S w)) n)
      with (String (digit_char (n / q)) (fixed_digits (S w) (n mod q))).
    rewrite IH; [| apply Z.mod_pos_bound; lia | apply Z.mod_pos_bound; lia].
    change (fixed_digits (S w) (n / 10))
      with (String (digit_char (n / 10 / 10 ^ Z.of_nat w))
              (fixed_digits w ((n / 10) mod 10 ^ Z.of_nat w))).
    rewrite append_String.
    set (p := 10 ^ Z.of_nat w) in *.
    assert (Hrem : n mod q = n mod 10 + 10 * ((n / 10) mod p)).
    { rewrite Hs. apply Z.rem_mul_r; lia. }
    pose proof (Z.mod_pos_bound n 10 ltac:(lia)) as Hm.
    assert (E1 : n / q = n / 10 / p).
    { rewrite Hs. symmetry. apply Z.div_div; lia. }
    assert (E2 : (n mod q) / 10 = (n / 10) mod p).
    { rewrite Hrem.
      rewrite (Z.mul_comm 10), Z.div_add by lia.
      rewrite Z.div_small by lia. lia. }
    assert (E3 : (n mod q) mod 10 = n mod 10).
    { rewrite Hrem, (Z.mul_comm 10), Z.mod_add by lia.
      apply Z.mod_small. lia. }
    now rewrite E1, E2, E3.
Qed.

Lemma fixed_digits_small (w : nat) (n : Z) :
  0 <= n -> n < 10 ->
  fixed_digits (S w) n =
  repeat_char "0" w +:+ String (digit_char n) EmptyString.
Proof.
  intros Hn Hlt. induction w as [|w IH].
  - cbn [fixed_digits repeat_char]. rewrite append_Empty.
    change (10 ^ Z.of_nat 0) with 1. now rewrite Z.div_1_r.
  - pose proof (pow10_pos w) as Hp. pose proof (pow10_succ w) as Hs.
    change (fixed_digits (S (S w)) n)
      with (String (digit_char (n / 10 ^ Z.of_nat (S w)))
              (fixed_digits (S w) (n mod 10 ^ Z.of_nat (S w)))).
    rewrite Z.div_small, Z.mod_small by lia.
    rewrite IH. reflexivity.
Qed.

(** [digits_acc] writes the digits of [n] without the leading zeros that
    the fixed-width rendering has; [k] counts those zeros. *)
Lemma digits_acc_fixed (w : nat) :
  forall (fuel : nat) (n : Z) (acc : string),
    0 <= n -> n < 10 ^ Z.of_nat (S w) ->
    (0 < fuel)%nat -> n < 10 ^ Z.of_nat fuel ->
    exists k : nat,
      (k <= w)%nat /\
      fixed_digits (S w) n +:+ acc =
        repeat_char "0" k +:+ digits_acc fuel n acc /\
      String.length (digits_acc fuel n acc) =
        (S w - k + String.length acc)%nat.
Proof.
  induction w as [|w IH]; intros fuel n acc Hn Hw Hf Hfuel;
    (destruct fuel as [|f]; [lia|]); cbn [digits_acc].
  - change (10 ^ Z.of_nat 1) with 10 in Hw.
    destruct (Z.ltb_spec n 10) as [_|?]; [|lia].
    exists 0%nat. split; [lia|]. split.
    + cbn [fixed_digits repeat_char]. rewrite append_Empty.
      change (10 ^ Z.of_nat 0) with 1. now rewrite Z.div_1_r.
    + reflexivity.
  - destruct (Z.ltb_spec n 10) as [Hsmall|Hbig].
    + exists (S w). split; [lia|]. split.
      * rewrite fixed_digits_small by lia.
        rewrite append_assoc, append_String, append_Empty. reflexivity.
      * cbn [String.length]. lia.
    + rewrite pow10_succ in Hw. rewrite pow10_succ in Hfuel.
      assert (Hq : n / 10 < 10 ^ Z.of_nat (S w))
        by (apply Z.div_lt_upper_bound; lia).
      assert (Hqf : n / 10 < 10 ^ Z.of_nat f)
        by (apply Z.div_lt_upper_bound; lia).
      assert (Hq1 : 1 <= n / 10) by (apply Z.div_le_lower_bound; lia).
      assert (Hfpos : (0 < f)%nat).
      { destruct f; [|lia]. change (10 ^ Z.of_nat 0) with 1 in Hqf. lia. }
      destruct (IH f (n / 10) (String (digit_char (n mod 10)) acc))
        as (k & Hk & Heq & Hlen); try lia.
      exists k. split; [lia|]. split.
      * rewrite fixed_digits_snoc by (try rewrite (pow10_succ (S w)); lia).
        rewrite append_assoc, append_String, append_Empty. exact Heq.
      * rewrite Hlen. cbn [String.length]. lia.
Qed.

Lemma digits_fuel_enough (n : Z) : 0 <= n -> n < 10 ^ Z.of_nat (digits_fuel n).
Proof.
  intros Hn. unfold digits_fuel.
  destruct (Z.eq_dec n 0) as [->|Hne].
  - reflexivity.
  - pose proof (Z.log2_spec n ltac:(lia)) as [_ Hlt].
    pose proof (Z.log2_nonneg n) as Hl.
    rewrite Nat2Z.inj_succ, Z2Nat.id by lia.
    eapply Z.lt_le_trans; [exact Hlt|].
    apply Z.pow_le_mono_l. lia.
Qed.


End FrameNameFacts.

(** ** A program logic for job computations

    A monitor reads the log of a computation event by event: it keeps a
    ghost state [Mon], updated by [delta], next to the current job record,
    and checks every event against [ok].  [spec P m Q E] says that, started
    in a state satisfying [P], the log of [m] is accepted by the monitor
    and [m] ends in [Q] when it returns and in [E] when it throws. *)

Section TraceLogic.
Import Server.

Context {Mon : Type}.
Variable delta : Mon -> Event -> Mon.
Variable ok : Mon -> Job -> Event -> Prop.

Definition advance (s : Mon * Job) (e : Event) : Mon * Job :=
  (delta s.1 e, match e with EvJob j' => j' | _ => s.2 end).

Fixpoint accepted (s : Mon * Job) (l : list Event) : Prop :=
  match l with
  | [] => True
  | e :: l' => ok s.1 s.2 e /\ accepted (advance s e) l'
  end.

Definition after (s : Mon * Job) (l : list Event) : Mon * Job :=
  fold_left advance l s.

Definition spec {A} (P : Mon -> Job -> Prop) (m : M A)
    (Q : A -> Mon -> Job -> Prop) (E : Mon -> Job -> Prop) : Prop :=
  forall mu j, P mu j ->
    accepted (mu, j) (m j).1.1 /\
    (after (mu, j) (m j).1.1).2 = (m j).1.2 /\
    match (m j).2 with
    | inr a => Q a (after (mu, j) (m j).1.1).1 (m j).1.2
    | inl _ => E (after (mu, j) (m j).1.1).1 (m j).1.2
    end.

Lemma after_app s l1 l2 : after s (l1 ++ l2) = after (after s l1) l2.
Proof. unfold after. apply fold_left_app. Qed.

Lemma accepted_app s l1 l2 :
  accepted s (l1 ++ l2) <-> accepted s l1 /\ accepted (after s l1) l2.
Proof.
  revert s. induction l1 as [|e l1 IH]; intros s; simpl.
  - tauto.
  - rewrite IH. tauto.
Qed.

Lemma spec_weaken {A} (P P' : Mon -> Job -> Prop) (m : M A)
    (Q Q' : A -> Mon -> Job -> Prop) (E E' : Mon -> Job -> Prop) :
  spec P' m Q' E' ->
  (forall mu j, P mu j -> P' mu j) ->
  (forall a mu j, Q' a mu j -> Q a mu j) ->
  (forall mu j, E' mu j -> E mu j) ->
  spec P m Q E.
Proof.
  intros Hm HP HQ HE mu j Hj.
  destruct (Hm mu j (HP _ _ Hj)) as (Hacc & Hjob & Hres).
  split; [exact Hacc|]. split; [exact Hjob|].
  destruct ((m j).2); auto.
Qed.

Lemma spec_ret {A} (a : A) (P : Mon -> Job -> Prop) Q E :
  (forall mu j, P mu j -> Q a mu j) -> spec P (mret a) Q E.
Proof. intros H mu j Hj. simpl. auto. Qed.

Lemma spec_throw {A} (e : string) (P : Mon -> Job -> Prop)
    (Q : A -> Mon -> Job -> Prop) E :
  (forall mu j, P mu j -> E mu j) -> spec P (throw e) Q E.
Proof. intros H mu j Hj. simpl. auto. Qed.

Lemma spec_bind {A B} (m : M A) (k : A -> M B) P Q1 Q E :
  spec P m Q1 E ->
  (forall a, spec (Q1 a) (k a) Q E) ->
  spec P (m ≫= k) Q E.
Proof.
  intros Hm Hk mu j Hj.
  destruct (Hm mu j Hj) as (Hacc & Hjob & Hres).
  unfold mbind, M_bind, bind.
  destruct (m j) as [[l1 j1] [e|a]]; simpl in *.
  - auto.
  - destruct (after (mu, j) l1) as [mu1 j1'] eqn:Haft. simpl in *. subst j1'.
    destruct (Hk a mu1 j1 Hres) as (Hacc2 & Hjob2 & Hres2).
    destruct (k a j1) as [[l2 j2] r]; simpl in *.
    rewrite accepted_app, after_app, Haft. auto.
Qed.

Lemma spec_emit (e : Event) (P : Mon -> Job -> Prop) Q E :
  (forall mu j, P mu j ->
     ok mu j e /\ Q tt (delta mu e) j /\
     (advance (mu, j) e).2 = j) ->
  spec P (emit e) Q E.
Proof.
  intros H mu j Hj. destruct (H mu j Hj) as (Hok & HQ & Hsame).
  simpl. auto.
Qed.

Lemma spec_assign (f : Job -> Job) (P : Mon -> Job -> Prop) Q E :
  (forall mu j, P mu j ->
     ok mu j (EvJob (f j)) /\ Q tt (delta mu (EvJob (f j))) (f j)) ->
  spec P (assign f) Q E.
Proof.
  intros H mu j Hj. destruct (H mu j Hj) as (Hok & HQ).
  simpl. auto.
Qed.

Lemma spec_await (call : Event) (o : Outcome) (P : Mon -> Job -> Prop) Q E :
  (forall mu j, P mu j ->
     ok mu j call /\ (advance (mu, j) call).2 = j /\
     Q tt (delta mu call) j /\ E (delta mu call) j) ->
  spec P (await call o) Q E.
Proof.
  intros H mu j Hj. destruct (H mu j Hj) as (Hok & Hsame & HQ & HE).
  unfold await. destruct o; simpl; auto.
Qed.

Lemma spec_try_finally {A} (body : M A) (fin : M unit) P Q1 E1 Q E :
  spec P body Q1 E1 ->
  (forall a, spec (Q1 a) fin (fun _ => Q a) E) ->
  spec E1 fin (fun _ => E) E ->
  spec P (try_finally body fin) Q E.
Proof.
  intros Hb Hfq Hfe mu j Hj.
  destruct (Hb mu j Hj) as (Hacc & Hjob & Hres).
  unfold try_finally.
  destruct (body j) as [[l1 j1] r]; simpl in *.
  destruct (after (mu, j) l1) as [mu1 j1'] eqn:Haft. simpl in *. subst j1'.
  destruct r as [e|a].
  - destruct (Hfe mu1 j1 Hres) as (Hacc2 & Hjob2 & Hres2).
    destruct (fin j1) as [[l2 j2] [e2|[]]]; simpl in *;
      rewrite accepted_app, after_app, Haft; auto.
  - destruct (Hfq a mu1 j1 Hres) as (Hacc2 & Hjob2 & Hres2).
    destruct (fin j1) as [[l2 j2] [e2|[]]]; simpl in *;
      rewrite accepted_app, after_app, Haft; auto.
Qed.

Lemma spec_catch {A} (m : M A) (h : string -> M A) P Q E1 E :
  spec P m Q E1 ->
  (forall e, spec E1 (h e) Q E) ->
  spec P (catch m h) Q E.
Proof.
  intros Hm Hh mu j Hj.
  destruct (Hm mu j Hj) as (Hacc & Hjob & Hres).
  unfold catch.
  destruct (m j) as [[l1 j1] [e|a]]; simpl in *; [|auto].
  destruct (after (mu, j) l1) as [mu1 j1'] eqn:Haft. simpl in *. subst j1'.
  destruct (Hh e mu1 j1 Hres) as (Hacc2 & Hjob2 & Hres2).
  destruct (h e j1) as [[l2 j2] r]; simpl in *.
  rewrite accepted_app, after_app, Haft. auto.
Qed.

(** The loop rule: [Inv i] holds before iteration [i]; with the fuel the
    code gives it, the loop ends because its condition fails. *)
Lemma spec_for_loop (body : Z -> M unit) (lo bound : Z)
    (Inv : Z -> Mon -> Job -> Prop) E :
  (forall i, (lo <= i < bound)%Z ->
     spec (Inv i) (body i) (fun _ => Inv (i + 1)%Z) E) ->
  forall fuel i,
    (lo <= i)%Z ->
    (Z.to_nat (bound - i) <= fuel)%nat ->
    spec (Inv i) (for_loop fuel i bound body)
         (fun _ => Inv (Z.max i bound)) E.
Proof.
  intros Hbody fuel. induction fuel as [|f IH]; intros i Hlo Hfuel;
    cbn [for_loop].
  - apply spec_ret. intros mu j Hj.
    replace (Z.max i bound) with i by lia. exact Hj.
  - destruct (Z.ltb_spec i bound) as [Hlt|Hge].
    + eapply spec_bind; [apply Hbody; lia|].
      intros []. replace (Z.max i bound) with (Z.max (i + 1) bound) by lia.
      apply IH; lia.
    + apply spec_ret. intros mu j Hj.
      replace (Z.max i bound) with i by lia. exact Hj.
Qed.

(** Rules with the postcondition given, for use under [spec_bind]. *)

Definition external (e : Event) : Prop :=
  match e with EvJob _ => False | _ => True end.

Lemma external_advance mu j e : external e -> (advance (mu, j) e).2 = j.
Proof. destruct e; simpl; tauto. Qed.

Lemma spec_assign_to (P' : Mon -> Job -> Prop) (f : Job -> Job)
    (P : Mon -> Job -> Prop) E :
  (forall mu j, P mu j ->
     ok mu j (EvJob (f j)) /\ P' (delta mu (EvJob (f j))) (f j)) ->
  spec P (assign f) (fun _ => P') E.
Proof. intros H. now apply spec_assign. Qed.

Lemma spec_await_to (P' : Mon -> Job -> Prop) (call : Event) (o : Outcome)
    (P : Mon -> Job -> Prop) E :
  external call ->
  (forall mu j, P mu j ->
     ok mu j call /\ P' (delta mu call) j /\ E (delta mu call) j) ->
  spec P (await call o) (fun _ => P') E.
Proof.
  intros Hext H. apply spec_await. intros mu j Hj.
  destruct (H mu j Hj) as (Hok & HP' & HE).
  split; [exact Hok|]. split; [now apply external_advance|]. auto.
Qed.

Lemma spec_emit_to (P' : Mon -> Job -> Prop) (e : Event)
    (P : Mon -> Job -> Prop) E :
  external e ->
  (forall mu j, P mu j -> ok mu j e /\ P' (delta mu e) j) ->
  spec P (emit e) (fun _ => P') E.
Proof.
  intros Hext H. apply spec_emit. intros mu j Hj.
  destruct (H mu j Hj) as (Hok & HP').
  split; [exact Hok|]. split; [exact HP'|]. now apply external_advance.
Qed.

(** The same, asking for the exceptional postcondition only when the call
    rejects. *)
Lemma spec_await_cases (P' : Mon -> Job -> Prop) (call : Event) (o : Outcome)
    (P : Mon -> Job -> Prop) E :
  external call ->
  (forall mu j, P mu j ->
     ok mu j call /\ P' (delta mu call) j /\
     (forall err, o = Rejects err -> E (delta mu call) j)) ->
  spec P (await call o) (fun _ => P') E.
Proof.
  intros Hext H mu j Hj. destruct (H mu j Hj) as (Hok & HP' & HE).
  pose proof (external_advance mu j call Hext) as Hsame.
  unfold await. destruct o as [|err]; simpl; [auto|].
  split; [auto|]. split; [exact Hsame|]. now apply (HE err).
Qed.

(** After an [await] that returned, the call is known to have resolved. *)
Lemma spec_await_knowing (P' : Mon -> Job -> Prop) (call : Event)
    (o : Outcome) (P : Mon -> Job -> Prop) E :
  external call ->
  (forall mu j, P mu j ->
     ok mu j call /\
     (o = Resolves -> P' (delta mu call) j) /\
     (forall err, o = Rejects err -> E (delta mu call) j)) ->
  spec P (await call o) (fun _ => P') E.
Proof.
  intros Hext H mu j Hj. destruct (H mu j Hj) as (Hok & HP' & HE).
  pose proof (external_advance mu j call Hext) as Hsame.
  unfold await. destruct o as [|err]; simpl.
  - split; [auto|]. split; [exact Hsame|]. now apply HP'.
  - split; [auto|]. split; [exact Hsame|]. now apply (HE err).
Qed.

(** A fact that does not depend on the state can be taken out of the
    precondition. *)
Lemma spec_assume {A} (fact : Prop) (m : M A) (P : Mon -> Job -> Prop) Q E :
  (fact -> spec P m Q E) ->
  spec (fun mu j => fact /\ P mu j) m Q E.
Proof. intros H mu j [Hfact Hj]. now apply H. Qed.

(** The background never touches the job: any assertion that external
    events preserve holds after [resolveBackground], which never throws. *)
Lemma spec_resolveBackground (v : Variant) (env : Env) (c : Config)
    (P : Mon -> Job -> Prop) E :
  (forall e mu j, external e -> P mu j -> ok mu j e /\ P (delta mu e) j) ->
  spec P (resolveBackground v env c) (fun _ => P) E.
Proof.
  intros Hext. destruct v as [|d]; cbn [resolveBackground].
  - apply spec_ret. auto.
  - eapply spec_catch with (E1 := P); [|intros e; apply spec_ret; auto].
    unfold ensureBackgroundVideo.
    destruct (String.eqb (backgroundUrl c) ""); [apply spec_ret; auto|].
    destruct (String.prefix "/backgrounds/" (backgroundUrl c));
      [apply spec_ret; auto|].
    eapply spec_bind;
      [apply (spec_await_to P); [exact I|]; intros mu j Hj;
       destruct (Hext (EvYtdlp (backgroundUrl c)
                         (JS.path_join "data/backgrounds" (bgId env +:+ ".mp4")))
                      mu j I Hj); auto|].
    intros []. eapply spec_bind;
      [apply (spec_await_to P); [exact I|]; intros mu j Hj;
       destruct (Hext (EvScale
                         (JS.path_join "data/backgrounds" (bgId env +:+ ".mp4"))
                         (JS.path_join "data/backgrounds"
                            (bgId env +:+ "-scaled.mp4")))
                      mu j I Hj); auto|].
    intros []. apply spec_ret. auto.
Qed.

End TraceLogic.

(** ** C9: frame file names against numeric order *)

Section FrameOrder.
Import JS FrameName Server.
Local Open Scope Z_scope.





End FrameOrder.

(** ** Lists read pairwise *)

Section Stepwise.
Context {A : Type} (R : A -> A -> Prop).

(** Every element is related to the next one. *)
Fixpoint stepwise (l : list A) : Prop :=
  match l with
  | x :: (y :: _) as l' => R x y /\ stepwise l'
  | _ => True
  end.

Lemma stepwise_cons (x y : A) (l : list A) :
  stepwise (x :: y :: l) <-> R x y /\ stepwise (y :: l).
Proof. reflexivity. Qed.

End Stepwise.

Lemma stepwise_impl {A} (R R' : A -> A -> Prop) (l : list A) :
  (forall x y, R x y -> R' x y) -> stepwise R l -> stepwise R' l.
Proof.
  intros H. induction l as [|x l IH]; [exact (fun t => t)|].
  destruct l as [|y l]; [exact (fun t => t)|].
  intros [Hxy Hl]. split; [apply H, Hxy | apply IH, Hl].
Qed.

(** A monitor that checks a relation between consecutive job records
    accepts a log exactly when the snapshots are stepwise related. *)
Lemma accepted_stepwise {Mon} (delta : Mon -> Server.Event -> Mon)
    (ok : Mon -> Server.Job -> Server.Event -> Prop)
    (R : Server.Job -> Server.Job -> Prop) :
  (forall mu j j', ok mu j (Server.EvJob j') -> R j j') ->
  forall l mu j,
    accepted delta ok (mu, j) l -> stepwise R (j :: Server.snapshots l).
Proof.
  intros Hok l. induction l as [|e l IH]; intros mu j Hacc; [exact I|].
  destruct Hacc as [He Hl]. specialize (IH _ _ Hl).
  destruct e; cbn in IH |- *; try exact IH.
  split; [eapply Hok; exact He | exact IH].
Qed.

(** ** Runs in which the captures succeed *)

(** Everything up to the last capture resolves. *)
Definition captures_resolve (v : Server.Variant) (env : Server.Env)
    (c : Server.Config) : Prop :=
  Server.launch env = Server.Resolves /\
  Server.newPage env = Server.Resolves /\
  Server.goto env = Server.Resolves /\
  Server.pageData env = Server.Resolves /\
  Server.startRender env = Server.Resolves /\
  forall i, (0 <= i < Server.totalFrames v c)%Z ->
    Server.setTimelineTime env i = Server.Resolves /\
    Server.screenshot env i = Server.Resolves.

(** ** C2: the status of a job *)

Section StatusFacts.
Import Server.

(** The graph of the design document: queued → rendering → done, or
    queued → rendering → error at any point, the encoding phase being the
    tail of [rendering].  A record may repeat the status of the one before
    it; no edge leaves [done] or [error]. *)
Definition legal_step (j j' : Job) : Prop :=
  (status j = "queued" /\ (status j' = "queued" \/ status j' = "rendering")) \/
  (status j = "rendering" /\
     (status j' = "rendering" \/ status j' = "done" \/ status j' = "error")) \/
  (status j = "done" /\ status j' = "done") \/
  (status j = "error" /\ status j' = "error").

(** The edge that the design forbids and the code can take. *)
Definition slip_step (j j' : Job) : Prop :=
  status j = "done" /\ status j' = "error".

(** What the code does: the graph of the design, and [done → error]. *)
Definition code_step (j j' : Job) : Prop := legal_step j j' \/ slip_step j j'.

(** The same for one environment: [done → error] needs a
    [browser.close()] that rejects. *)
Definition run_step (env : Env) (j j' : Job) : Prop :=
  legal_step j j' \/
  ((exists err, browserClose env = Rejects err) /\ slip_step j j').

(** A [done] record is followed by an [error] record. *)
Definition leaves_done (l : list Job) : Prop :=
  exists (pre post : list Job) (j j' : Job),
    l = pre ++ j :: j' :: post /\ status j = "done" /\ status j' = "error".

Definition status_delta (mu : unit) (_ : Event) : unit := mu.

Definition status_ok (env : Env) (_ : unit) (j : Job) (e : Event) : Prop :=
  match e with EvJob j' => run_step env j j' | _ => True end.

Definition st (s : string) : unit -> Job -> Prop := fun _ j => status j = s.

(** Where an exception of [generateVideo] finds the job: [rendering], or
    [done] when it is [browser.close()] that rejected. *)
Definition thrown (env : Env) : unit -> Job -> Prop :=
  fun _ j => status j = "rendering" \/
             ((exists err, browserClose env = Rejects err) /\ status j = "done").

Local Abbreviation sspec env := (spec status_delta (status_ok env)).

Local Ltac status_side :=
  let mu := fresh "mu" in
  let j := fresh "j" in
  let Hj := fresh "Hj" in
  intros mu j Hj;
  unfold st, thrown, status_ok, run_step, legal_step, slip_step in *;
  simpl in *; intuition (auto; try congruence).

Local Ltac keep_await env P :=
  eapply spec_bind;
  [ apply (spec_await_to status_delta (status_ok env) P);
    [exact I | status_side]
  | intros [] ].

Local Ltac keep_assign env P :=
  eapply spec_bind;
  [ apply (spec_assign_to status_delta (status_ok env) P); status_side
  | intros [] ].

Lemma status_external (env : Env) (s : string) :
  forall e mu j, external e -> st s mu j ->
    status_ok env mu j e /\ st s (status_delta mu e) j.
Proof. intros e mu j He Hj. destruct e; simpl in *; tauto. Qed.

Lemma status_progressEvents env (ps : list (option Q)) E :
  sspec env (st "rendering") (progressEvents ps) (fun _ => st "rendering") E.
Proof.
  induction ps as [|p ps IH]; cbn [progressEvents].
  - apply spec_ret. auto.
  - eapply spec_bind;
      [apply (spec_emit_to status_delta (status_ok env) (st "rendering"));
       [exact I | status_side]|].
    intros [].
    eapply spec_bind with (Q1 := fun _ => st "rendering");
      [|intros []; exact IH].
    unfold onProgress. destruct p as [q|]; [|apply spec_ret; auto].
    destruct (Qeq_bool q 0); [apply spec_ret; auto|].
    apply (spec_assign_to status_delta (status_ok env) (st "rendering")).
    status_side.
Qed.

Lemma status_captureFrame v env c total i :
  sspec env (st "rendering") (captureFrame v env c total i)
        (fun _ => st "rendering") (st "rendering").
Proof.
  unfold captureFrame.
  keep_await env (st "rendering"). keep_await env (st "rendering").
  keep_assign env (st "rendering").
  apply (spec_assign_to status_delta (status_ok env) (st "rendering")).
  status_side.
Qed.

Lemma status_generateVideo v env c :
  sspec env (st "queued") (generateVideo v env c)
        (fun _ => st "done") (thrown env).
Proof.
  unfold generateVideo.
  keep_assign env (st "rendering"). keep_assign env (st "rendering").
  keep_await env (st "rendering").
  eapply spec_try_finally
    with (Q1 := fun _ => st "done") (E1 := st "rendering").
  - keep_await env (st "rendering"). keep_await env (st "rendering").
    eapply spec_bind;
      [apply spec_resolveBackground; apply status_external|intros bgVideo].
    keep_await env (st "rendering"). keep_await env (st "rendering").
    eapply spec_bind.
    { eapply spec_weaken;
        [apply (spec_for_loop status_delta (status_ok env) _ 0 _
                  (fun _ => st "rendering") (st "rendering"));
         [intros i _; apply status_captureFrame | lia | lia]
        | auto | intros a mu j H; exact H | auto]. }
    intros []. keep_assign env (st "rendering").
    keep_assign env (st "rendering").
    eapply spec_bind.
    { unfold encode.
      eapply spec_bind;
        [apply (spec_emit_to status_delta (status_ok env) (st "rendering"));
         [exact I | status_side]|].
      intros []. eapply spec_bind; [apply status_progressEvents|].
      intros []. destruct (encoderEnd env).
      - apply (spec_emit_to status_delta (status_ok env) (st "rendering"));
          [exact I | status_side].
      - eapply spec_bind;
          [apply (spec_emit_to status_delta (status_ok env) (st "rendering"));
           [exact I | status_side]|].
        intros []. apply spec_throw. status_side. }
    intros []. keep_assign env (st "rendering"). keep_assign env (st "done").
    keep_assign env (st "done").
    apply (spec_assign_to status_delta (status_ok env) (st "done")).
    status_side.
  - intros [].
    eapply spec_bind;
      [apply (spec_await_cases status_delta (status_ok env) (st "done"));
       [exact I|];
       intros mu j Hj; split; [exact I|]; split; [exact Hj|];
       intros err Herr; right; split; [now exists err | exact Hj]
      |intros []].
    apply (spec_emit_to status_delta (status_ok env) (st "done"));
      [exact I | status_side].
  - keep_await env (st "rendering").
    apply (spec_emit_to status_delta (status_ok env) (thrown env));
      [exact I | status_side].
Qed.

Lemma status_jobTask v env c :
  sspec env (st "queued") (jobTask v env c)
        (fun _ _ j => status j = "done" \/ status j = "error") (st "error").
Proof.
  unfold jobTask.
  eapply spec_catch with (E1 := thrown env).
  - eapply spec_weaken; [apply status_generateVideo| auto | | auto].
    intros a mu j H. left. exact H.
  - intros err. keep_assign env (st "error").
    apply (spec_assign_to status_delta (status_ok env)
             (fun _ j => status j = "done" \/ status j = "error")).
    status_side.
Qed.

(** The transitions of a run, exactly. *)
Lemma status_steps_of_run v env c jobId :
  stepwise (run_step env) (snapshots (lifetime v env c jobId)).
Proof.
  unfold lifetime. cbn [snapshots omap list_omap].
  change (stepwise (run_step env)
            (newJob jobId :: snapshots (jobTask v env c (newJob jobId)).1.1)).
  destruct (status_jobTask v env c tt (newJob jobId) eq_refl) as (Hacc & _).
  eapply accepted_stepwise; [|exact Hacc].
  intros mu j j' H. exact H.
Qed.

(** A job of one frame. *)
Definition one_frame_job : Config :=
  mkConfig "Mensagem no Ultrassom" 1 7 [] 1 1 1080 1920
           "data/frames/job" "data/videos/job.mp4" "" "sunset" None.

Lemma stepwise_lookup {A} (R : A -> A -> Prop) (l : list A) :
  stepwise R l ->
  forall (i : nat) (x y : A),
    l !! i = Some x -> l !! S i = Some y -> R x y.
Proof.
  induction l as [|a l IH]; intros Hl i x y Hx Hy; [discriminate Hx|].
  destruct l as [|b l]; [discriminate Hy|].
  destruct Hl as [Hab Hl]. destruct i as [|i].
  - simpl in Hx, Hy. congruence.
  - exact (IH Hl i x y Hx Hy).
Qed.

Lemma stepwise_middle {A} (R : A -> A -> Prop) (pre post : list A) (x y : A) :
  stepwise R (pre ++ x :: y :: post) -> R x y.
Proof.
  induction pre as [|a pre IH]; [intros [H _]; exact H|].
  intros H. apply IH. destruct pre as [|b pre]; simpl in H |- *; apply H.
Qed.

(** Leaving [done] is what the graph of the design forbids. *)
Lemma leaves_done_illegal (l : list Job) :
  leaves_done l -> ~ stepwise legal_step l.
Proof.
  intros (pre & post & j & j' & -> & Hj & Hj') H.
  apply stepwise_middle in H. unfold legal_step in H.
  rewrite Hj, Hj' in H. intuition discriminate.
Qed.

(** *** The run in which only [browser.close()] fails *)

(** The monitor that keeps the records. *)
Definition snap_delta (mu : list Job) (e : Event) : list Job :=
  match e with EvJob j => mu ++ [j] | _ => mu end.

Definition snap_ok (_ : list Job) (_ : Job) (_ : Event) : Prop := True.

Lemma after_snapshots (l : list Event) (mu : list Job) (j : Job) :
  (after snap_delta (mu, j) l).1 = mu ++ snapshots l.
Proof.
  revert mu j. induction l as [|e l IH]; intros mu j.
  - simpl. now rewrite app_nil_r.
  - change (after snap_delta (mu, j) (e :: l))
      with (after snap_delta (advance snap_delta (mu, j) e) l).
    unfold advance. rewrite IH. destruct e; simpl; try reflexivity.
    now rewrite <- app_assoc.
Qed.

(** The last record is the job as it is now, and its status is [s]. *)
Definition latest (s : string) : list Job -> Job -> Prop :=
  fun mu j => last mu = Some j /\ status j = s.

Definition never : list Job -> Job -> Prop := fun _ _ => False.

Section CloseFails.
Variables (v : Variant) (env : Env) (c : Config) (err : string).
Hypothesis Hcaptures : captures_resolve v env c.
Hypothesis Hencoder : encoderEnd env = Resolves.
Hypothesis Hclose : browserClose env = Rejects err.

Local Abbreviation lspec := (spec snap_delta snap_ok).

Lemma latest_assign (s s' : string) (f : Job -> Job) E :
  (forall j, status j = s -> status (f j) = s') ->
  lspec (latest s) (assign f) (fun _ => latest s') E.
Proof.
  intros Hf. apply spec_assign_to. intros mu j [_ Hs].
  split; [exact I|]. split; [apply last_snoc | now apply Hf].
Qed.

Lemma latest_await (s : string) (call : Event) (o : Outcome) E :
  external call -> o = Resolves ->
  lspec (latest s) (await call o) (fun _ => latest s) E.
Proof.
  intros Hext Ho. apply spec_await_knowing; [exact Hext|].
  intros mu j Hj. split; [exact I|]. split.
  - intros _. destruct call; simpl in *; try exact Hj. destruct Hext.
  - intros e He. congruence.
Qed.

Lemma latest_emit (s : string) (e : Event) E :
  external e -> lspec (latest s) (emit e) (fun _ => latest s) E.
Proof.
  intros Hext. apply spec_emit_to; [exact Hext|].
  intros mu j Hj. split; [exact I|].
  destruct e; simpl in *; try exact Hj. destruct Hext.
Qed.

Local Ltac step_assign s' :=
  eapply spec_bind;
  [ apply (latest_assign _ s'); intros j Hj; simpl; try exact Hj; reflexivity
  | intros [] ].

Local Ltac step_await :=
  eapply spec_bind;
  [ apply latest_await; [exact I | try apply Hcaptures] | intros [] ].

Lemma latest_progressEvents (ps : list (option Q)) E :
  lspec (latest "rendering") (progressEvents ps)
        (fun _ => latest "rendering") E.
Proof.
  induction ps as [|p ps IH]; cbn [progressEvents].
  - apply spec_ret. auto.
  - eapply spec_bind; [apply latest_emit; exact I|]. intros [].
    eapply spec_bind with (Q1 := fun _ => latest "rendering");
      [|intros []; exact IH].
    unfold onProgress. destruct p as [q|]; [|apply spec_ret; auto].
    destruct (Qeq_bool q 0); [apply spec_ret; auto|].
    apply (latest_assign "rendering" "rendering"). intros j Hj. exact Hj.
Qed.

Lemma latest_captureFrame (i : Z) :
  (0 <= i < totalFrames v c)%Z ->
  lspec (latest "rendering") (captureFrame v env c (totalFrames v c) i)
        (fun _ => latest "rendering") never.
Proof.
  intros Hi. unfold captureFrame.
  destruct Hcaptures as (_ & _ & _ & _ & _ & Hloop).
  destruct (Hloop i Hi) as [Hset Hshot].
  eapply spec_bind; [apply latest_await; [exact I | exact Hset]|intros []].
  eapply spec_bind; [apply latest_await; [exact I | exact Hshot]|intros []].
  step_assign "rendering"%string.
  apply (latest_assign "rendering" "rendering"). intros j Hj. exact Hj.
Qed.

(** [generateVideo] sets the job [done] and then throws. *)
Lemma latest_generateVideo :
  lspec (latest "queued") (generateVideo v env c)
        (fun _ => never) (latest "done").
Proof.
  unfold generateVideo.
  step_assign "rendering"%string. step_assign "rendering"%string.
  step_await.
  eapply spec_try_finally
    with (Q1 := fun _ => latest "done") (E1 := never).
  - step_await. step_await.
    eapply spec_bind;
      [apply spec_resolveBackground;
       intros e mu j He Hj; split; [exact I|];
       destruct e; simpl in *; try exact Hj; destruct He
      |intros bgVideo].
    step_await. step_await.
    eapply spec_bind.
    { eapply spec_weaken;
        [apply (spec_for_loop snap_delta snap_ok _ 0 (totalFrames v c)
                  (fun _ => latest "rendering") never);
         [intros i Hi; now apply latest_captureFrame | lia | lia]
        | auto | intros a mu j H; exact H | auto]. }
    intros []. step_assign "rendering"%string. step_assign "rendering"%string.
    eapply spec_bind.
    { unfold encode.
      eapply spec_bind; [apply latest_emit; exact I|]. intros [].
      eapply spec_bind; [apply latest_progressEvents|]. intros [].
      rewrite Hencoder. apply latest_emit. exact I. }
    intros []. step_assign "rendering"%string. step_assign "done"%string.
    step_assign "done"%string.
    apply (latest_assign "done" "done"). intros j Hj. exact Hj.
  - intros [].
    eapply spec_bind with (Q1 := fun _ => never); [|intros [] mu j []].
    apply spec_await_knowing; [exact I|].
    intros mu j Hj. split; [exact I|]. split.
    + intros Hres. congruence.
    + intros e He. exact Hj.
  - intros mu j [].
Qed.

(** The handler of [.catch] then writes [error] over [done]. *)
Lemma latest_jobTask :
  lspec (latest "queued") (jobTask v env c)
        (fun _ mu j => leaves_done mu /\ latest "error" mu j) never.
Proof.
  unfold jobTask. eapply spec_catch with (E1 := latest "done").
  - eapply spec_weaken; [apply latest_generateVideo | auto | | auto].
    intros a mu j [].
  - intros e.
    eapply spec_bind
      with (Q1 := fun _ mu j => leaves_done mu /\ latest "error" mu j).
    + apply spec_assign. intros mu j [Hlast Hs]. split; [exact I|].
      apply last_Some in Hlast as [pre ->]. split.
      * exists pre, [], j, (with_status "error" j). simpl.
        split; [now rewrite <- app_assoc | auto].
      * split; [apply last_snoc | reflexivity].
    + intros []. apply spec_assign.
      intros mu j [(pre & post & j1 & j2 & -> & H1 & H2) [_ Hs]].
      split; [exact I|]. split.
      * exists pre, (post ++ [with_message e j]), j1, j2. simpl.
        split; [now rewrite <- app_assoc | auto].
      * split; [apply last_snoc | exact Hs].
Qed.

Lemma close_fails_run (jobId : string) :
  leaves_done (snapshots (lifetime v env c jobId)) /\
  status (finalJob v env c jobId) = "error".
Proof.
  destruct (latest_jobTask [newJob jobId] (newJob jobId))
    as (_ & _ & Hres); [split; reflexivity|].
  rewrite after_snapshots in Hres.
  change (snapshots (lifetime v env c jobId))
    with ([newJob jobId] ++ snapshots (jobTask v env c (newJob jobId)).1.1).
  unfold finalJob.
  change (snd (fst (jobTask v env c (newJob jobId))))
    with ((jobTask v env c (newJob jobId)).1.2).
  destruct ((jobTask v env c (newJob jobId)).2); [destruct Hres|].
  destruct Hres as [Hleaves [_ Hs]]. split; [exact Hleaves | exact Hs].
Qed.

End CloseFails.

(** A run in which only [browser.close()] fails. *)
Definition close_fails : Env :=
  mkEnv Resolves Resolves Resolves "bg0001" Resolves Resolves Resolves Resolves
        (fun _ => Resolves) (fun _ => Resolves) [] Resolves
        (Rejects "Error: Protocol error: Connection closed.").

Lemma done_then_error :
  map status (snapshots (lifetime Plain close_fails one_frame_job "job")) =
  ["queued"; "rendering"; "rendering"; "rendering"; "rendering"; "rendering";
   "rendering"; "rendering"; "done"; "done"; "done"; "error"; "error"]
  /\ outputFile (finalJob Plain close_fails one_frame_job "job")
     = Some "data/videos/job.mp4".
Proof. split; reflexivity. Qed.

(** C2 fails, by a slip.  The status of a job follows the graph of the
    design (queued → rendering → done, or queued → rendering → error; the
    code has no status for the encoding phase, which is the tail of
    [rendering]) except for one edge, [done → error]: in every run the
    status moves along the graph or along that edge; it stays on the graph
    when [browser.close()] resolves; and in every run in which the captures
    and the encoder succeed and [browser.close()] rejects, a [done] record
    is followed by an [error] record and the job ends [error].
    [job.status = 'done'] is assigned inside [try], before
    [await browser.close()] in [finally]; the rejection reaches the
    [.catch] handler, which assigns [job.status = 'error']. *)
Theorem done_job_becomes_error (v : Variant) (env : Env) (c : Config)
    (jobId : string) :
  stepwise code_step (snapshots (lifetime v env c jobId)) /\
  (browserClose env = Resolves ->
   stepwise legal_step (snapshots (lifetime v env c jobId))) /\
  (forall err : string,
     captures_resolve v env c -> encoderEnd env = Resolves ->
     browserClose env = Rejects err ->
     leaves_done (snapshots (lifetime v env c jobId)) /\
     status (finalJob v env c jobId) = "error" /\
     ~ stepwise legal_step (snapshots (lifetime v env c jobId))).
Proof.
  pose proof (status_steps_of_run v env c jobId) as Hrun.
  split; [|split].
  - eapply stepwise_impl; [|exact Hrun].
    intros j j' [H|[_ H]]; [now left | now right].
  - intros Hclose. eapply stepwise_impl; [|exact Hrun].
    intros j j' [H|[[err Herr] _]]; [exact H | congruence].
  - intros err Hcap Hend Hclose.
    destruct (close_fails_run v env c err Hcap Hend Hclose jobId)
      as [Hleaves Hfinal].
    split; [exact Hleaves|]. split; [exact Hfinal|].
    now apply leaves_done_illegal.
Qed.

Lemma done_job_becomes_error_witness :
  captures_resolve Plain close_fails one_frame_job /\
  leaves_done (snapshots (lifetime Plain close_fails one_frame_job "job")) /\
  status (finalJob Plain close_fails one_frame_job "job") = "error" /\
  stepwise legal_step (snapshots (lifetime Plain (calm []) one_frame_job "job")).
Proof.
  assert (Hcap : captures_resolve Plain close_fails one_frame_job).
  { do 5 (split; [reflexivity|]). intros k _. split; reflexivity. }
  destruct (done_job_becomes_error Plain close_fails one_frame_job "job")
    as (_ & _ & Hbug).
  destruct (Hbug _ Hcap eq_refl eq_refl) as (Hleaves & Hfinal & _).
  split; [exact Hcap|]. split; [exact Hleaves|]. split; [exact Hfinal|].
  exact (proj1 (proj2 (done_job_becomes_error Plain (calm []) one_frame_job
                         "job")) eq_refl).
Defined.

End StatusFacts.

(** ** C3: the progress of a job *)

Section ProgressFacts.
Import JS Server.
Local Open Scope Z_scope.

Lemma inject_Z_nonneg (z : Z) : 0 <= z -> (0 <= inject_Z z)%Q.
Proof. intros H. change 0%Q with (inject_Z 0). now rewrite <- Zle_Qle. Qed.

Lemma inject_Z_pos (z : Z) : 0 < z -> (0 < inject_Z z)%Q.
Proof. intros H. change 0%Q with (inject_Z 0). now rewrite <- Zlt_Qlt. Qed.

Lemma Math_round_nonneg (x : Q) : (0 <= x)%Q -> 0 <= Math_round x.
Proof.
  intros H. unfold Math_round. change 0 with (Qfloor 0).
  apply Qfloor_resp_le.
  apply Qle_trans with (y := x); [exact H|].
  rewrite <- (Qplus_0_r x) at 1. apply Qplus_le_compat; [apply Qle_refl|].
  discriminate.
Qed.

Lemma Math_round_le (x y : Q) : (x <= y)%Q -> Math_round x <= Math_round y.
Proof.
  intros H. unfold Math_round. apply Qfloor_resp_le.
  apply Qplus_le_compat; [exact H | apply Qle_refl].
Qed.

Lemma div_le_div (a b t : Z) :
  0 < t -> a <= b -> (inject_Z a / inject_Z t <= inject_Z b / inject_Z t)%Q.
Proof.
  intros Ht Hab. unfold Qdiv. apply Qmult_le_compat_r.
  - now rewrite <- Zle_Qle.
  - apply Qinv_le_0_compat. apply inject_Z_nonneg. lia.
Qed.

Lemma captureProgress_le (i i' total : Z) :
  0 < total -> i <= i' -> captureProgress i total <= captureProgress i' total.
Proof.
  intros Ht Hi. unfold captureProgress. apply Math_round_le.
  apply Qmult_le_compat_r; [|discriminate].
  apply div_le_div; lia.
Qed.

Lemma captureProgress_range (i total : Z) :
  0 <= i -> i < total -> 0 <= captureProgress i total <= 80.
Proof.
  intros Hi Ht. unfold captureProgress. split.
  - apply Math_round_nonneg. apply Qmult_le_0_compat; [|discriminate].
    apply Qle_shift_div_l; [apply inject_Z_pos; lia|].
    rewrite Qmult_0_l. apply inject_Z_nonneg. lia.
  - change 80 with (Math_round (1 * 80)).
    apply Math_round_le. apply Qmult_le_compat_r; [|discriminate].
    apply Qle_shift_div_r; [apply inject_Z_pos; lia|].
    rewrite Qmult_1_l. rewrite <- Zle_Qle. lia.
Qed.

Lemma encodeProgress_upper (q : Q) : encodeProgress q <= 95.
Proof. unfold encodeProgress. lia. Qed.

Lemma encodeProgress_lower (q : Q) : (0 <= q)%Q -> 85 <= encodeProgress q.
Proof.
  intros Hq. unfold encodeProgress.
  assert (0 <= Math_round (q / 10)); [|lia].
  apply Math_round_nonneg. apply Qle_shift_div_l; [reflexivity|].
  now rewrite Qmult_0_l.
Qed.

Lemma encodeProgress_le (q q' : Q) :
  (q <= q')%Q -> encodeProgress q <= encodeProgress q'.
Proof.
  intros H. unfold encodeProgress.
  assert (Math_round (q / 10) <= Math_round (q' / 10)); [|lia].
  apply Math_round_le. unfold Qdiv. apply Qmult_le_compat_r; [exact H|].
  discriminate.
Qed.

(** The percentages that pass [if (p.percent)]. *)
Definition truthy (ps : list (option Q)) : list Q :=
  omap (fun p => match p with
                 | Some q => if Qeq_bool q 0 then None else Some q
                 | None => None
                 end) ps.

Fixpoint nondecreasing (l : list Q) : Prop :=
  match l with
  | [] => True
  | q :: l' => Forall (Qle q) l' /\ nondecreasing l'
  end.

(** An encoder that reports as its documentation says: percentages that
    are not negative and do not go back. *)
Definition steady (ps : list (option Q)) : Prop :=
  Forall (Qle 0) (truthy ps) /\ nondecreasing (truthy ps).

(** C3 as stated, read on two consecutive records of a job. *)
Definition documented_progress_step (j j' : Job) : Prop :=
  0 <= progress j' <= 100 /\
  (status j' <> "error"%string -> progress j <= progress j').

(** The monitor remembers whether the encoder has signalled success. *)
Definition progress_delta (mu : bool) (e : Event) : bool :=
  match e with EvEncodeEnd => true | _ => mu end.

Definition progress_step (j j' : Job) : Prop :=
  progress j <= progress j' /\ 0 <= progress j' <= 100.

Definition progress_ok (mu : bool) (j : Job) (e : Event) : Prop :=
  match e with
  | EvJob j' => progress_step j j' /\ (progress j' = 100 -> mu = true)
  | _ => True
  end.

Definition below (b : Z) : bool -> Job -> Prop :=
  fun _ j => 0 <= progress j <= b.

Definition sound : bool -> Job -> Prop :=
  fun mu j => 0 <= progress j <= 100 /\ (progress j = 100 -> mu = true).

Definition ended : bool -> Job -> Prop :=
  fun mu j => mu = true /\ 0 <= progress j <= 100.

Local Abbreviation pspec := (spec progress_delta progress_ok).

Local Ltac progress_side :=
  let mu := fresh "mu" in
  let j := fresh "j" in
  let Hj := fresh "Hj" in
  intros mu j Hj;
  unfold below, sound, ended, progress_ok, progress_step in *; simpl in *;
  repeat split; try tauto; try lia.

Local Ltac pkeep_await P :=
  eapply spec_bind;
  [ apply (spec_await_to progress_delta progress_ok P); [exact I | progress_side]
  | intros [] ].

Local Ltac pkeep_assign P :=
  eapply spec_bind;
  [ apply (spec_assign_to progress_delta progress_ok P); progress_side
  | intros [] ].

Lemma below_external (b : Z) :
  forall e mu j, external e -> below b mu j ->
    progress_ok mu j e /\ below b (progress_delta mu e) j.
Proof. intros e mu j He Hj. destruct e; simpl in *; tauto. Qed.

(** Before iteration [i] the progress is that of frame [i - 1]. *)
Definition cap (total i : Z) : Z :=
  if i <=? 0 then 0 else captureProgress (i - 1) total.

Lemma cap_next (total i : Z) :
  0 <= i -> i < total ->
  cap total i <= captureProgress i total /\
  cap total (i + 1) = captureProgress i total /\
  0 <= captureProgress i total <= 80.
Proof.
  intros Hi Ht. pose proof (captureProgress_range i total Hi Ht) as Hr.
  unfold cap. split; [|split; [|exact Hr]].
  - destruct (Z.leb_spec i 0); [lia|].
    apply captureProgress_le; lia.
  - destruct (Z.leb_spec (i + 1) 0); [lia|].
    now replace (i + 1 - 1) with i by lia.
Qed.

Lemma cap_bound (total i : Z) : i <= total -> 0 <= cap total i <= 80.
Proof.
  intros Hi. unfold cap. destruct (Z.leb_spec i 0); [lia|].
  apply captureProgress_range; lia.
Qed.

Lemma progress_captureFrame v env c total i :
  0 <= i < total ->
  pspec (below (cap total i)) (captureFrame v env c total i)
        (fun _ => below (cap total (i + 1))) sound.
Proof.
  intros Hi. destruct (cap_next total i) as (Hle & Hnext & Hr); try lia.
  pose proof (cap_bound total i ltac:(lia)) as Hb.
  unfold captureFrame.
  pkeep_await (below (cap total i)). pkeep_await (below (cap total i)).
  pkeep_assign (below (cap total (i + 1))).
  apply (spec_assign_to progress_delta progress_ok (below (cap total (i + 1)))).
  progress_side.
Qed.

Lemma truthy_cons (p : option Q) (ps : list (option Q)) :
  truthy (p :: ps) =
  match p with
  | Some q => if Qeq_bool q 0 then truthy ps else q :: truthy ps
  | None => truthy ps
  end.
Proof.
  unfold truthy. cbn [omap list_omap]. destruct p as [q|]; [|reflexivity].
  destruct (Qeq_bool q 0); reflexivity.
Qed.

(** While the encoder reports, the progress is in 85..95 and below
    everything the encoder will still report. *)
Definition encoding (rest : list Q) : bool -> Job -> Prop :=
  fun _ j => 85 <= progress j <= 95 /\
             Forall (fun q => progress j <= encodeProgress q) rest.

Lemma progress_progressEvents (ps : list (option Q)) E :
  steady ps ->
  pspec (encoding (truthy ps)) (progressEvents ps) (fun _ => below 95) E.
Proof.
  induction ps as [|p ps IH]; intros [Hpos Hmono]; cbn [progressEvents].
  - apply spec_ret. unfold below, encoding. intros mu j [Hj _]. lia.
  - rewrite truthy_cons in Hpos, Hmono |- *.
    eapply spec_bind;
      [apply (spec_emit_to progress_delta progress_ok
                (encoding match p with
                          | Some q =>
                              if Qeq_bool q 0 then truthy ps else q :: truthy ps
                          | None => truthy ps
                          end)); [exact I|];
       intros mu j Hj; split; [exact I | exact Hj]|].
    intros []. unfold onProgress. destruct p as [q|].
    + destruct (Qeq_bool q 0).
      * eapply spec_bind with (Q1 := fun _ => encoding (truthy ps));
          [apply spec_ret; intros mu j Hj; exact Hj|].
        intros []. apply IH. split; assumption.
      * apply Forall_cons in Hpos as [Hq Hpos].
        destruct Hmono as [Hhead Hmono].
        pose proof (encodeProgress_upper q) as Hup.
        pose proof (encodeProgress_lower q Hq) as Hlow.
        eapply spec_bind with (Q1 := fun _ => encoding (truthy ps));
          [|intros []; apply IH; split; assumption].
        apply spec_assign_to. intros mu j [Hj Hall].
        apply Forall_cons in Hall as [Hjq _].
        unfold progress_ok, progress_step, encoding. simpl.
        repeat split; try lia.
        eapply Forall_impl; [exact Hhead|].
        intros q' Hqq'. simpl. now apply encodeProgress_le.
    + eapply spec_bind with (Q1 := fun _ => encoding (truthy ps));
        [apply spec_ret; intros mu j Hj; exact Hj|].
      intros []. apply IH. split; assumption.
Qed.

Lemma progress_encode v env c bgVideo :
  steady (encoderProgress env) ->
  pspec (fun _ j => progress j = 85) (encode v env c bgVideo)
        (fun _ => ended) sound.
Proof.
  intros Hsteady. unfold encode.
  eapply spec_bind;
    [apply (spec_emit_to progress_delta progress_ok
              (fun _ j => progress j = 85)); [exact I|];
     intros mu j Hj; split; [exact I | exact Hj]|].
  intros []. eapply spec_bind with (Q1 := fun _ => below 95).
  { eapply spec_weaken;
      [apply (progress_progressEvents _ sound Hsteady) | | auto | auto].
    intros mu j Hj. simpl in Hj. unfold encoding. split; [lia|].
    destruct Hsteady as [Hpos _].
    eapply Forall_impl; [exact Hpos|].
    intros q Hq. simpl. rewrite Hj. now apply encodeProgress_lower. }
  intros []. destruct (encoderEnd env).
  - apply (spec_emit_to progress_delta progress_ok ended); [exact I|].
    progress_side.
  - eapply spec_bind;
      [apply (spec_emit_to progress_delta progress_ok (below 95));
       [exact I | progress_side]|].
    intros []. apply spec_throw. progress_side.
Qed.

Lemma progress_generateVideo v env c :
  steady (encoderProgress env) ->
  pspec (below 0) (generateVideo v env c) (fun _ => ended) sound.
Proof.
  intros Hsteady. unfold generateVideo.
  pkeep_assign (below 0). pkeep_assign (below 0). pkeep_await (below 0).
  eapply spec_try_finally with (Q1 := fun _ => ended) (E1 := sound).
  - pkeep_await (below 0). pkeep_await (below 0).
    eapply spec_bind;
      [apply spec_resolveBackground; apply below_external|intros bgVideo].
    pkeep_await (below 0). pkeep_await (below 0).
    eapply spec_bind with (Q1 := fun _ => below 80).
    { eapply spec_weaken;
        [apply (spec_for_loop progress_delta progress_ok _ 0 (totalFrames v c)
                  (fun i => below (cap (totalFrames v c) (Z.min i (totalFrames v c))))
                  sound)
        | | | auto].
      - intros i Hi.
        replace (Z.min i (totalFrames v c)) with i by lia.
        eapply spec_weaken;
          [apply (progress_captureFrame v env c (totalFrames v c) i Hi)
          | auto | | auto].
        intros ? mu j Hj.
        now replace (Z.min (i + 1) (totalFrames v c)) with (i + 1) by lia.
      - lia.
      - lia.
      - intros mu j Hj. unfold below, cap in *.
        destruct (Z.leb_spec (Z.min 0 (totalFrames v c)) 0); [exact Hj|lia].
      - intros ? mu j Hj. unfold below in *.
        pose proof (cap_bound (totalFrames v c)
                      (Z.min (Z.max 0 (totalFrames v c)) (totalFrames v c))
                      ltac:(lia)). lia. }
    intros []. pkeep_assign (below 80).
    eapply spec_bind;
      [apply (spec_assign_to progress_delta progress_ok
                (fun _ j => progress j = 85)); progress_side|].
    intros []. eapply spec_bind; [apply (progress_encode _ _ _ _ Hsteady)|].
    intros []. pkeep_assign ended. pkeep_assign ended. pkeep_assign ended.
    apply (spec_assign_to progress_delta progress_ok ended). progress_side.
  - intros []. pkeep_await ended.
    apply (spec_emit_to progress_delta progress_ok ended);
      [exact I | progress_side].
  - pkeep_await sound.
    apply (spec_emit_to progress_delta progress_ok sound);
      [exact I | progress_side].
Qed.

Lemma progress_jobTask v env c :
  steady (encoderProgress env) ->
  pspec (below 0) (jobTask v env c) (fun _ => sound) sound.
Proof.
  intros Hsteady. unfold jobTask.
  eapply spec_catch with (E1 := sound).
  - eapply spec_weaken;
      [apply (progress_generateVideo _ _ _ Hsteady) | auto | | auto].
    intros ? mu j [Hmu Hj]. split; [exact Hj | auto].
  - intros err. pkeep_assign sound.
    apply (spec_assign_to progress_delta progress_ok sound). progress_side.
Qed.

Lemma progress_monitor_seen (l : list Event) (mu : bool) (j : Job) :
  (after progress_delta (mu, j) l).1 = true ->
  mu = true \/ In EvEncodeEnd l.
Proof.
  revert mu j. induction l as [|e l IH]; intros mu j H; [left; exact H|].
  destruct (IH _ _ H) as [Hmu|Hin]; [|right; right; exact Hin].
  destruct e; simpl in Hmu; try (left; exact Hmu).
  right. left. reflexivity.
Qed.

Lemma stepwise_Forall_snd {A} (R : A -> A -> Prop) (P : A -> Prop) (l : list A) :
  (forall x y, R x y -> P y) -> stepwise R l -> Forall P (tail l).
Proof.
  intros H. induction l as [|x l IH]; intros Hl; [constructor|].
  destruct l as [|y l]; [constructor|].
  destruct Hl as [Hxy Hl]. constructor; [eapply H, Hxy | exact (IH Hl)].
Qed.

(** An encoder whose percentages go back, and below zero. *)
Definition erratic : Env := calm [Some 50%Q; Some (-1000)%Q].

(** C3, as stated, fails: the percentage of a progress event is only capped
    from above ([Math.min(10, ...)]) and is written to the job as it comes.
    With the events 50 and -1000 the progress goes 85, 90, -15 while the
    job is [rendering]: it decreases, leaves 85..95 and leaves 0..100. *)
Lemma progress_counterexample :
  map progress (snapshots (lifetime Plain erratic one_frame_job "job")) =
    [0; 0; 0; 80; 80; 80; 85; 90; -15; 100; 100; 100; 100] /\
  map status (snapshots (lifetime Plain erratic one_frame_job "job")) !! 8%nat =
    Some "rendering"%string /\
  ~ (85 <= encodeProgress (-1000) <= 95) /\
  ~ stepwise documented_progress_step
      (snapshots (lifetime Plain erratic one_frame_job "job")).
Proof.
  split; [reflexivity|]. split; [reflexivity|]. split.
  - change (encodeProgress (-1000)) with (-15). lia.
  - intros H.
    pose proof (stepwise_lookup _ _ H 7%nat
                  (mkJob "job" "rendering" 90 "Encoding video" None)
                  (mkJob "job" "rendering" (-15) "Encoding video" None)
                  eq_refl eq_refl) as Hstep.
    unfold documented_progress_step in Hstep. simpl in Hstep. lia.
Qed.

(** C3 (amended): when the percentages the encoder reports are not negative
    and do not go back, the progress of a job is 0..100 in every record and
    never decreases from one record to the next; a percentage that is not
    negative is mapped into 85..95 (and any percentage to at most 95); and
    a record with progress 100 is only written after the encoder has
    signalled success. *)
Theorem progress_amended (v : Variant) (env : Env) (c : Config) (jobId : string) :
  steady (encoderProgress env) ->
  Forall (fun j => 0 <= progress j <= 100) (snapshots (lifetime v env c jobId)) /\
  stepwise progress_step (snapshots (lifetime v env c jobId)) /\
  (forall q : Q, encodeProgress q <= 95 /\ ((0 <= q)%Q -> 85 <= encodeProgress q)) /\
  (forall (l1 : list Event) (j : Job) (l2 : list Event),
     lifetime v env c jobId = l1 ++ EvJob j :: l2 ->
     progress j = 100 -> In EvEncodeEnd l1).
Proof.
  intros Hsteady.
  destruct (progress_jobTask v env c Hsteady false (newJob jobId))
    as (Hacc & _); [unfold below; simpl; lia|].
  assert (Hsnap : snapshots (lifetime v env c jobId) =
                  newJob jobId :: snapshots (jobTask v env c (newJob jobId)).1.1)
    by reflexivity.
  assert (Hstep : stepwise progress_step (snapshots (lifetime v env c jobId))).
  { rewrite Hsnap. eapply accepted_stepwise; [|exact Hacc].
    intros mu j j' [H _]. exact H. }
  split; [|split; [exact Hstep|split]].
  - rewrite Hsnap in Hstep |- *. constructor; [simpl; lia|].
    apply (stepwise_Forall_snd progress_step _ _ ltac:(intros x y [_ H]; exact H)
             Hstep).
  - intros q. split; [apply encodeProgress_upper | apply encodeProgress_lower].
  - intros l1 j l2 Hl Hj. unfold lifetime in Hl.
    destruct l1 as [|e l1].
    + simpl in Hl. injection Hl as Hnew _. rewrite <- Hnew in Hj.
      simpl in Hj. lia.
    + simpl in Hl. injection Hl as He Hlog. right.
      change (fst (fst (jobTask v env c (newJob jobId))))
        with ((jobTask v env c (newJob jobId)).1.1) in Hlog.
      rewrite Hlog in Hacc. apply accepted_app in Hacc as [_ Hacc].
      destruct Hacc as [[_ Hmu] _].
      destruct (after progress_delta (false, newJob jobId) l1)
        as [mu' j'] eqn:Haft.
      simpl in Hmu. specialize (Hmu Hj).
      destruct (progress_monitor_seen l1 false (newJob jobId)) as [Habs|Hin];
        [rewrite Haft; exact Hmu | discriminate Habs | exact Hin].
Qed.

Lemma progress_amended_witness :
  steady [Some 40%Q; None; Some 100%Q] /\
  stepwise progress_step
    (snapshots (lifetime (Decimated 2) (calm [Some 40%Q; None; Some 100%Q])
                  one_frame_job "job")).
Proof.
  assert (Hs : steady [Some 40%Q; None; Some 100%Q]).
  { unfold steady. simpl. repeat constructor; discriminate. }
  split; [exact Hs|].
  exact (proj1 (proj2 (progress_amended (Decimated 2)
                         (calm [Some 40%Q; None; Some 100%Q])
                         one_frame_job "job" Hs))).
Defined.

End ProgressFacts.

(** ** C1: the sample schedule *)

Section ScheduleFacts.
Import JS Server.
Local Open Scope Z_scope.

(** The times of frames [0 .. totalFrames - 1]. *)
Definition schedule (v : Variant) (c : Config) : list Q :=
  fmap (timeSec v c) (seqZ 0 (totalFrames v c)).

(** The monitor collects the times set on the page. *)
Definition time_delta (mu : list Q) (e : Event) : list Q :=
  match e with EvSetTimelineTime t => mu ++ [t] | _ => mu end.

Definition time_ok (_ : list Q) (_ : Job) (_ : Event) : Prop := True.

Lemma after_timestamps (l : list Event) (mu : list Q) (j : Job) :
  (after time_delta (mu, j) l).1 = mu ++ timestamps l.
Proof.
  revert mu j. induction l as [|e l IH]; intros mu j.
  - simpl. now rewrite app_nil_r.
  - change (after time_delta (mu, j) (e :: l))
      with (after time_delta (advance time_delta (mu, j) e) l).
    unfold advance. rewrite IH. destruct e; simpl;
      try reflexivity.
    now rewrite <- app_assoc.
Qed.

Definition seen (v : Variant) (c : Config) (i : Z) : list Q -> Job -> Prop :=
  fun mu _ => mu = fmap (timeSec v c) (seqZ 0 i).

Definition partial (v : Variant) (env : Env) (c : Config) : list Q -> Job -> Prop :=
  fun mu _ => mu `prefix_of` schedule v c /\
              (captures_resolve v env c -> mu = schedule v c).

Lemma seqZ_snoc (i : Z) : 0 <= i -> seqZ 0 (i + 1) = seqZ 0 i ++ [i].
Proof.
  intros Hi. rewrite seqZ_app by lia.
  rewrite (seqZ_cons (0 + i) 1) by lia.
  rewrite (seqZ_nil (Z.succ (0 + i))) by lia.
  now rewrite Z.add_0_l.
Qed.

Lemma seen_prefix v c i :
  0 <= i <= Z.max 0 (totalFrames v c) ->
  fmap (timeSec v c) (seqZ 0 i) `prefix_of` schedule v c.
Proof.
  intros Hi. unfold schedule.
  destruct (Z.le_gt_cases (totalFrames v c) 0) as [Hneg|Hpos].
  - replace i with 0 by lia. rewrite (seqZ_nil 0 0) by lia.
    apply prefix_nil.
  - replace (totalFrames v c) with (i + (totalFrames v c - i)) at 1 by lia.
    rewrite seqZ_app by lia. rewrite fmap_app. now apply prefix_app_r.
Qed.

Local Abbreviation tspec := (spec time_delta time_ok).

Local Ltac time_side v env c :=
  let mu := fresh "mu" in
  let j := fresh "j" in
  let Hj := fresh "Hj" in
  intros mu j Hj; simpl;
  split; [exact I|]; split; [exact Hj|];
  let err := fresh "err" in
  let Herr := fresh "Herr" in
  intros err Herr; unfold seen, partial in *; subst mu;
  split; [apply seen_prefix; lia|];
  let Hc := fresh "Hc" in
  intros Hc; exfalso; unfold captures_resolve in Hc;
  destruct Hc as (? & ? & ? & ? & ? & Hloop); congruence.

Local Ltac tkeep_await v env c P :=
  eapply spec_bind;
  [ apply (spec_await_cases time_delta time_ok P); [exact I | time_side v env c]
  | intros [] ].

Local Ltac tkeep_assign P :=
  eapply spec_bind;
  [ apply (spec_assign_to time_delta time_ok P);
    intros mu j Hj; split; [exact I | exact Hj]
  | intros [] ].

Lemma time_external (P : list Q) :
  forall e mu j, external e ->
    (forall t, e <> EvSetTimelineTime t) ->
    mu = P -> time_ok mu j e /\ time_delta mu e = P.
Proof.
  intros e mu j _ He Hmu. split; [exact I|].
  destruct e; simpl; try exact Hmu. now destruct (He t).
Qed.

Lemma time_resolveBackground v env c (P : list Q -> Job -> Prop) E :
  tspec P (resolveBackground v env c) (fun _ => P) E.
Proof.
  destruct v as [|d]; cbn [resolveBackground].
  - apply spec_ret. auto.
  - eapply spec_catch with (E1 := P); [|intros e; apply spec_ret; auto].
    unfold ensureBackgroundVideo.
    destruct (String.eqb (backgroundUrl c) ""); [apply spec_ret; auto|].
    destruct (String.prefix "/backgrounds/" (backgroundUrl c));
      [apply spec_ret; auto|].
    eapply spec_bind;
      [apply (spec_await_to time_delta time_ok P); [exact I|];
       intros mu j Hj; simpl; unfold time_ok; auto|].
    intros []. eapply spec_bind;
      [apply (spec_await_to time_delta time_ok P); [exact I|];
       intros mu j Hj; simpl; unfold time_ok; auto|].
    intros []. apply spec_ret. auto.
Qed.

Lemma time_captureFrame v env c i :
  0 <= i < totalFrames v c ->
  tspec (seen v c i) (captureFrame v env c (totalFrames v c) i)
        (fun _ => seen v c (i + 1)) (partial v env c).
Proof.
  intros Hi. unfold captureFrame.
  eapply spec_bind.
  { apply (spec_await_cases time_delta time_ok (seen v c (i + 1))); [exact I|].
    intros mu j Hj. unfold seen in *. subst mu. simpl.
    assert (Hnext : fmap (timeSec v c) (seqZ 0 i) ++ [timeSec v c i] =
                    fmap (timeSec v c) (seqZ 0 (i + 1))).
    { rewrite seqZ_snoc by lia. now rewrite fmap_app. }
    split; [exact I|]. split; [exact Hnext|].
    intros err Herr. unfold partial. rewrite Hnext.
    split; [apply seen_prefix; lia|].
    intros (_ & _ & _ & _ & _ & Hloop).
    destruct (Hloop i Hi) as [Hset _]. congruence. }
  intros []. eapply spec_bind.
  { apply (spec_await_cases time_delta time_ok (seen v c (i + 1))); [exact I|].
    intros mu j Hj. simpl. split; [exact I|]. split; [exact Hj|].
    intros err Herr. unfold seen, partial in *. subst mu.
    split; [apply seen_prefix; lia|].
    intros (_ & _ & _ & _ & _ & Hloop).
    destruct (Hloop i Hi) as [_ Hshot]. congruence. }
  intros []. tkeep_assign (seen v c (i + 1)).
  apply (spec_assign_to time_delta time_ok (seen v c (i + 1))).
  intros mu j Hj; split; [exact I | exact Hj].
Qed.

Definition complete (v : Variant) (c : Config) : list Q -> Job -> Prop :=
  fun mu _ => mu = schedule v c.

Lemma complete_partial v env c mu j : complete v c mu j -> partial v env c mu j.
Proof. unfold complete, partial. intros ->. split; [reflexivity|auto]. Qed.

Lemma time_progressEvents v c (ps : list (option Q)) E :
  tspec (complete v c) (progressEvents ps) (fun _ => complete v c) E.
Proof.
  induction ps as [|p ps IH]; cbn [progressEvents].
  - apply spec_ret. auto.
  - eapply spec_bind;
      [apply (spec_emit_to time_delta time_ok (complete v c)); [exact I|];
       intros mu j Hj; split; [exact I | exact Hj]|].
    intros [].
    eapply spec_bind with (Q1 := fun _ => complete v c);
      [|intros []; exact IH].
    unfold onProgress. destruct p as [q|]; [|apply spec_ret; auto].
    destruct (Qeq_bool q 0); [apply spec_ret; auto|].
    apply (spec_assign_to time_delta time_ok (complete v c)).
    intros mu j Hj; split; [exact I | exact Hj].
Qed.

Local Ltac done_await v c env :=
  eapply spec_bind;
  [ apply (spec_await_to time_delta time_ok (complete v c)); [exact I|];
    intros mu j Hj; simpl; split; [exact I|];
    split; [exact Hj | now apply complete_partial]
  | intros [] ].

Lemma time_generateVideo v env c :
  tspec (seen v c 0) (generateVideo v env c)
        (fun _ => complete v c) (partial v env c).
Proof.
  unfold generateVideo.
  tkeep_assign (seen v c 0). tkeep_assign (seen v c 0).
  tkeep_await v env c (seen v c 0).
  eapply spec_try_finally
    with (Q1 := fun _ => complete v c) (E1 := partial v env c).
  - tkeep_await v env c (seen v c 0). tkeep_await v env c (seen v c 0).
    eapply spec_bind; [apply time_resolveBackground|intros bgVideo].
    tkeep_await v env c (seen v c 0). tkeep_await v env c (seen v c 0).
    eapply spec_bind with (Q1 := fun _ => complete v c).
    { eapply spec_weaken;
        [apply (spec_for_loop time_delta time_ok _ 0 (totalFrames v c)
                  (seen v c) (partial v env c));
         [intros i Hi; now apply time_captureFrame | lia | lia]
        | auto | | auto].
      intros a mu j Hj. unfold seen, complete, schedule in *. subst mu.
      destruct (Z.le_gt_cases (totalFrames v c) 0) as [Hneg|Hpos].
      - replace (Z.max 0 (totalFrames v c)) with 0 by lia.
        now rewrite (seqZ_nil 0 0), (seqZ_nil 0 (totalFrames v c)) by lia.
      - now replace (Z.max 0 (totalFrames v c)) with (totalFrames v c) by lia. }
    intros []. tkeep_assign (complete v c). tkeep_assign (complete v c).
    eapply spec_bind with (Q1 := fun _ => complete v c).
    { unfold encode.
      eapply spec_bind;
        [apply (spec_emit_to time_delta time_ok (complete v c)); [exact I|];
         intros mu j Hj; split; [exact I | exact Hj]|].
      intros []. eapply spec_bind; [apply time_progressEvents|].
      intros []. destruct (encoderEnd env).
      - apply (spec_emit_to time_delta time_ok (complete v c)); [exact I|].
        intros mu j Hj; split; [exact I | exact Hj].
      - eapply spec_bind;
          [apply (spec_emit_to time_delta time_ok (complete v c)); [exact I|];
           intros mu j Hj; split; [exact I | exact Hj]|].
        intros []. apply spec_throw. intros mu j. apply complete_partial. }
    intros []. tkeep_assign (complete v c). tkeep_assign (complete v c).
    tkeep_assign (complete v c).
    apply (spec_assign_to time_delta time_ok (complete v c)).
    intros mu j Hj; split; [exact I | exact Hj].
  - intros []. done_await v c env.
    apply (spec_emit_to time_delta time_ok (complete v c)); [exact I|].
    intros mu j Hj; split; [exact I | exact Hj].
  - eapply spec_bind;
      [apply (spec_await_to time_delta time_ok (partial v env c)); [exact I|];
       intros mu j Hj; simpl; unfold time_ok; auto|].
    intros [].
    apply (spec_emit_to time_delta time_ok (partial v env c)); [exact I|].
    intros mu j Hj; split; [exact I | exact Hj].
Qed.

(** Whatever the outside does, the times set on the page are the beginning
    of the schedule, and the whole of it when no capture fails. *)
Lemma timestamps_of_lifetime v env c jobId :
  timestamps (lifetime v env c jobId) `prefix_of` schedule v c /\
  (captures_resolve v env c ->
   timestamps (lifetime v env c jobId) = schedule v c).
Proof.
  assert (Hspec : tspec (seen v c 0) (jobTask v env c)
                        (fun _ => partial v env c) (partial v env c)).
  { unfold jobTask. eapply spec_catch with (E1 := partial v env c).
    - eapply spec_weaken; [apply time_generateVideo | auto | | auto].
      intros a mu j. apply complete_partial.
    - intros err. tkeep_assign (partial v env c).
      apply (spec_assign_to time_delta time_ok (partial v env c)).
      intros mu j Hj; split; [exact I | exact Hj]. }
  destruct (Hspec [] (newJob jobId)) as (_ & _ & Hres).
  { unfold seen. now rewrite seqZ_nil by lia. }
  rewrite after_timestamps in Hres. rewrite app_nil_l in Hres.
  change (timestamps (lifetime v env c jobId))
    with (timestamps (jobTask v env c (newJob jobId)).1.1).
  destruct ((jobTask v env c (newJob jobId)).2); exact Hres.
Qed.

Lemma sampleTimes_schedule v c : sampleTimes v c = schedule v c.
Proof.
  unfold sampleTimes. apply timestamps_of_lifetime.
  unfold captures_resolve, calm. simpl. auto 10.
Qed.

(** The scenario of the design document: ten seconds at ten frames per
    second. *)
Definition ten_by_ten : Config :=
  mkConfig "Mensagem no Ultrassom" 1 7 [] 10 10 1080 1920
           "data/frames/job" "data/videos/job.mp4" "" "sunset" None.

(** 4.35 seconds at 100 frames per second. *)
Definition four_point_three_five : Config :=
  mkConfig "Mensagem no Ultrassom" 1 7 [] (87 # 20) 100 1080 1920
           "data/frames/job" "data/videos/job.mp4" "" "sunset" None.

(** 0.3333333333333333 seconds, just below a third of a second, at 3
    frames per second. *)
Definition third_of_a_second : Config :=
  mkConfig "Mensagem no Ultrassom" 1 7 []
           (3333333333333333 # 10000000000000000) 3 1080 1920
           "data/frames/job" "data/videos/job.mp4" "" "sunset" None.

(** Both variants floor the same rounded quotient: [server.js] divides by
    nothing, which is a division by its frame step 1. *)
Lemma totalFrames_rounded (v : Variant) (c : Config) :
  totalFrames v c =
  Qfloor (number (number (number (durationSec c) * number (fps c))
                  / inject_Z (frameStep_of v))).
Proof.
  destruct v as [|d]; [|reflexivity].
  unfold totalFrames, Math_floor, mul. apply Qfloor_comp.
  cbn [frameStep_of].
  assert (E : (number (number (durationSec c) * number (fps c)) / inject_Z 1
               == number (number (durationSec c) * number (fps c)))%Q)
    by (field; discriminate).
  rewrite E. symmetry. apply number_idem.
Qed.

Lemma inject_Z_positive (z : Z) : 0 < z -> (0 < inject_Z z)%Q.
Proof. intros H. change 0%Q with (inject_Z 0). now rewrite <- Zlt_Qlt. Qed.

(** Flooring the doubly rounded quotient gives the floor of the exact
    quotient or one more. *)
Lemma floor_rounded_quotient (p : Q) (d : Z) :
  (0 <= p)%Q -> (p < 2 ^ 53)%Q -> 1 <= d ->
  Qfloor (p / inject_Z d) <= Qfloor (number (number p / inject_Z d))
    <= Qfloor (p / inject_Z d) + 1.
Proof.
  intros Hp Hp53 Hd.
  pose proof (inject_Z_positive d ltac:(lia)) as HdQ.
  set (k := Qfloor (p / inject_Z d)).
  pose proof (Qfloor_le (p / inject_Z d)) as Hlo. fold k in Hlo.
  pose proof (Qlt_floor (p / inject_Z d)) as Hhi. fold k in Hhi.
  clearbody k.
  assert (Hback : (p / inject_Z d * inject_Z d == p)%Q)
    by (field; intros E; rewrite E in HdQ; discriminate).
  assert (Hkd : (inject_Z (k * d) <= p)%Q).
  { rewrite inject_Z_mult, <- Hback.
    apply Qmult_le_compat_r; [exact Hlo | now apply Qlt_le_weak]. }
  assert (Hkd' : (p < inject_Z ((k + 1) * d))%Q).
  { rewrite inject_Z_mult, <- Hback at 1.
    apply Qmult_lt_compat_r; [exact HdQ | exact Hhi]. }
  assert (H53 : (2 ^ 53 == inject_Z (2 ^ 53))%Q) by reflexivity.
  assert (Hk0 : 0 <= k).
  { assert (Hk1 : (inject_Z 0 < inject_Z ((k + 1) * d))%Q)
      by (change (inject_Z 0) with 0%Q; lra).
    rewrite <- Zlt_Qlt in Hk1. nia. }
  assert (Hk53 : k * d < 2 ^ 53).
  { rewrite Zlt_Qlt. lra. }
  split.
  - rewrite <- (Qfloor_Z k) at 1. apply Qfloor_resp_le.
    rewrite <- (number_Z k) by nia. apply number_mono.
    apply Qle_shift_div_l; [exact HdQ|].
    rewrite <- inject_Z_mult, <- (number_Z (k * d)) by nia.
    now apply number_mono.
  - rewrite <- (Qfloor_Z (k + 1)). apply Qfloor_resp_le.
    rewrite <- (number_Z (k + 1)) by nia. apply number_mono.
    apply Qle_shift_div_r; [exact HdQ|].
    set (b := Z.min ((k + 1) * d) (2 ^ 53)).
    assert (Hb : (p <= inject_Z b)%Q).
    { unfold b. destruct (Z.min_spec ((k + 1) * d) (2 ^ 53)) as [[_ ->]|[_ ->]];
        lra. }
    apply Qle_trans with (inject_Z b).
    + rewrite <- (number_Z b) by (unfold b; lia). now apply number_mono.
    + rewrite <- inject_Z_mult, <- Zle_Qle. unfold b. lia.
Qed.

(** The quotient of two integers of moderate size is floored as the exact
    quotient is. *)
Lemma floor_rounded_exact (a d : Z) :
  0 <= a <= 2 ^ 50 -> 1 <= d <= 2 ^ 50 ->
  Qfloor (number (inject_Z a / inject_Z d)) = Qfloor (inject_Z a / inject_Z d).
Proof.
  intros Ha Hd. rewrite <- (Zdiv_Qdiv a d).
  pose proof (inject_Z_positive d ltac:(lia)) as HdQ.
  set (k := a / d).
  assert (Hk : k * d <= a < (k + 1) * d).
  { unfold k. pose proof (Z.mul_div_le a d ltac:(lia)).
    pose proof (Z.mul_succ_div_gt a d ltac:(lia)). lia. }
  clearbody k.
  assert (Hk0 : 0 <= k) by nia.
  assert (Hkle : k <= 2 ^ 50) by nia.
  assert (Hlow : (inject_Z k <= number (inject_Z a / inject_Z d))%Q).
  { rewrite <- (number_Z k) by lia. apply number_mono.
    apply Qle_shift_div_l; [exact HdQ|].
    rewrite <- inject_Z_mult, <- Zle_Qle. lia. }
  assert (Hhigh : (number (inject_Z a / inject_Z d) < inject_Z (k + 1))%Q).
  { rewrite <- (number_Z (k + 1)) by lia. apply number_strict.
    - apply Qle_shift_div_l; [exact HdQ|]. rewrite Qmult_0_l.
      change 0%Q with (inject_Z 0). rewrite <- Zle_Qle. lia.
    - assert (Hy : (0 < inject_Z (k + 1))%Q) by (apply inject_Z_positive; lia).
      destruct (binade_spec _ Hy) as [Hbin _].
      assert (He : 0 <= binade (inject_Z (k + 1))).
      { assert (H1 : (2 ^ 0 <= inject_Z (k + 1))%Q)
          by (change (2 ^ 0)%Q with (inject_Z 1); rewrite <- Zle_Qle; lia).
        destruct (binade_spec _ Hy) as [_ Hup].
        assert (0 < binade (inject_Z (k + 1)) + 1)
          by (apply pow2_lt_inv; eapply Qle_lt_trans; eassumption).
        lia. }
      assert (Hs : ulp_exponent (inject_Z (k + 1))
                   = binade (inject_Z (k + 1)) - 52)
        by (unfold ulp_exponent; lia).
      rewrite Hs. revert Hbin. generalize (binade (inject_Z (k + 1))).
      intros e Hbin.
      replace (e - 52) with (e + - 52) by lia. rewrite pow2_add.
      assert (Hquot : (inject_Z a / inject_Z d + 1 / inject_Z d
                       <= inject_Z (k + 1))%Q).
      { assert (E : (inject_Z a / inject_Z d + 1 / inject_Z d
                     == inject_Z (a + 1) / inject_Z d)%Q)
          by (rewrite inject_Z_plus; field;
              intros E; rewrite E in HdQ; discriminate).
        rewrite E. apply Qle_shift_div_r; [exact HdQ|].
        rewrite <- inject_Z_mult, <- Zle_Qle. lia. }
      assert (Hstep : (2 * (inject_Z (k + 1) * 2 ^ (- 52)) <= 1 / inject_Z d)%Q).
      { apply Qle_shift_div_l; [exact HdQ|].
        assert (E : (2 * (inject_Z (k + 1) * 2 ^ (- 52)) * inject_Z d
                     == inject_Z ((k + 1) * d) * 2 ^ (- 51))%Q)
          by (rewrite inject_Z_mult;
              change (2 ^ (- 52))%Q with (1 # 4503599627370496)%Q;
              change (2 ^ (- 51))%Q with (1 # 2251799813685248)%Q; ring).
        rewrite E.
        apply Qle_trans with (inject_Z (2 ^ 51) * 2 ^ (- 51))%Q;
          [|apply Qle_bool_imp_le; reflexivity].
        apply Qmult_le_compat_r; [|apply Qlt_le_weak, pow2_pos].
        rewrite <- Zle_Qle. lia. }
      assert (Hscaled : (2 ^ e * 2 ^ (- 52)
                         <= inject_Z (k + 1) * 2 ^ (- 52))%Q).
      { apply Qmult_le_compat_r; [exact Hbin | apply Qlt_le_weak, pow2_pos]. }
      lra. }
  assert (Hlt : Qfloor (number (inject_Z a / inject_Z d)) < k + 1).
  { rewrite Zlt_Qlt. eapply Qle_lt_trans; [apply Qfloor_le | exact Hhigh]. }
  assert (Hge : k <= Qfloor (number (inject_Z a / inject_Z d))).
  { rewrite <- (Qfloor_Z k) at 1. now apply Qfloor_resp_le. }
  lia.
Qed.

(** A whole number that rounds to at most [2^50] is at most [2^50]. *)
Lemma number_Z_bound (a : Z) (x : Q) :
  (x == inject_Z a)%Q -> (number x <= 2 ^ 50)%Q -> a <= 2 ^ 50.
Proof.
  intros Hx Hle. destruct (Z.le_gt_cases a (2 ^ 50)) as [H|H]; [exact H|].
  exfalso.
  assert (Hmono : (number (inject_Z (2 ^ 50 + 1)) <= number x)%Q).
  { apply number_mono. rewrite Hx, <- Zle_Qle. lia. }
  rewrite number_Z in Hmono by lia.
  assert (Hgt : (2 ^ 50 < inject_Z (2 ^ 50 + 1))%Q) by reflexivity.
  lra.
Qed.

(** The time of frame [i] is the double nearest to [(i * d) / fps]. *)
Lemma timeSec_nearest (v : Variant) (c : Config) (i : Z) :
  Z.abs (i * frameStep_of v) <= 2 ^ 53 ->
  (timeSec v c i
   == number (inject_Z (i * frameStep_of v) / number (fps c)))%Q.
Proof.
  intros Hi. destruct v as [|d]; cbn [timeSec frameStep_of] in *.
  - unfold div. now rewrite Z.mul_1_r.
  - unfold div, mul. rewrite <- inject_Z_mult.
    now rewrite (number_Z (i * d)) by exact Hi.
Qed.

(** When [fps] is a double, that is the double nearest to the instant
    [sampleTime] of the frame. *)
Lemma timeSec_sampleTime (v : Variant) (c : Config) (i : Z) :
  Z.abs (i * frameStep_of v) <= 2 ^ 53 ->
  (number (fps c) == fps c)%Q ->
  (timeSec v c i == number (sampleTime v c i))%Q.
Proof.
  intros Hi Hfps. rewrite (timeSec_nearest v c i Hi), Hfps.
  destruct v as [|d]; [|reflexivity].
  unfold sampleTime, frameStep_of. now rewrite Z.mul_1_r.
Qed.

(** Consecutive instants [(i * d) / f] round to different doubles as long
    as [i] has at most 51 bits. *)
Lemma rounded_times_increase (f : Q) (d i : Z) :
  (0 < f)%Q -> (f <= MAX_VALUE)%Q -> 1 <= d -> 0 <= i < 2 ^ 51 ->
  (number (inject_Z (i * d) / f) < number (inject_Z ((i + 1) * d) / f))%Q.
Proof.
  intros Hf Hmax Hd Hi.
  assert (Hfnz : ~ (f == 0)%Q) by (intros E; rewrite E in Hf; discriminate).
  pose proof (inject_Z_positive d ltac:(lia)) as HdQ.
  assert (Hstep : (0 < inject_Z d / f)%Q).
  { apply Qlt_shift_div_l; [exact Hf|]. now rewrite Qmult_0_l. }
  assert (Ex : (inject_Z (i * d) / f == inject_Z i * (inject_Z d / f))%Q)
    by (rewrite inject_Z_mult; field; exact Hfnz).
  assert (Ey : (inject_Z ((i + 1) * d) / f
                == inject_Z i * (inject_Z d / f) + inject_Z d / f)%Q)
    by (rewrite inject_Z_mult, inject_Z_plus; field; exact Hfnz).
  assert (Hi0 : (0 <= inject_Z i * (inject_Z d / f))%Q).
  { apply Qmult_le_0_compat; [|now apply Qlt_le_weak].
    change 0%Q with (inject_Z 0). rewrite <- Zle_Qle. lia. }
  apply number_strict; [rewrite Ex; exact Hi0|].
  assert (Hy : (0 < inject_Z ((i + 1) * d) / f)%Q) by (rewrite Ey; lra).
  destruct (binade_spec _ Hy) as [Hbin _].
  unfold ulp_exponent. revert Hbin.
  generalize (binade (inject_Z ((i + 1) * d) / f)). intros e Hbin.
  rewrite Ex, Ey. rewrite Ey in Hbin.
  apply Qplus_le_r.
  destruct (Z.max_spec (-1074) (e - 52)) as [[_ ->]|[_ ->]].
  - replace (e - 52) with (e + - 52) by lia. rewrite pow2_add.
    assert (Hscaled : (2 ^ e * 2 ^ (- 52)
                       <= (inject_Z i * (inject_Z d / f) + inject_Z d / f)
                          * 2 ^ (- 52))%Q).
    { apply Qmult_le_compat_r; [exact Hbin | apply Qlt_le_weak, pow2_pos]. }
    assert (Hfit : (2 * ((inject_Z i * (inject_Z d / f) + inject_Z d / f)
                         * 2 ^ (- 52)) <= inject_Z d / f)%Q).
    { assert (E : (2 * ((inject_Z i * (inject_Z d / f) + inject_Z d / f)
                        * 2 ^ (- 52))
                   == inject_Z (i + 1) * 2 ^ (- 51) * (inject_Z d / f))%Q)
        by (rewrite inject_Z_plus;
            change (2 ^ (- 52))%Q with (1 # 4503599627370496)%Q;
            change (2 ^ (- 51))%Q with (1 # 2251799813685248)%Q; ring).
      rewrite E. rewrite <- (Qmult_1_l (inject_Z d / f)) at 2.
      apply Qmult_le_compat_r; [|now apply Qlt_le_weak].
      apply Qle_trans with (inject_Z (2 ^ 51) * 2 ^ (- 51))%Q;
        [|apply Qle_bool_imp_le; reflexivity].
      apply Qmult_le_compat_r; [|apply Qlt_le_weak, pow2_pos].
      rewrite <- Zle_Qle. lia. }
    lra.
  - apply Qle_shift_div_l; [exact Hf|].
    apply Qle_trans with (2 * 2 ^ (-1074) * MAX_VALUE)%Q.
    + apply Qmult_le_l; [|exact Hmax].
      apply Qmult_lt_0_compat; [reflexivity | apply pow2_pos].
    + apply Qle_trans with 1%Q; [apply Qle_bool_imp_le; reflexivity|].
      change 1%Q with (inject_Z 1). rewrite <- Zle_Qle. lia.
Qed.

Lemma rounded_times_ordered (f : Q) (d i k : Z) :
  (0 < f)%Q -> (f <= MAX_VALUE)%Q -> 1 <= d -> 0 <= i -> i < k -> k <= 2 ^ 51 ->
  (number (inject_Z (i * d) / f) < number (inject_Z (k * d) / f))%Q.
Proof.
  intros Hf Hmax Hd Hi Hik Hk.
  apply Qle_lt_trans with (number (inject_Z ((k - 1) * d) / f)).
  - apply number_mono. unfold Qdiv.
    apply Qmult_le_compat_r; [|now apply Qlt_le_weak, Qinv_lt_0_compat].
    rewrite <- Zle_Qle. nia.
  - replace (k * d) with ((k - 1 + 1) * d) by lia.
    apply rounded_times_increase; [assumption | assumption | lia | lia].
Qed.

(** With a product that is not positive no frame is captured. *)
Lemma totalFrames_nonpositive (v : Variant) (c : Config) :
  (durationSec c * fps c <= 0)%Q -> 1 <= frameStep_of v -> totalFrames v c <= 0.
Proof.
  intros Hprod Hd. rewrite totalFrames_rounded.
  change 0 with (Qfloor 0). apply Qfloor_resp_le. apply number_nonpos.
  pose proof (inject_Z_positive (frameStep_of v) ltac:(lia)) as HdQ.
  apply Qle_shift_div_r; [exact HdQ|]. rewrite Qmult_0_l.
  apply number_nonpos.
  destruct (sign_cases (durationSec c)) as [Hx|[Hx|Hx]];
    destruct (sign_cases (fps c)) as [Hy|[Hy|Hy]].
  - exfalso. assert (0 < durationSec c * fps c)%Q; [|lra].
    setoid_replace (durationSec c * fps c)%Q
      with ((- durationSec c) * (- fps c))%Q using relation Qeq by ring.
    apply Qmult_lt_0_compat; lra.
  - rewrite (number_zero (fps c) Hy). rewrite Qmult_0_r. apply Qle_refl.
  - pose proof (number_nonpos (durationSec c) ltac:(lra)) as H1.
    pose proof (number_nonneg (fps c) ltac:(lra)) as H2.
    setoid_replace (number (durationSec c) * number (fps c))%Q
      with (- ((- number (durationSec c)) * number (fps c)))%Q
      using relation Qeq by ring.
    assert (0 <= (- number (durationSec c)) * number (fps c))%Q
      by (apply Qmult_le_0_compat; lra).
    lra.
  - rewrite (number_zero (durationSec c) Hx). rewrite Qmult_0_l. apply Qle_refl.
  - rewrite (number_zero (durationSec c) Hx). rewrite Qmult_0_l. apply Qle_refl.
  - rewrite (number_zero (durationSec c) Hx). rewrite Qmult_0_l. apply Qle_refl.
  - pose proof (number_nonneg (durationSec c) ltac:(lra)) as H1.
    pose proof (number_nonpos (fps c) ltac:(lra)) as H2.
    setoid_replace (number (durationSec c) * number (fps c))%Q
      with (- (number (durationSec c) * (- number (fps c))))%Q
      using relation Qeq by ring.
    assert (0 <= number (durationSec c) * (- number (fps c)))%Q
      by (apply Qmult_le_0_compat; lra).
    lra.
  - rewrite (number_zero (fps c) Hy). rewrite Qmult_0_r. apply Qle_refl.
  - exfalso. assert (0 < durationSec c * fps c)%Q; [|lra].
    apply Qmult_lt_0_compat; lra.
Qed.

(** With positive numbers the frame count is not negative. *)
Lemma totalFrames_nonneg (v : Variant) (c : Config) :
  (0 <= durationSec c)%Q -> (0 <= fps c)%Q -> 1 <= frameStep_of v ->
  0 <= totalFrames v c.
Proof.
  intros Hdur Hfps Hd. rewrite totalFrames_rounded.
  change 0 with (Qfloor 0). apply Qfloor_resp_le. apply number_nonneg.
  pose proof (inject_Z_positive (frameStep_of v) ltac:(lia)) as HdQ.
  apply Qle_shift_div_l; [exact HdQ|]. rewrite Qmult_0_l.
  apply number_nonneg. apply Qmult_le_0_compat; now apply number_nonneg.
Qed.

(** The frame count against the floor of the exact quotient of the two
    doubles. *)
Lemma totalFrames_bounds (v : Variant) (c : Config) :
  (0 <= durationSec c)%Q -> (0 <= fps c)%Q -> 1 <= frameStep_of v ->
  (number (durationSec c) * number (fps c) < 2 ^ 53)%Q ->
  Qfloor (number (durationSec c) * number (fps c) / inject_Z (frameStep_of v))
    <= totalFrames v c
    <= Qfloor (number (durationSec c) * number (fps c)
               / inject_Z (frameStep_of v)) + 1.
Proof.
  intros Hdur Hfps Hd Hp. rewrite totalFrames_rounded.
  apply floor_rounded_quotient; [|exact Hp|exact Hd].
  apply Qmult_le_0_compat; now apply number_nonneg.
Qed.

(** One second at 3 frames per second. *)
Definition three_a_second : Config :=
  mkConfig "Mensagem no Ultrassom" 1 7 [] 1 3 1080 1920
           "data/frames/job" "data/videos/job.mp4" "" "sunset" None.

(** C1 as stated fails on doubles.  At 4.35 s and 100 frames a second
    the product is 434.99999999999994 and 434 times are set, not
    [floor(4.35 * 100) = 435]; at 0.3333333333333333 s and 3 frames a second
    the product rounds up to 1 and one time is set, not
    [floor(0.3333333333333333 * 3) = 0]; and at 3 frames a second the
    time of frame 1 is the double 0.3333333333333333, not [1 / 3]. *)
Lemma sample_schedule_counterexample :
  Z.of_nat (length (sampleTimes Plain four_point_three_five)) = 434 /\
  Qfloor (durationSec four_point_three_five * fps four_point_three_five
          / inject_Z (frameStep_of Plain)) = 435 /\
  Z.of_nat (length (sampleTimes Plain third_of_a_second)) = 1 /\
  Qfloor (durationSec third_of_a_second * fps third_of_a_second
          / inject_Z (frameStep_of Plain)) = 0 /\
  (exists t : Q,
     sampleTimes Plain three_a_second !! 1%nat = Some t /\
     (t == 6004799503160661 # 18014398509481984)%Q /\
     ~ (t == inject_Z (1 * frameStep_of Plain) / fps three_a_second)%Q).
Proof.
  split; [vm_compute; reflexivity|].
  split; [vm_compute; reflexivity|].
  split; [vm_compute; reflexivity|].
  split; [vm_compute; reflexivity|].
  eexists. split; [vm_compute; reflexivity|].
  split; [reflexivity | discriminate].
Qed.

Lemma floor_rounded_nonpositive (p : Q) (d : Z) :
  (p <= 0)%Q -> 1 <= d -> Qfloor (number (number p / inject_Z d)) <= 0.
Proof.
  intros Hp Hd. change 0 with (Qfloor 0). apply Qfloor_resp_le.
  apply number_nonpos.
  apply Qle_shift_div_r; [apply inject_Z_positive; lia|]. rewrite Qmult_0_l.
  now apply number_nonpos.
Qed.

(** C1, amended: the numbers are doubles.  With [D] and [F] the doubles
    that [durationSec] and [fps] are, and [d] the frame step (1 in
    [server.js]), a job with positive finite [D] and [F] and [D * F] of at
    most [2^50] sets, when no capture fails, exactly
    [N = floor(fl(fl(D * F) / d))] times on the page, [fl] rounding to the
    nearest double.  [N] is [floor(D * F / d)] or one more, and it is
    [floor(durationSec * fps / d)] when [durationSec] and [fps] are whole
    numbers.  The time of sample [i] is the double nearest to
    [(i * d) / F]; the times are strictly increasing and, when there is
    one, the first is 0. *)
Theorem sample_schedule (v : Variant) (c : Config) :
  (0 < durationSec c)%Q -> (durationSec c <= MAX_VALUE)%Q ->
  (0 < fps c)%Q -> (fps c <= MAX_VALUE)%Q ->
  1 <= frameStep_of v <= 2 ^ 50 ->
  (number (durationSec c) * number (fps c) <= 2 ^ 50)%Q ->
  Z.of_nat (length (sampleTimes v c)) = totalFrames v c /\
  totalFrames v c =
    Qfloor (number (number (number (durationSec c) * number (fps c))
                    / inject_Z (frameStep_of v))) /\
  Qfloor (number (durationSec c) * number (fps c)
          / inject_Z (frameStep_of v))
    <= totalFrames v c
    <= Qfloor (number (durationSec c) * number (fps c)
               / inject_Z (frameStep_of v)) + 1 /\
  ((exists a b : Z,
      (durationSec c == inject_Z a)%Q /\ (fps c == inject_Z b)%Q) ->
   totalFrames v c =
     Qfloor (durationSec c * fps c / inject_Z (frameStep_of v))) /\
  (forall i : nat,
     Z.of_nat i < totalFrames v c ->
     exists t : Q,
       sampleTimes v c !! i = Some t /\
       (t == number (inject_Z (Z.of_nat i * frameStep_of v)
                     / number (fps c)))%Q) /\
  (forall (i k : nat) (t t' : Q),
     (i < k)%nat ->
     sampleTimes v c !! i = Some t -> sampleTimes v c !! k = Some t' ->
     (t < t')%Q) /\
  (forall t : Q, head (sampleTimes v c) = Some t -> (t == 0)%Q) /\
  (forall (env : Env) (jobId : string),
     captures_resolve v env c ->
     timestamps (lifetime v env c jobId) = sampleTimes v c).
Proof.
  intros Hdur HdurMax Hfps HfpsMax Hd Hprod.
  assert (Hruns : forall (env : Env) (jobId : string),
             captures_resolve v env c ->
             timestamps (lifetime v env c jobId) = sampleTimes v c).
  { intros env jobId Hok. rewrite sampleTimes_schedule.
    now apply timestamps_of_lifetime. }
  revert Hruns.
  rewrite sampleTimes_schedule. unfold schedule. intros Hruns.
  pose proof (number_nonneg _ (Qlt_le_weak _ _ Hdur)) as HD.
  pose proof (number_nonneg _ (Qlt_le_weak _ _ Hfps)) as HF.
  pose proof (inject_Z_positive (frameStep_of v) ltac:(lia)) as HdQ.
  assert (Hp0 : (0 <= number (durationSec c) * number (fps c))%Q)
    by now apply Qmult_le_0_compat.
  assert (H5053 : (2 ^ 50 < 2 ^ 53)%Q) by reflexivity.
  assert (Hn : 0 <= totalFrames v c).
  { apply totalFrames_nonneg; [now apply Qlt_le_weak..|lia]. }
  pose proof (totalFrames_bounds v c (Qlt_le_weak _ _ Hdur)
                (Qlt_le_weak _ _ Hfps) ltac:(lia) ltac:(lra)) as Hb.
  pose proof (Qfloor_le (number (durationSec c) * number (fps c)
                         / inject_Z (frameStep_of v))) as Hfl.
  revert Hb Hfl.
  generalize (Qfloor (number (durationSec c) * number (fps c)
                      / inject_Z (frameStep_of v))).
  intros k Hb Hfl.
  assert (Hkd : (inject_Z (k * frameStep_of v)
                 <= number (durationSec c) * number (fps c))%Q).
  { pose proof (Qmult_le_compat_r _ _ (inject_Z (frameStep_of v)) Hfl
                  (Qlt_le_weak _ _ HdQ)) as H.
    assert (E : (number (durationSec c) * number (fps c)
                 / inject_Z (frameStep_of v) * inject_Z (frameStep_of v)
                 == number (durationSec c) * number (fps c))%Q)
      by (field; intros E; rewrite E in HdQ; discriminate).
    rewrite E in H. now rewrite inject_Z_mult. }
  assert (Hkd50 : k * frameStep_of v <= 2 ^ 50).
  { rewrite Zle_Qle. change (inject_Z (2 ^ 50)) with (2 ^ 50)%Q. lra. }
  assert (Hrate : totalFrames v c <= 0 \/ (0 < number (fps c))%Q).
  { destruct (Qlt_le_dec 0 (number (fps c))) as [H|H]; [now right|left].
    rewrite totalFrames_rounded. apply floor_rounded_nonpositive; [|lia].
    assert (E : (number (fps c) == 0)%Q) by lra.
    rewrite E, Qmult_0_r. apply Qle_refl. }
  assert (HFmax : (number (fps c) <= MAX_VALUE)%Q).
  { rewrite <- number_MAX_VALUE. now apply number_mono. }
  assert (Hnear : forall i : Z, 0 <= i < totalFrames v c ->
            (timeSec v c i
             == number (inject_Z (i * frameStep_of v) / number (fps c)))%Q).
  { intros i Hi. apply timeSec_nearest. nia. }
  split; [|split; [|split; [|split; [|split; [|split; [|split;
    [|exact Hruns]]]]]]].
  - rewrite length_fmap, length_seqZ. lia.
  - apply totalFrames_rounded.
  - exact Hb.
  - intros (a & b & Ha & Hb').
    assert (Ha0 : 0 < a).
    { rewrite Zlt_Qlt. change (inject_Z 0) with 0%Q. now rewrite <- Ha. }
    assert (Hb0 : 0 < b).
    { rewrite Zlt_Qlt. change (inject_Z 0) with 0%Q. now rewrite <- Hb'. }
    assert (HF1 : (1 <= number (fps c))%Q).
    { assert (E1 : (number (inject_Z 1) == inject_Z 1)%Q)
        by (apply number_Z; lia).
      change (inject_Z 1) with 1%Q in E1. rewrite <- E1.
      apply number_mono. rewrite Hb'. change 1%Q with (inject_Z 1).
      rewrite <- Zle_Qle. lia. }
    assert (HD1 : (1 <= number (durationSec c))%Q).
    { assert (E1 : (number (inject_Z 1) == inject_Z 1)%Q)
        by (apply number_Z; lia).
      change (inject_Z 1) with 1%Q in E1. rewrite <- E1.
      apply number_mono. rewrite Ha. change 1%Q with (inject_Z 1).
      rewrite <- Zle_Qle. lia. }
    assert (Hale : a <= 2 ^ 50).
    { apply (number_Z_bound a (durationSec c) Ha).
      apply Qle_trans with (number (durationSec c) * number (fps c))%Q;
        [|exact Hprod].
      rewrite <- (Qmult_1_r (number (durationSec c))) at 1.
      apply Qmult_le_l; [lra | exact HF1]. }
    assert (Hble : b <= 2 ^ 50).
    { apply (number_Z_bound b (fps c) Hb').
      apply Qle_trans with (number (durationSec c) * number (fps c))%Q;
        [|exact Hprod].
      rewrite <- (Qmult_1_l (number (fps c))) at 1.
      apply Qmult_le_compat_r; [exact HD1 | lra]. }
    assert (ED : (number (durationSec c) == inject_Z a)%Q)
      by (rewrite Ha; apply number_Z; lia).
    assert (EF : (number (fps c) == inject_Z b)%Q)
      by (rewrite Hb'; apply number_Z; lia).
    assert (EP : (number (durationSec c) * number (fps c)
                  == inject_Z (a * b))%Q)
      by (rewrite ED, EF, inject_Z_mult; reflexivity).
    assert (Hab : a * b <= 2 ^ 50).
    { rewrite Zle_Qle. change (inject_Z (2 ^ 50)) with (2 ^ 50)%Q.
      now rewrite <- EP. }
    rewrite totalFrames_rounded.
    assert (E1 : (number (number (durationSec c) * number (fps c))
                  == inject_Z (a * b))%Q)
      by (rewrite EP; apply number_Z; nia).
    assert (E2 : (number (number (number (durationSec c) * number (fps c))
                          / inject_Z (frameStep_of v))
                  == number (inject_Z (a * b) / inject_Z (frameStep_of v)))%Q)
      by now rewrite E1.
    rewrite (Qfloor_comp _ _ E2).
    rewrite floor_rounded_exact by nia.
    apply Qfloor_comp. now rewrite Ha, Hb', inject_Z_mult.
  - intros i Hi. exists (timeSec v c (Z.of_nat i)). split.
    + rewrite list_lookup_fmap, lookup_seqZ_lt by exact Hi.
      now rewrite Z.add_0_l.
    + apply Hnear. lia.
  - intros i k' t t' Hik Ht Ht'.
    rewrite list_lookup_fmap in Ht, Ht'.
    destruct (seqZ 0 (totalFrames v c) !! i) as [zi|] eqn:Hzi; [|discriminate].
    destruct (seqZ 0 (totalFrames v c) !! k') as [zk|] eqn:Hzk; [|discriminate].
    apply lookup_seqZ in Hzi as [-> Hi]. apply lookup_seqZ in Hzk as [-> Hk'].
    simpl in Ht, Ht'. injection Ht as <-. injection Ht' as <-.
    destruct Hrate as [Hzero|Hrate]; [lia|].
    rewrite !Hnear by lia.
    apply rounded_times_ordered; [assumption | assumption | lia | lia | lia |].
    nia.
  - intros t Ht.
    destruct (Z.eq_dec (totalFrames v c) 0) as [Hz|Hnz].
    + rewrite Hz in Ht. discriminate Ht.
    + rewrite seqZ_cons in Ht by lia. simpl in Ht. injection Ht as <-.
      rewrite Hnear by lia. rewrite Z.mul_0_l.
      assert (E : (inject_Z 0 / number (fps c) == 0)%Q)
        by (unfold Qdiv; apply Qmult_0_l).
      rewrite E. reflexivity.
Qed.

Lemma sample_schedule_witness :
  Z.of_nat (length (sampleTimes Plain four_point_three_five)) = 434 /\
  Z.of_nat (length (sampleTimes (Decimated 2) ten_by_ten)) = 50.
Proof.
  split.
  - exact (proj1 (sample_schedule Plain four_point_three_five
                    eq_refl ltac:(apply Qle_bool_imp_le; reflexivity)
                    eq_refl ltac:(apply Qle_bool_imp_le; reflexivity)
                    ltac:(simpl; lia)
                    ltac:(apply Qle_bool_imp_le; vm_compute; reflexivity))).
  - exact (proj1 (sample_schedule (Decimated 2) ten_by_ten
                    eq_refl ltac:(apply Qle_bool_imp_le; reflexivity)
                    eq_refl ltac:(apply Qle_bool_imp_le; reflexivity)
                    ltac:(simpl; lia)
                    ltac:(apply Qle_bool_imp_le; vm_compute; reflexivity))).
Defined.

End ScheduleFacts.

(** ** C4: a background that cannot be resolved *)

Section BackgroundFacts.
Import JS Server.
Local Open Scope Z_scope.

(** The request names a remote video and its download or its scaling
    fails. *)
Definition background_fails (env : Env) (c : Config) : Prop :=
  backgroundUrl c <> ""%string /\
  String.prefix "/backgrounds/" (backgroundUrl c) = false /\
  ((exists err, ytdlp env = Rejects err) \/
   (ytdlp env = Resolves /\ exists err, scale env = Rejects err)).

(** The same request with [backgroundUrl: ''] (the default). *)
Definition without_background (c : Config) : Config :=
  mkConfig (title c) (episode c) (totalEpisodes c) (messages c)
           (durationSec c) (fps c) (width c) (height c)
           (framesPath c) (outFile c) "" (theme c) (messageDelay c).

(** Every other awaited call of the job resolves. *)
Definition others_resolve (v : Variant) (env : Env) (c : Config) : Prop :=
  captures_resolve v env c /\
  encoderEnd env = Resolves /\ browserClose env = Resolves.

(** Two computations that take the job through the same records, end in
    the same record and end the same way; their calls to the outside may
    differ. *)
Definition similar {A} (m m' : M A) : Prop :=
  forall j,
    snapshots (m j).1.1 = snapshots (m' j).1.1 /\
    (m j).1.2 = (m' j).1.2 /\ (m j).2 = (m' j).2.

Lemma similar_refl {A} (m : M A) : similar m m.
Proof. intros j. auto. Qed.

Lemma snapshots_app (l1 l2 : list Event) :
  snapshots (l1 ++ l2) = snapshots l1 ++ snapshots l2.
Proof. apply omap_app. Qed.

Lemma similar_bind {A B} (m m' : M A) (k k' : A -> M B) :
  similar m m' -> (forall a, similar (k a) (k' a)) ->
  similar (m ≫= k) (m' ≫= k').
Proof.
  intros Hm Hk j. destruct (Hm j) as (Hl & Hj & Hr).
  unfold mbind, M_bind, bind.
  destruct (m j) as [[l1 j1] r1], (m' j) as [[l1' j1'] r1']; simpl in *.
  subst j1' r1'. destruct r1 as [e|a]; [auto|].
  destruct (Hk a j1) as (Hl2 & Hj2 & Hr2).
  destruct (k a j1) as [[l2 j2] r2], (k' a j1) as [[l2' j2'] r2']; simpl in *.
  rewrite !snapshots_app, Hl, Hl2. auto.
Qed.

Lemma similar_try_finally {A} (m m' : M A) (fin : M unit) :
  similar m m' -> similar (try_finally m fin) (try_finally m' fin).
Proof.
  intros Hm j. destruct (Hm j) as (Hl & Hj & Hr).
  unfold try_finally.
  destruct (m j) as [[l1 j1] r1], (m' j) as [[l1' j1'] r1']; simpl in *.
  subst j1' r1'.
  destruct (fin j1) as [[l2 j2] [e|[]]]; simpl;
    rewrite !snapshots_app, Hl; auto.
Qed.

Lemma similar_catch {A} (m m' : M A) (h : string -> M A) :
  similar m m' -> similar (catch m h) (catch m' h).
Proof.
  intros Hm j. destruct (Hm j) as (Hl & Hj & Hr).
  unfold catch.
  destruct (m j) as [[l1 j1] r1], (m' j) as [[l1' j1'] r1']; simpl in *.
  subst j1' r1'. destruct r1 as [e|a]; [|auto].
  destruct (h e j1) as [[l2 j2] r2]; simpl.
  rewrite !snapshots_app, Hl. auto.
Qed.

(** A failed background is caught where it is resolved: the job is not
    touched and the result is [null]. *)
Lemma resolveBackground_failed (d : Z) (env : Env) (c : Config) :
  background_fails env c ->
  forall j, exists l,
    resolveBackground (Decimated d) env c j = (l, j, inr None) /\
    snapshots l = [].
Proof.
  intros (Hurl & Hlocal & Hfail) j.
  unfold resolveBackground, ensureBackgroundVideo, catch.
  apply String.eqb_neq in Hurl. rewrite Hurl, Hlocal.
  unfold mbind, M_bind, bind, await.
  destruct Hfail as [[err Hy] | [Hy [err Hs]]]; rewrite Hy; simpl.
  - eexists. split; reflexivity.
  - rewrite Hs. simpl. eexists. split; reflexivity.
Qed.

Lemma resolveBackground_similar (d : Z) (env : Env) (c : Config) :
  background_fails env c ->
  similar (resolveBackground (Decimated d) env c)
          (resolveBackground (Decimated d) env (without_background c)).
Proof.
  intros Hfail j.
  destruct (resolveBackground_failed d env c Hfail j) as (l & Hrun & Hl).
  rewrite Hrun. simpl. rewrite Hl. auto.
Qed.

Lemma jobTask_similar (d : Z) (env : Env) (c : Config) :
  background_fails env c ->
  similar (jobTask (Decimated d) env c)
          (jobTask (Decimated d) env (without_background c)).
Proof.
  intros Hfail. unfold jobTask. apply similar_catch.
  unfold generateVideo.
  apply similar_bind; [apply similar_refl|intros []].
  apply similar_bind; [apply similar_refl|intros []].
  apply similar_bind; [apply similar_refl|intros []].
  apply similar_try_finally.
  apply similar_bind; [apply similar_refl|intros []].
  apply similar_bind; [apply similar_refl|intros []].
  apply similar_bind; [now apply resolveBackground_similar|intros bgVideo].
  apply similar_refl.
Qed.

(** The monitor collects the encoder invocations. *)
Definition cmd_delta (mu : list EncodeCmd) (e : Event) : list EncodeCmd :=
  match e with EvEncodeStart cmd => mu ++ [cmd] | _ => mu end.

Definition cmd_ok (_ : list EncodeCmd) (_ : Job) (_ : Event) : Prop := True.

Lemma after_encodeCmds (l : list Event) (mu : list EncodeCmd) (j : Job) :
  (after cmd_delta (mu, j) l).1 = mu ++ encodeCmds l.
Proof.
  revert mu j. induction l as [|e l IH]; intros mu j.
  - simpl. now rewrite app_nil_r.
  - change (after cmd_delta (mu, j) (e :: l))
      with (after cmd_delta (advance cmd_delta (mu, j) e) l).
    unfold advance. rewrite IH. destruct e; simpl; try reflexivity.
    now rewrite <- app_assoc.
Qed.

(** The one invocation of a job without background video. *)
Definition plain_encode (v : Variant) (c : Config) : EncodeCmd :=
  mkEncodeCmd (path_join (framesPath c) "frame_%05d.jpg")
              (inputRate v c) (fps c) None.

Section FailedBackground.
Variables (d : Z) (env : Env) (c : Config).
Hypothesis Hfail : background_fails env c.

Let v := Decimated d.

Definition not_started : list EncodeCmd -> Job -> Prop :=
  fun mu _ => mu = [].

Definition started : list EncodeCmd -> Job -> Prop :=
  fun mu _ => mu = [plain_encode v c].

Definition finished : list EncodeCmd -> Job -> Prop :=
  fun mu j => mu = [plain_encode v c] /\
              status j = "done"%string /\ outputFile j = Some (outFile c).

Definition failed : list EncodeCmd -> Job -> Prop :=
  fun mu _ => Forall (fun cmd => overlayOn cmd = None) mu /\
              ~ others_resolve v env c.

Definition settled : list EncodeCmd -> Job -> Prop :=
  fun mu j => Forall (fun cmd => overlayOn cmd = None) mu /\
              (others_resolve v env c -> finished mu j).

Local Abbreviation cspec := (spec cmd_delta cmd_ok).

Local Ltac cmd_side :=
  let mu := fresh "mu" in
  let j := fresh "j" in
  let Hj := fresh "Hj" in
  intros mu j Hj; simpl;
  split; [exact I|]; split; [exact Hj|];
  let err := fresh "err" in
  let Herr := fresh "Herr" in
  intros err Herr;
  unfold not_started, started, finished, failed in *;
  split;
  [ first [ subst mu; repeat constructor
          | destruct Hj as [-> _]; repeat constructor ]
  | let Hc := fresh "Hc" in
    intros Hc; unfold others_resolve, captures_resolve in Hc;
    destruct Hc as ((? & ? & ? & ? & ? & ?) & ? & ?); congruence ].

Local Ltac ckeep_await P :=
  eapply spec_bind;
  [ apply (spec_await_cases cmd_delta cmd_ok P); [exact I | cmd_side]
  | intros [] ].

Local Ltac ckeep_assign P :=
  eapply spec_bind;
  [ apply (spec_assign_to cmd_delta cmd_ok P);
    intros mu j Hj; split; [exact I | exact Hj]
  | intros [] ].

Lemma cmd_resolveBackground :
  cspec not_started (resolveBackground v env c)
        (fun bgVideo mu j => bgVideo = None /\ not_started mu j) failed.
Proof.
  destruct Hfail as (Hurl & Hlocal & Hcause).
  intros mu j Hj.
  unfold v, resolveBackground, ensureBackgroundVideo, catch.
  apply String.eqb_neq in Hurl. rewrite Hurl, Hlocal.
  unfold mbind, M_bind, bind, await.
  destruct Hcause as [[err Hy] | [Hy [err Hs]]]; rewrite Hy; simpl.
  - unfold cmd_ok. auto.
  - rewrite Hs. simpl. unfold cmd_ok. auto 10.
Qed.

Lemma cmd_captureFrame (i : Z) :
  0 <= i < totalFrames v c ->
  cspec not_started (captureFrame v env c (totalFrames v c) i)
        (fun _ => not_started) failed.
Proof.
  intros Hi. unfold captureFrame.
  eapply spec_bind.
  { apply (spec_await_cases cmd_delta cmd_ok not_started); [exact I|].
    intros mu j Hj. simpl. split; [exact I|]. split; [exact Hj|].
    intros err Herr. unfold not_started, failed in *. subst mu.
    split; [constructor|].
    intros ((_ & _ & _ & _ & _ & Hloop) & _).
    destruct (Hloop i Hi) as [Hset _]. congruence. }
  intros []. eapply spec_bind.
  { apply (spec_await_cases cmd_delta cmd_ok not_started); [exact I|].
    intros mu j Hj. simpl. split; [exact I|]. split; [exact Hj|].
    intros err Herr. unfold not_started, failed in *. subst mu.
    split; [constructor|].
    intros ((_ & _ & _ & _ & _ & Hloop) & _).
    destruct (Hloop i Hi) as [_ Hshot]. congruence. }
  intros []. ckeep_assign not_started.
  apply (spec_assign_to cmd_delta cmd_ok not_started).
  intros mu j Hj; split; [exact I | exact Hj].
Qed.

Lemma cmd_progressEvents (ps : list (option Q)) E :
  cspec started (progressEvents ps) (fun _ => started) E.
Proof.
  induction ps as [|p ps IH]; cbn [progressEvents].
  - apply spec_ret. auto.
  - eapply spec_bind;
      [apply (spec_emit_to cmd_delta cmd_ok started); [exact I|];
       intros mu j Hj; split; [exact I | exact Hj]|].
    intros [].
    eapply spec_bind with (Q1 := fun _ => started); [|intros []; exact IH].
    unfold onProgress. destruct p as [q|]; [|apply spec_ret; auto].
    destruct (Qeq_bool q 0); [apply spec_ret; auto|].
    apply (spec_assign_to cmd_delta cmd_ok started).
    intros mu j Hj; split; [exact I | exact Hj].
Qed.

Lemma cmd_generateVideo :
  cspec not_started (generateVideo v env c) (fun _ => finished) failed.
Proof.
  unfold generateVideo.
  ckeep_assign not_started. ckeep_assign not_started.
  ckeep_await not_started.
  eapply spec_try_finally with (Q1 := fun _ => finished) (E1 := failed).
  - ckeep_await not_started. ckeep_await not_started.
    eapply spec_bind; [apply cmd_resolveBackground|intros bgVideo].
    apply spec_assume. intros ->.
    ckeep_await not_started. ckeep_await not_started.
    eapply spec_bind with (Q1 := fun _ => not_started).
    { eapply spec_weaken;
        [apply (spec_for_loop cmd_delta cmd_ok _ 0 (totalFrames v c)
                  (fun _ => not_started) failed);
         [intros i Hi; now apply cmd_captureFrame | lia | lia]
        | auto | auto | auto]. }
    intros []. ckeep_assign not_started. ckeep_assign not_started.
    eapply spec_bind with (Q1 := fun _ => started).
    { unfold encode.
      eapply spec_bind;
        [apply (spec_emit_to cmd_delta cmd_ok started); [exact I|];
         intros mu j Hj; split; [exact I|];
         unfold not_started, started in *; now subst mu|].
      intros []. eapply spec_bind; [apply cmd_progressEvents|].
      intros []. destruct (encoderEnd env) as [|err] eqn:Hend.
      - apply (spec_emit_to cmd_delta cmd_ok started); [exact I|].
        intros mu j Hj; split; [exact I | exact Hj].
      - eapply spec_bind;
          [apply (spec_emit_to cmd_delta cmd_ok started); [exact I|];
           intros mu j Hj; split; [exact I | exact Hj]|].
        intros []. apply spec_throw. intros mu j Hj.
        unfold started, failed in *. subst mu.
        split; [repeat constructor|].
        intros (_ & Hc & _). congruence. }
    intros []. ckeep_assign started.
    eapply spec_bind;
      [apply (spec_assign_to cmd_delta cmd_ok
                (fun mu j => started mu j /\ status j = "done"%string));
       intros mu j Hj; split; [exact I|]; split; [exact Hj | reflexivity]|].
    intros [].
    eapply spec_bind;
      [apply (spec_assign_to cmd_delta cmd_ok
                (fun mu j => started mu j /\ status j = "done"%string));
       intros mu j Hj; split; [exact I | exact Hj]|].
    intros [].
    apply (spec_assign_to cmd_delta cmd_ok finished).
    intros mu j [Hmu Hst]. split; [exact I|].
    unfold finished, started in *. simpl. auto.
  - intros []. ckeep_await finished.
    apply (spec_emit_to cmd_delta cmd_ok finished); [exact I|].
    intros mu j Hj; split; [exact I | exact Hj].
  - eapply spec_bind;
      [apply (spec_await_to cmd_delta cmd_ok failed); [exact I|];
       intros mu j Hj; simpl; unfold cmd_ok; auto|].
    intros [].
    apply (spec_emit_to cmd_delta cmd_ok failed); [exact I|].
    intros mu j Hj; split; [exact I | exact Hj].
Qed.

Lemma cmd_jobTask :
  cspec not_started (jobTask v env c) (fun _ => settled) settled.
Proof.
  unfold jobTask. eapply spec_catch with (E1 := failed).
  - eapply spec_weaken; [apply cmd_generateVideo | auto | | auto].
    intros a mu j Hj. unfold settled. split; [|auto].
    destruct Hj as [-> _]. repeat constructor.
  - intros err.
    assert (Hweak : forall mu j, failed mu j -> settled mu j).
    { intros mu j [Hall Hnot]. split; [exact Hall|]. intros Hc.
      now destruct Hnot. }
    ckeep_assign failed.
    eapply spec_weaken;
      [apply (spec_assign_to cmd_delta cmd_ok failed);
       intros mu j Hj; split; [exact I | exact Hj]
      | auto | intros a; apply Hweak | apply Hweak].
Qed.

End FailedBackground.

(** A download that fails while everything else works. *)
Definition download_fails : Env :=
  mkEnv Resolves Resolves Resolves "bg0001"
        (Rejects "ERROR: unable to download video data") Resolves
        Resolves Resolves (fun _ => Resolves) (fun _ => Resolves)
        [Some 50%Q] Resolves Resolves.

Definition remote_background_job : Config :=
  mkConfig "Mensagem no Ultrassom" 1 7 [] 1 2 1080 1920
           "data/frames/job" "data/videos/job.mp4"
           "https://example.org/clip" "sunset" None.

(** When the background of a job cannot be resolved, the job goes
    through exactly the records, and ends in exactly the record, of the
    same job submitted without a background; the encoder is never given a
    video to overlay the frames on; and when every other call resolves the
    encoder is invoked once, without overlay, and the job ends [done] with
    its output file. *)
Lemma failed_background_records (d : Z) (env : Env) (c : Config)
    (jobId : string) :
  background_fails env c ->
  snapshots (lifetime (Decimated d) env c jobId) =
    snapshots (lifetime (Decimated d) env (without_background c) jobId) /\
  finalJob (Decimated d) env c jobId =
    finalJob (Decimated d) env (without_background c) jobId /\
  Forall (fun cmd => overlayOn cmd = None)
         (encodeCmds (lifetime (Decimated d) env c jobId)) /\
  (others_resolve (Decimated d) env c ->
     encodeCmds (lifetime (Decimated d) env c jobId) =
       [plain_encode (Decimated d) c] /\
     status (finalJob (Decimated d) env c jobId) = "done"%string /\
     outputFile (finalJob (Decimated d) env c jobId) = Some (outFile c)).
Proof.
  intros Hfail.
  destruct (jobTask_similar d env c Hfail (newJob jobId)) as (Hsnap & Hjob & _).
  split; [|split; [exact Hjob|]].
  - unfold lifetime. cbn [snapshots omap list_omap]. f_equal. exact Hsnap.
  - destruct (cmd_jobTask d env c Hfail [] (newJob jobId) eq_refl)
      as (_ & _ & Hres).
    rewrite after_encodeCmds, app_nil_l in Hres.
    change (encodeCmds (lifetime (Decimated d) env c jobId))
      with (encodeCmds (jobTask (Decimated d) env c (newJob jobId)).1.1).
    unfold finalJob.
    change (snd (fst (jobTask (Decimated d) env c (newJob jobId))))
      with ((jobTask (Decimated d) env c (newJob jobId)).1.2).
    assert (Hset : settled d env c
                     (encodeCmds (jobTask (Decimated d) env c (newJob jobId)).1.1)
                     (jobTask (Decimated d) env c (newJob jobId)).1.2)
      by (destruct ((jobTask (Decimated d) env c (newJob jobId)).2); exact Hres).
    destruct Hset as [Hall Hfin]. split; [exact Hall|].
    intros Hothers. exact (Hfin Hothers).
Qed.

End BackgroundFacts.

(** ** C10: submitted jobs stay in the registry *)

Section RegistryFacts.
Import Server Api.

(** The id leads to a job object. *)
Definition known (jobId : string) (s : State) : Prop :=
  exists (obj : nat) (job : Job),
    jobs s !! jobId = Some obj /\ heap s !! obj = Some job.

Lemma known_found (jobId : string) (s : State) :
  known jobId s -> get_progress jobId s <> NotFound.
Proof.
  intros (obj & job & Hreg & Hobj). unfold get_progress.
  rewrite Hreg, Hobj. discriminate.
Qed.

Lemma known_post_generate v body jobId env s :
  known jobId (post_generate v body jobId env s).1.
Proof.
  unfold post_generate.
  destruct (run_to_call _ _) as [[job' calls] rest]. simpl.
  exists (fresh_object s), job'. split; simpl; apply lookup_insert_eq.
Qed.

Lemma known_after_post v body jobId env s (other : string) :
  known other s -> known other (post_generate v body jobId env s).1.
Proof.
  intros (obj & job & Hreg & Hobj).
  destruct (decide (jobId = other)) as [<-|Hne];
    [apply known_post_generate|].
  unfold post_generate.
  destruct (run_to_call _ _) as [[job' calls] rest]. simpl.
  unfold known. simpl.
  destruct (decide (fresh_object s = obj)) as [Heq|Hobjne].
  - exists obj, job'. split.
    + rewrite lookup_insert_ne by exact Hne. exact Hreg.
    + rewrite Heq. apply lookup_insert_eq.
  - exists obj, job. split.
    + rewrite lookup_insert_ne by exact Hne. exact Hreg.
    + rewrite lookup_insert_ne by exact Hobjne. exact Hobj.
Qed.

Lemma known_after_resume (obj : nat) (s : State) (jobId : string) :
  known jobId s -> known jobId (resume obj s).
Proof.
  intros (o & job & Hreg & Hobj). unfold resume.
  destruct (heap s !! obj) as [cur|] eqn:Hcur; [|exists o, job; auto].
  destruct (tasks s !! obj) as [todo|]; [|exists o, job; auto].
  destruct (run_to_call todo cur) as [[job' calls] rest].
  unfold known. simpl.
  destruct (decide (obj = o)) as [->|Hne].
  - exists o, job'. split; [exact Hreg | apply lookup_insert_eq].
  - exists o, job. split; [exact Hreg|].
    rewrite lookup_insert_ne by exact Hne. exact Hobj.
Qed.

Lemma known_after_step v (a : Action) (s : State) (jobId : string) :
  known jobId s -> known jobId (step v a s).1.
Proof.
  intros Hk. destruct a as [body id env | id | obj]; simpl.
  - pose proof (known_after_post v body id env s jobId Hk) as H.
    destruct (post_generate v body id env s) as [s' r]. exact H.
  - exact Hk.
  - now apply known_after_resume.
Qed.

Lemma known_after_exec v (actions : list Action) :
  forall (s : State) (jobId : string),
    known jobId s -> known jobId (exec v actions s).1.
Proof.
  induction actions as [|a rest IH]; intros s jobId Hk; [exact Hk|].
  simpl. pose proof (known_after_step v a s jobId Hk) as H1.
  destruct (step v a s) as [s1 r].
  specialize (IH s1 jobId H1).
  destruct (exec v rest s1) as [s2 rs]. exact IH.
Qed.

(** No handler and no task ever removes an entry. *)
Lemma registry_grows v (actions : list Action) :
  forall (s : State) (jobId : string),
    is_Some (jobs s !! jobId) -> is_Some (jobs (exec v actions s).1 !! jobId).
Proof.
  induction actions as [|a rest IH]; intros s jobId Hk; [exact Hk|].
  simpl.
  assert (H1 : is_Some (jobs (step v a s).1 !! jobId)).
  { destruct a as [body id env | id | obj]; simpl; [| exact Hk |].
    - unfold post_generate.
      destruct (run_to_call _ _) as [[job' calls] rest']. simpl.
      destruct (decide (id = jobId)) as [->|Hne].
      + rewrite lookup_insert_eq. eauto.
      + now rewrite lookup_insert_ne.
    - unfold resume.
      destruct (heap s !! obj); [|exact Hk].
      destruct (tasks s !! obj); [|exact Hk].
      destruct (run_to_call _ _) as [[job' calls] rest']. exact Hk. }
  destruct (step v a s) as [s1 r].
  specialize (IH s1 jobId H1).
  destruct (exec v rest s1) as [s2 rs]. exact IH.
Qed.

(** C10: a submission answers with the id after having put the job in the
    registry, and whatever the server does afterwards (more submissions,
    also with the same id; tasks running; polls) the registry keeps every
    entry and a status query with that id finds the job. *)
Theorem submitted_job_is_found (v : Variant) (body : Body) (jobId : string)
    (env : Env) (s : State) (later : list Action) :
  (post_generate v body jobId env s).2 = Accepted jobId /\
  is_Some (jobs (post_generate v body jobId env s).1 !! jobId) /\
  (forall other : string,
     is_Some (jobs (post_generate v body jobId env s).1 !! other) ->
     is_Some (jobs (exec v later (post_generate v body jobId env s).1).1
                !! other)) /\
  get_progress jobId (exec v later (post_generate v body jobId env s).1).1
    <> NotFound.
Proof.
  split; [|split; [|split]].
  - unfold post_generate. now destruct (run_to_call _ _) as [[job' calls] rest].
  - destruct (known_post_generate v body jobId env s) as (obj & job & H & _).
    rewrite H. eauto.
  - intros other. apply registry_grows.
  - apply known_found, known_after_exec, known_post_generate.
Qed.

End RegistryFacts.

(** ** C6: what a submission checks *)

Section ValidationFacts.
Import JS Server Api.

(** Every task begins the same way: two assignments, then the browser is
    launched. *)
Lemma jobTask_begins v env c job :
  exists rest : list Event,
    (jobTask v env c job).1.1 =
    EvJob (with_status "rendering" job)
    :: EvJob (with_message "Launching headless browser"
                (with_status "rendering" job))
    :: EvLaunch (width c) (height c) :: rest.
Proof.
  unfold jobTask, catch, generateVideo.
  unfold mbind, M_bind, bind, assign. cbn beta iota.
  unfold await at 1.
  destruct (launch env) as [|err]; cbn beta iota.
  - match goal with
    | |- context [try_finally ?b ?f ?j] =>
        destruct (try_finally b f j) as [[l2 j2] [e|[]]]
    end; cbn beta iota.
    + eexists. cbn. reflexivity.
    + eexists. cbn. reflexivity.
  - eexists. cbn. reflexivity.
Qed.

Lemma run_to_call_begins v env c jobId :
  exists rest : list Event,
    run_to_call (jobTask v env c (newJob jobId)).1.1 (newJob jobId) =
    (mkJob jobId "rendering" 0 "Launching headless browser" None,
     [EvLaunch (width c) (height c)], rest).
Proof.
  destruct (jobTask_begins v env c (newJob jobId)) as (rest & ->).
  exists rest. reflexivity.
Qed.

(** C6 as stated: the submission is turned down, nothing is registered and
    nothing is asked of the outside. *)
Definition rejected_at_submission (v : Variant) (body : Body) (jobId : string)
    (env : Env) (s : State) : Prop :=
  (post_generate v body jobId env s).2 <> Accepted jobId /\
  jobs (post_generate v body jobId env s).1 = jobs s /\
  issued (post_generate v body jobId env s).1 = issued s.

(** [{ durationSec: -5 }] *)
Definition negative_duration : Body :=
  mkBody None None None None (Some (-5)%Q) None None None None None None.

(** C6, as stated, fails: neither handler looks at [durationSec] or [fps].
    A request for -5 seconds is answered with a job id; the job is in the
    registry, [rendering], and the browser has been asked to launch. *)
Lemma validation_counterexample :
  (durationSec (config_of Plain negative_duration "job00001") <= 0)%Q /\
  (post_generate Plain negative_duration "job00001" (calm []) init).2
    = Accepted "job00001" /\
  get_progress "job00001"
    (post_generate Plain negative_duration "job00001" (calm []) init).1
    = JobView "job00001" "rendering" 0 "Launching headless browser" None /\
  issued (post_generate Plain negative_duration "job00001" (calm []) init).1
    = [EvLaunch 1080 1920] /\
  ~ rejected_at_submission Plain negative_duration "job00001" (calm []) init.
Proof.
  split; [discriminate|]. split; [reflexivity|].
  split; [reflexivity|]. split; [reflexivity|].
  intros (Hresp & _). apply Hresp. reflexivity.
Qed.

(** C6 (amended): a submission with [durationSec <= 0] or [fps <= 0] is
    accepted like any other: the job is put in the registry, its task is
    started (the job is [rendering] and the browser launch is requested),
    and the job id is returned; and when [durationSec * fps <= 0] the
    capture loop takes no sample. *)
Theorem nonpositive_timing_is_accepted (v : Variant) (body : Body)
    (jobId : string) (env : Env) (s : State) :
  (durationSec (config_of v body jobId) <= 0 \/
   fps (config_of v body jobId) <= 0)%Q ->
  (post_generate v body jobId env s).2 = Accepted jobId /\
  get_progress jobId (post_generate v body jobId env s).1
    = JobView jobId "rendering" 0 "Launching headless browser" None /\
  issued (post_generate v body jobId env s).1
    = issued s ++ [EvLaunch (width (config_of v body jobId))
                            (height (config_of v body jobId))] /\
  ((durationSec (config_of v body jobId) * fps (config_of v body jobId) <= 0)%Q ->
   (1 <= frameStep_of v)%Z ->
   sampleTimes v (config_of v body jobId) = []).
Proof.
  intros _.
  destruct (run_to_call_begins v env (config_of v body jobId) jobId)
    as (rest & Hrun).
  unfold post_generate, get_progress.
  change (fst (fst (jobTask v env (config_of v body jobId) (newJob jobId))))
    with ((jobTask v env (config_of v body jobId) (newJob jobId)).1.1).
  rewrite Hrun. simpl.
  rewrite !lookup_insert_eq. simpl.
  split; [reflexivity|]. split; [reflexivity|]. split; [reflexivity|].
  intros Hprod Hd.
  rewrite sampleTimes_schedule. unfold schedule.
  rewrite seqZ_nil; [reflexivity|].
  now apply totalFrames_nonpositive.
Qed.

Lemma nonpositive_timing_is_accepted_witness :
  (durationSec (config_of Plain negative_duration "job00001") <= 0)%Q /\
  (post_generate Plain negative_duration "job00001" (calm []) init).2
    = Accepted "job00001" /\
  sampleTimes Plain (config_of Plain negative_duration "job00001") = [].
Proof.
  assert (Hd : (durationSec (config_of Plain negative_duration "job00001") <= 0)%Q)
    by discriminate.
  pose proof (nonpositive_timing_is_accepted Plain negative_duration
                "job00001" (calm []) init (or_introl Hd))
    as (Hresp & _ & _ & Hnone).
  split; [exact Hd|]. split; [exact Hresp|].
  apply Hnone; [discriminate | simpl; lia].
Defined.

End ValidationFacts.

(** ** C8: [wrapText] is a greedy word wrap *)

Section WrapFacts.
Import Canvas.

Variable measureText : string -> Q.
Variable maxWidth : Q.

(** Greedy word wrap, as the design document words it: a line begins with
    a word; the next word is added to the line while the line so extended
    does not exceed the limit; on overflow the line is finished and a new
    line begins with the overflowing word. *)
Fixpoint greedy_lines (line : string) (words : list string) : list string :=
  match words with
  | [] => if nonempty line then [line] else []
  | word :: rest =>
      if nonempty line then
        if Qle_bool (measureText (line +:+ " " +:+ word)) maxWidth
        then greedy_lines (line +:+ " " +:+ word) rest
        else line :: greedy_lines word rest
      else greedy_lines word rest
  end.

Definition greedy_wrap (text : string) : list string :=
  greedy_lines EmptyString (split_space text).

Lemma wrap_loop_greedy (words : list string) :
  forall (lines : list string) (currentLine : string),
    (let '(lines', last) :=
       fold_left (wrap_word measureText maxWidth) words (lines, currentLine) in
     if nonempty last then lines' ++ [last] else lines')
    = lines ++ greedy_lines currentLine words.
Proof.
  induction words as [|word rest IH]; intros lines currentLine.
  - simpl. destruct (nonempty currentLine); [reflexivity|].
    now rewrite app_nil_r.
  - cbn [fold_left greedy_lines]. unfold wrap_word at 2.
    destruct (nonempty currentLine) eqn:Hcur.
    + unfold Qgtb.
      destruct (Qle_bool (measureText (currentLine +:+ " " +:+ word)) maxWidth);
        cbn [negb andb].
      * apply IH.
      * rewrite IH. now rewrite <- app_assoc.
    + rewrite andb_false_r.
      assert (Hempty : currentLine = EmptyString).
      { unfold nonempty in Hcur. apply negb_false_iff in Hcur.
        now apply String.eqb_eq in Hcur. }
      subst currentLine. apply IH.
Qed.

(** A line is acceptable when it is within the limit, or is a single word
    of the text (a word wider than the limit still gets a line). *)
Definition acceptable (words : list string) (line : string) : Prop :=
  (measureText line <= maxWidth)%Q \/ In line words.

Lemma greedy_lines_acceptable (all : list string) (words : list string) :
  forall line : string,
    (nonempty line = true -> acceptable all line) ->
    Forall (fun w => In w all) words ->
    Forall (acceptable all) (greedy_lines line words).
Proof.
  induction words as [|word rest IH]; intros line Hline Hwords;
    cbn [greedy_lines].
  - destruct (nonempty line); [|constructor].
    constructor; [now apply Hline | constructor].
  - apply Forall_cons in Hwords as [Hword Hrest].
    destruct (nonempty line) eqn:Hcur.
    + destruct (Qle_bool (measureText (line +:+ " " +:+ word)) maxWidth)
        eqn:Hfit.
      * apply IH; [|exact Hrest]. intros _. left.
        now apply Qle_bool_iff.
      * constructor; [now apply Hline|].
        apply IH; [|exact Hrest]. intros _. now right.
    + apply IH; [|exact Hrest]. intros _. now right.
Qed.

(** Wrapping keeps the words and their order: joining the lines with single
    spaces gives the words joined with single spaces. *)
Lemma concat_cons (sep x : string) (xs : list string) :
  xs <> [] -> String.concat sep (x :: xs) = x +:+ sep +:+ String.concat sep xs.
Proof. destruct xs; [congruence | reflexivity]. Qed.

Lemma nonempty_append (a b : string) :
  nonempty a = true -> nonempty (a +:+ b) = true.
Proof. destruct a; [discriminate | reflexivity]. Qed.

Lemma greedy_lines_nonempty (words : list string) :
  forall line, nonempty line = true -> greedy_lines line words <> [].
Proof.
  induction words as [|word rest IH]; intros line Hline; cbn [greedy_lines];
    rewrite Hline; [discriminate|].
  destruct (Qle_bool _ _); [|discriminate].
  apply IH. now apply nonempty_append.
Qed.

Lemma greedy_lines_concat (words : list string) :
  forall line,
    nonempty line = true ->
    Forall (fun w => nonempty w = true) words ->
    String.concat " " (greedy_lines line words)
      = String.concat " " (line :: words).
Proof.
  induction words as [|word rest IH]; intros line Hline Hwords;
    cbn [greedy_lines]; rewrite Hline; [reflexivity|].
  apply Forall_cons in Hwords as [Hword Hrest].
  destruct (Qle_bool _ _).
  - rewrite IH by (try apply nonempty_append; assumption).
    destruct rest as [|w rest].
    + cbn [String.concat]. reflexivity.
    + rewrite !(concat_cons _ _ (_ :: _)) by discriminate.
      now rewrite !append_assoc.
  - rewrite concat_cons by now apply greedy_lines_nonempty.
    rewrite IH by assumption.
    now rewrite (concat_cons _ line) by discriminate.
Qed.

End WrapFacts.

(** The loop of [wrapText], started on no line, computes the greedy
    wrap. *)
Lemma wrapText_greedy_wrap (measureText : string -> Q) (text : string)
    (maxWidth : Q) :
  Canvas.wrapText measureText text maxWidth
    = greedy_wrap measureText maxWidth text.
Proof.
  unfold Canvas.wrapText, Canvas.wrapWords, greedy_wrap.
  apply (wrap_loop_greedy measureText maxWidth (Canvas.split_space text) []).
Qed.

Lemma split_from_nonempty (s cur : string) : Canvas.split_from s cur <> [].
Proof.
  revert cur. induction s as [|c s IH]; intros cur; cbn [Canvas.split_from];
    [discriminate|].
  destruct (Ascii.eqb c " "); [discriminate | apply IH].
Qed.

Lemma concat_split_from (s : string) :
  forall cur, String.concat " " (Canvas.split_from s cur) = cur +:+ s.
Proof.
  induction s as [|c s IH]; intros cur; cbn [Canvas.split_from].
  - cbn [String.concat]. now rewrite append_nil_r.
  - destruct (Ascii.eqb_spec c " ") as [->|Hne].
    + rewrite concat_cons by apply split_from_nonempty.
      rewrite IH. reflexivity.
    + rewrite IH, append_assoc. reflexivity.
Qed.

(** The words of a text are the pieces between its spaces: strings
    without a space which, joined by single spaces, give the text.  (Two
    spaces in a row hold an empty word between them.) *)
Fixpoint space_free (w : string) : bool :=
  match w with
  | EmptyString => true
  | String c w' => negb (Ascii.eqb c " ") && space_free w'
  end.

Definition words_of (text : string) (words : list string) : Prop :=
  words <> [] /\ Forall (fun w => space_free w = true) words /\
  text = String.concat " " words.

Lemma split_from_word (w rest cur : string) :
  space_free w = true ->
  Canvas.split_from (w +:+ rest) cur = Canvas.split_from rest (cur +:+ w).
Proof.
  revert cur. induction w as [|ch w IH]; intros cur Hw.
  - now rewrite append_nil_r.
  - cbn [space_free] in Hw. apply andb_prop in Hw as [Hch Hw].
    apply negb_true_iff in Hch.
    change (String ch w +:+ rest) with (String ch (w +:+ rest)).
    cbn [Canvas.split_from]. rewrite Hch, IH by exact Hw.
    now rewrite append_assoc.
Qed.

(** [text.split(' ')] returns the words of the text. *)
Lemma split_from_words (words : list string) :
  forall (w cur : string),
    Forall (fun w => space_free w = true) (w :: words) ->
    Canvas.split_from (String.concat " " (w :: words)) cur
      = (cur +:+ w) :: words.
Proof.
  induction words as [|w' words IH]; intros w cur Hall.
  - apply Forall_cons in Hall as [Hw _]. cbn [String.concat].
    rewrite <- (append_nil_r w) at 1. now rewrite split_from_word.
  - apply Forall_cons in Hall as [Hw Hrest].
    rewrite concat_cons by discriminate.
    rewrite split_from_word by exact Hw.
    change (" " +:+ String.concat " " (w' :: words))
      with (String " " (String.concat " " (w' :: words))).
    cbn [Canvas.split_from]. rewrite Ascii.eqb_refl.
    now rewrite IH by exact Hrest.
Qed.

Lemma split_space_words (text : string) (words : list string) :
  words_of text words -> Canvas.split_space text = words.
Proof.
  intros (Hne & Hall & ->). destruct words as [|w words]; [congruence|].
  unfold Canvas.split_space. now rewrite split_from_words.
Qed.

Lemma split_from_space_free (s : string) :
  forall cur, space_free cur = true ->
    Forall (fun w => space_free w = true) (Canvas.split_from s cur).
Proof.
  assert (Hsnoc : forall cur ch, space_free cur = true ->
            Ascii.eqb ch " " = false ->
            space_free (cur +:+ String ch EmptyString) = true).
  { induction cur as [|x cur IH]; intros ch Hcur Hch; simpl.
    - now rewrite Hch.
    - simpl in Hcur. apply andb_prop in Hcur as [Hx Hcur].
      now rewrite Hx, IH. }
  induction s as [|ch s IH]; intros cur Hcur; cbn [Canvas.split_from].
  - now constructor.
  - destruct (Ascii.eqb ch " ") eqn:Hch.
    + constructor; [exact Hcur | now apply IH].
    + apply IH. now apply Hsnoc.
Qed.

Lemma words_unique (text : string) (words words' : list string) :
  words_of text words -> words_of text words' -> words = words'.
Proof.
  intros H H'. rewrite <- (split_space_words text words H).
  now apply split_space_words.
Qed.

(** Every text has its words. *)
Lemma text_has_words (text : string) :
  words_of text (Canvas.split_space text).
Proof.
  split; [apply split_from_nonempty|]. split.
  - now apply split_from_space_free.
  - pose proof (concat_split_from text EmptyString) as H.
    now rewrite append_Empty in H.
Qed.

(** C8: for every text, limit and font, [wrapText] returns the lines of
    the greedy word wrap of the words of the text, the words being the
    space-free pieces that joined by single spaces give the text (every
    text has them, and only one list of them): words are added to the
    current line while the measured width of the line does not exceed the
    limit (the code's overflow test is [width > maxWidth]), and on
    overflow the current line is pushed and the overflowing word begins
    the next line.  Hence every line is within the limit or is a single
    word of the text. *)
Theorem wrapText_is_greedy (measureText : string -> Q) (text : string)
    (maxWidth : Q) :
  (exists words : list string, words_of text words) /\
  (forall words : list string,
     words_of text words ->
     Canvas.wrapText measureText text maxWidth
       = greedy_lines measureText maxWidth EmptyString words /\
     Forall (acceptable measureText maxWidth words)
            (Canvas.wrapText measureText text maxWidth)).
Proof.
  split; [exists (Canvas.split_space text); apply text_has_words|].
  intros words Hwords.
  pose proof (wrapText_greedy_wrap measureText text maxWidth) as Heq.
  unfold greedy_wrap in Heq.
  rewrite (split_space_words text words Hwords) in Heq.
  split; [exact Heq|].
  rewrite Heq. apply greedy_lines_acceptable.
  - discriminate.
  - apply Forall_forall. intros w Hw. now apply list_elem_of_In.
Qed.

(** A fixed-pitch font: every character is one unit wide. *)
Definition one_unit_each (s : string) : Q :=
  inject_Z (Z.of_nat (String.length s)).

Lemma wrapText_is_greedy_witness :
  words_of "we did it babe" ["we"; "did"; "it"; "babe"]%string /\
  Canvas.wrapText one_unit_each "we did it babe" 9
    = ["we did it"; "babe"]%string /\
  Canvas.wrapText one_unit_each "we did it babe" 5
    = ["we"; "did"; "it"; "babe"]%string.
Proof.
  assert (Hw : words_of "we did it babe" ["we"; "did"; "it"; "babe"]%string).
  { split; [discriminate|]. split; [|reflexivity].
    repeat constructor. }
  split; [exact Hw|]. split.
  - exact (proj1 (proj2 (wrapText_is_greedy one_unit_each "we did it babe" 9)
                    _ Hw)).
  - exact (proj1 (proj2 (wrapText_is_greedy one_unit_each "we did it babe" 5)
                    _ Hw)).
Defined.

(** For a text without empty words (no leading, trailing or doubled
    space), the lines of [wrapText] joined with single spaces are the
    text. *)
Lemma wrapText_keeps_text (measureText : string -> Q) (text : string)
    (maxWidth : Q) :
  Forall (fun w => Canvas.nonempty w = true) (Canvas.split_space text) ->
  String.concat " " (Canvas.wrapText measureText text maxWidth) = text.
Proof.
  intros Hwords.
  rewrite wrapText_greedy_wrap.
  unfold greedy_wrap.
  pose proof (concat_split_from text EmptyString) as Hsplit.
  rewrite append_Empty in Hsplit. fold (Canvas.split_space text) in Hsplit.
  destruct (Canvas.split_space text) as [|word rest]; [exact Hsplit|].
  apply Forall_cons in Hwords as [Hword Hrest].
  cbn [greedy_lines]. cbn [Canvas.nonempty String.eqb negb].
  rewrite greedy_lines_concat by assumption. exact Hsplit.
Qed.

(** ** C5: a job without messages *)

Section EmptyJobFacts.
Import Canvas.

(** [{ dialogues: [] }] *)
Definition no_dialogues : Body := mkBody None None None None (Some []).

(** C5 fails in [videoService.js]: with no dialogue the hold loop reads
    [dialogues[dialogues.length - 1]], which is [undefined], and
    [createFrame] throws on [currentDialogue.image] before any frame is
    written; the controller accepts the request (an empty array is an
    array) and the job ends [failed]. *)
Theorem empty_dialogues_throw (backgroundType tempDir jobId : string)
    (encoder : Server.Outcome) :
  V1.generateFrames [] backgroundType tempDir =
    (mkWritten [] 0%Z,
     Some "TypeError: Cannot read properties of undefined (reading 'image')") /\
  controller Earlier no_dialogues jobId encoder = (Started jobId, Some "failed").
Proof. split; reflexivity. Qed.

(** The later version does what the earlier one misses: it reads the last
    message with [?.], draws 60 frames (the two seconds of the ending), all
    with no visible message, and the job ends [completed] when the encoder
    succeeds. *)
Lemma empty_dialogues_later (title background tempDir jobId : string)
    (episode totalEpisodes : Z) :
  let run := V2.generateFrames
               (V2.mkVideoData title episode totalEpisodes [] background)
               tempDir in
  run.2 = None /\
  length (frames (V2.written run.1)) = 60%nat /\
  Forall (fun fr => V2.visibleMessages fr.2 = [])
         (frames (V2.written run.1)) /\
  controller Later no_dialogues jobId Server.Resolves
    = (Started jobId, Some "completed").
Proof.
  cbv zeta. split; [reflexivity|]. split; [reflexivity|].
  split; [|reflexivity].
  vm_compute. repeat constructor.
Qed.

End EmptyJobFacts.

(** ** C7: the visible messages are a growing prefix of the input *)

Section TimelineFacts.
Import Canvas Canvas.V2.
Local Open Scope Z_scope.

Variable data : VideoData.
Variable tempDir : string.

(** The first [n] dialogues, annotated in input order. *)
Definition first_shown (n : Z) (vis : list VisibleMessage) : Prop :=
  0 <= n <= Z.of_nat (length (v_dialogues data)) /\
  map vm_dialogue vis = take (Z.to_nat n) (v_dialogues data) /\
  map index vis = seqZ 0 n.

Definition frame_within (bound : Z) (fr : string * RenderState) : Prop :=
  exists n : Z, n <= bound /\ first_shown n (visibleMessages fr.2).

Definition growing (fs : list (string * RenderState)) : Prop :=
  forall (k k' : nat) (a b : string * RenderState),
    (k <= k')%nat -> fs !! k = Some a -> fs !! k' = Some b ->
    (length (visibleMessages a.2) <= length (visibleMessages b.2))%nat.

Definition timeline_ok (t : Timeline) : Prop :=
  first_shown (currentMessageIndex t) (shownMessages t) /\
  Forall (frame_within (currentMessageIndex t)) (frames (written t)) /\
  growing (frames (written t)).

Lemma first_shown_length (n : Z) (vis : list VisibleMessage) :
  first_shown n vis -> length vis = Z.to_nat n.
Proof.
  intros (Hn & Hd & _).
  rewrite <- (length_map vm_dialogue), Hd.
  apply length_take_le. lia.
Qed.

Lemma first_shown_animate (n : Z) (vis : list VisibleMessage) :
  first_shown n vis ->
  first_shown n
    (map (fun m => mkVisible (vm_dialogue m)
                             (min1 (animationProgress m + (1 # 10)))
                             (index m)) vis).
Proof.
  intros (Hn & Hd & Hi). split; [exact Hn|].
  rewrite !map_map. simpl. split; assumption.
Qed.

Lemma first_shown_push (n : Z) (vis : list VisibleMessage) :
  first_shown n vis -> n < Z.of_nat (length (v_dialogues data)) ->
  first_shown (n + 1)
    (vis ++ [mkVisible (spread (at_index (v_dialogues data) n)) 0 n]).
Proof.
  intros (Hn & Hd & Hi) Hlt.
  destruct (lookup_lt_is_Some_2 (v_dialogues data) (Z.to_nat n) ltac:(lia))
    as [d Hlook].
  unfold at_index. destruct (Z.ltb_spec n 0) as [?|_]; [lia|].
  rewrite Hlook. simpl.
  split; [lia|]. rewrite !map_app. simpl. split.
  - rewrite Hd. replace (Z.to_nat (n + 1)) with (S (Z.to_nat n)) by lia.
    symmetry. now apply take_S_r.
  - rewrite Hi. symmetry. apply seqZ_snoc. lia.
Qed.

(** What one iteration does to the timeline. *)
Lemma frameStep_shape (f : Z) (t : Timeline) :
  first_shown (currentMessageIndex t) (shownMessages t) ->
  first_shown (currentMessageIndex (frameStep data tempDir f t).1)
              (shownMessages (frameStep data tempDir f t).1) /\
  currentMessageIndex t <= currentMessageIndex (frameStep data tempDir f t).1 /\
  (frames (written (frameStep data tempDir f t).1) = frames (written t) \/
   exists (p : string) (st : RenderState),
     frames (written (frameStep data tempDir f t).1)
       = frames (written t) ++ [(p, st)] /\
     visibleMessages st = shownMessages (frameStep data tempDir f t).1).
Proof.
  intros Hfirst. unfold frameStep. cbv zeta.
  destruct ((0 <? f) && (f mod JS.Math_floor (inject_Z frameRate * 2) =? 0)
            && (currentMessageIndex t <? Z.of_nat (length (v_dialogues data))))
    eqn:Hcond; cbv beta iota.
  - apply andb_true_iff in Hcond as [_ Hlt]. apply Z.ltb_lt in Hlt.
    pose proof (first_shown_animate _ _ (first_shown_push _ _ Hfirst Hlt))
      as Hnext.
    unfold createFrame. cbn [visibleMessages].
    match goal with
    | |- context [existsb ?g ?l] => destruct (existsb g l)
    end; cbn [fst currentMessageIndex shownMessages written].
    + split; [exact Hnext|]. split; [lia|]. now left.
    + split; [exact Hnext|]. split; [lia|]. right.
      unfold writeFrame. cbn [frames]. eexists _, _. split; reflexivity.
  - pose proof (first_shown_animate _ _ Hfirst) as Hnext.
    unfold createFrame. cbn [visibleMessages].
    match goal with
    | |- context [existsb ?g ?l] => destruct (existsb g l)
    end; cbn [fst currentMessageIndex shownMessages written].
    + split; [exact Hnext|]. split; [lia|]. now left.
    + split; [exact Hnext|]. split; [lia|]. right.
      unfold writeFrame. cbn [frames]. eexists _, _. split; reflexivity.
Qed.

Lemma frameStep_ok (f : Z) (t : Timeline) :
  timeline_ok t -> timeline_ok (frameStep data tempDir f t).1.
Proof.
  intros (Hfirst & Hall & Hgrow).
  destruct (frameStep_shape f t Hfirst) as (Hnext & Hle & Hframes).
  set (t' := (frameStep data tempDir f t).1) in *.
  assert (Hold : Forall (frame_within (currentMessageIndex t'))
                        (frames (written t))).
  { eapply Forall_impl; [exact Hall|].
    intros fr (n & Hn & Hfr). exists n. split; [lia | exact Hfr]. }
  split; [exact Hnext|].
  destruct Hframes as [-> | (p & st & -> & Hvis)]; [split; assumption|].
  split.
  - apply Forall_app. split; [exact Hold|].
    constructor; [|constructor].
    exists (currentMessageIndex t'). split; [lia|]. simpl. now rewrite Hvis.
  - intros k k' a b Hkk' Ha Hb.
    apply lookup_snoc_Some in Hb as [[Hk' Hb] | [Hk' <-]].
    + apply lookup_snoc_Some in Ha as [[Hk Ha] | [Hk _]]; [|lia].
      exact (Hgrow k k' a b Hkk' Ha Hb).
    + simpl. rewrite Hvis, (first_shown_length _ _ Hnext).
      apply lookup_snoc_Some in Ha as [[Hk Ha] | [Hk <-]].
      * apply (proj1 (Forall_lookup _ _) Hold) in Ha as (n & Hn & Hfr).
        rewrite (first_shown_length _ _ Hfr).
        destruct Hfr as (Hn0 & _). lia.
      * simpl. rewrite Hvis, (first_shown_length _ _ Hnext). lia.
Qed.

Lemma for_each_invariant {A S} (Inv : S -> Prop)
    (body : A -> S -> S * option string) (xs : list A) :
  (forall x st, Inv st -> Inv (body x st).1) ->
  forall st, Inv st -> Inv (for_each xs body st).1.
Proof.
  intros Hbody. induction xs as [|x xs IH]; intros st Hst; [exact Hst|].
  simpl. pose proof (Hbody x st Hst) as H1.
  destruct (body x st) as [st' [e|]]; [exact H1 | apply IH, H1].
Qed.

Lemma generateFrames_ok : timeline_ok (generateFrames data tempDir).1.
Proof.
  unfold generateFrames. apply for_each_invariant.
  - intros f t. apply frameStep_ok.
  - split; [|split].
    + split; [simpl; lia|]. split; reflexivity.
    + constructor.
    + intros k k' a b _ Ha. discriminate Ha.
Qed.

End TimelineFacts.

(** A story of three messages. *)
Definition three_messages : Canvas.V2.VideoData :=
  Canvas.V2.mkVideoData "Mensagem no Ultrassom" 1 7
    [ Canvas.mkDialogue (Some "Ava") (Some "WE DID IT BABE!") None None None;
      Canvas.mkDialogue (Some "You") (Some "fr?") None None None;
      Canvas.mkDialogue (Some "Ava") (Some "YES!") None (Some "revelation") None ]
    "minecraft".

(** C7: in every job of the later canvas version, the messages visible in a
    frame are the first messages of the input, in input order and numbered
    so; and the messages visible in a frame are still visible, at the same
    places, in every later frame of the job. *)
Theorem visible_messages_prefix (data : Canvas.V2.VideoData) (tempDir : string)
    (k k' : nat) (a b : string * Canvas.V2.RenderState) :
  (k <= k')%nat ->
  Canvas.frames (Canvas.V2.written (Canvas.V2.generateFrames data tempDir).1) !! k
    = Some a ->
  Canvas.frames (Canvas.V2.written (Canvas.V2.generateFrames data tempDir).1) !! k'
    = Some b ->
  map Canvas.V2.vm_dialogue (Canvas.V2.visibleMessages a.2)
    `prefix_of` map Canvas.V2.vm_dialogue (Canvas.V2.visibleMessages b.2) /\
  map Canvas.V2.vm_dialogue (Canvas.V2.visibleMessages b.2)
    `prefix_of` Canvas.V2.v_dialogues data /\
  map Canvas.V2.index (Canvas.V2.visibleMessages b.2)
    = seqZ 0 (Z.of_nat (length (Canvas.V2.visibleMessages b.2))).
Proof.
  intros Hkk' Ha Hb.
  destruct (generateFrames_ok data tempDir) as (_ & Hall & Hgrow).
  pose proof (Hgrow k k' a b Hkk' Ha Hb) as Hlen.
  apply (proj1 (Forall_lookup _ _) Hall) in Ha as (n & _ & Hfa).
  apply (proj1 (Forall_lookup _ _) Hall) in Hb as (m & _ & Hfb).
  rewrite (first_shown_length _ _ _ Hfa), (first_shown_length _ _ _ Hfb) in Hlen.
  rewrite (first_shown_length _ _ _ Hfb).
  destruct Hfa as (Hn & Hda & _), Hfb as (Hm & Hdb & Hib).
  rewrite Hda, Hdb. split; [|split].
  - replace (Z.to_nat n) with (Z.to_nat n `min` Z.to_nat m)%nat by lia.
    rewrite <- take_take. apply prefix_take.
  - apply prefix_take.
  - rewrite Hib. f_equal. lia.
Qed.

Lemma visible_messages_prefix_witness :
  exists a b : string * Canvas.V2.RenderState,
    Canvas.frames
      (Canvas.V2.written (Canvas.V2.generateFrames three_messages "temp/job").1)
      !! 70%nat = Some a /\
    Canvas.frames
      (Canvas.V2.written (Canvas.V2.generateFrames three_messages "temp/job").1)
      !! 130%nat = Some b /\
    length (Canvas.V2.visibleMessages a.2) = 1%nat /\
    length (Canvas.V2.visibleMessages b.2) = 2%nat /\
    map Canvas.V2.vm_dialogue (Canvas.V2.visibleMessages a.2)
      `prefix_of` map Canvas.V2.vm_dialogue (Canvas.V2.visibleMessages b.2).
Proof.
  destruct (Canvas.frames
              (Canvas.V2.written
                 (Canvas.V2.generateFrames three_messages "temp/job").1)
              !! 70%nat) as [a|] eqn:Ha; [|vm_compute in Ha; discriminate Ha].
  destruct (Canvas.frames
              (Canvas.V2.written
                 (Canvas.V2.generateFrames three_messages "temp/job").1)
              !! 130%nat) as [b|] eqn:Hb; [|vm_compute in Hb; discriminate Hb].
  exists a, b. split; [reflexivity|]. split; [reflexivity|].
  split; [vm_compute in Ha; injection Ha as <-; reflexivity|].
  split; [vm_compute in Hb; injection Hb as <-; reflexivity|].
  exact (proj1 (visible_messages_prefix three_messages "temp/job" 70 130 a b
                  ltac:(lia) Ha Hb)).
Defined.

(* ===================================================================== *)
(** * Part III: further properties of the same code                       *)
(* ===================================================================== *)

(** ** The background in the program logic *)

Section TraceLogicMore.
Import Server.

Context {Mon : Type}.
Variable delta : Mon -> Event -> Mon.
Variable ok : Mon -> Job -> Event -> Prop.

(** The video the frames are laid over: what [resolveBackground] returns. *)
Definition backgroundOf (v : Variant) (env : Env) (c : Config) : option string :=
  match v with
  | Plain => None
  | Decimated _ =>
      if String.eqb (backgroundUrl c) "" then None
      else if String.prefix "/backgrounds/" (backgroundUrl c)
      then Some ("." +:+ backgroundUrl c)
      else
        match ytdlp env, scale env with
        | Resolves, Resolves =>
            Some (JS.path_join "data/backgrounds" (bgId env +:+ "-scaled.mp4"))
        | _, _ => None
        end
  end.

(** The calls made on behalf of the background. *)
Definition background_call (e : Event) : Prop :=
  match e with EvYtdlp _ _ | EvScale _ _ => True | _ => False end.

Lemma spec_resolveBackground_result (v : Variant) (env : Env) (c : Config)
    (P : Mon -> Job -> Prop) E :
  (forall e mu j, background_call e -> P mu j ->
     ok mu j e /\ P (delta mu e) j) ->
  spec delta ok P (resolveBackground v env c)
       (fun bgVideo mu j => bgVideo = backgroundOf v env c /\ P mu j) E.
Proof.
  intros Hext mu j Hj.
  unfold resolveBackground, backgroundOf, ensureBackgroundVideo, catch.
  destruct v as [|d]; [simpl; auto|].
  destruct (String.eqb (backgroundUrl c) ""); [simpl; auto|].
  destruct (String.prefix "/backgrounds/" (backgroundUrl c)); [simpl; auto|].
  unfold mbind, M_bind, bind, await.
  set (e1 := EvYtdlp (backgroundUrl c)
               (JS.path_join "data/backgrounds" (bgId env +:+ ".mp4"))).
  set (e2 := EvScale (JS.path_join "data/backgrounds" (bgId env +:+ ".mp4"))
               (JS.path_join "data/backgrounds" (bgId env +:+ "-scaled.mp4"))).
  destruct (Hext e1 mu j I Hj) as [Hok1 H1].
  destruct (Hext e2 (delta mu e1) j I H1) as [Hok2 H2].
  destruct (ytdlp env); simpl; [|auto].
  destruct (scale env); simpl; auto 10.
Qed.

End TraceLogicMore.

(** ** The schedule covers the requested duration *)

Section CoverageFacts.
Import JS Server.
Local Open Scope Z_scope.

(** Two units of the last place of [y]: at most [y * 2^-51], or [2^-1073]
    among the subnormal numbers. *)
Lemma two_ulps (y : Q) :
  (0 < y)%Q ->
  (2 * 2 ^ ulp_exponent y <= y * 2 ^ (- 51))%Q \/
  (2 * 2 ^ ulp_exponent y == 2 ^ (- 1073))%Q.
Proof.
  intros Hy. destruct (binade_spec y Hy) as [Hbin _].
  unfold ulp_exponent. revert Hbin. generalize (binade y). intros e Hbin.
  destruct (Z.max_spec (-1074) (e - 52)) as [[_ ->]|[_ ->]].
  - left. replace (e - 52) with (e + - 52) by lia. rewrite pow2_add.
    assert (Hscaled : (2 ^ e * 2 ^ (- 52) <= y * 2 ^ (- 52))%Q).
    { apply Qmult_le_compat_r; [exact Hbin | apply Qlt_le_weak, pow2_pos]. }
    assert (E : (y * 2 ^ (- 51) == 2 * (y * 2 ^ (- 52)))%Q)
      by (change (2 ^ (- 52))%Q with (1 # 4503599627370496)%Q;
          change (2 ^ (- 51))%Q with (1 # 2251799813685248)%Q; ring).
    rewrite E. lra.
  - right. reflexivity.
Qed.

(** A frame is captured only when its instant lies at least half a step
    of the product before the end. *)
Lemma captured_half_before (v : Variant) (c : Config) (i : Z) :
  (0 <= durationSec c)%Q -> (0 <= fps c)%Q ->
  1 <= frameStep_of v <= 2 ^ 50 ->
  (number (durationSec c) * number (fps c) <= 2 ^ 50)%Q ->
  0 <= i < totalFrames v c ->
  (inject_Z (i * frameStep_of v) + (1 # 2)
   <= number (durationSec c) * number (fps c))%Q.
Proof.
  intros Hdur Hfps Hd Hprod Hi.
  set (p := (number (durationSec c) * number (fps c))%Q) in *.
  set (d := frameStep_of v) in *.
  pose proof (inject_Z_positive d ltac:(lia)) as HdQ.
  assert (Hdnz : ~ (inject_Z d == 0)%Q)
    by (intros E; rewrite E in HdQ; discriminate).
  assert (Hp0 : (0 <= p)%Q)
    by (apply Qmult_le_0_compat; now apply number_nonneg).
  assert (H50 : (2 ^ 50 == inject_Z (2 ^ 50))%Q) by reflexivity.
  pose proof (totalFrames_bounds v c Hdur Hfps ltac:(lia)) as Hb.
  fold p d in Hb.
  assert (H5053 : (2 ^ 50 < 2 ^ 53)%Q) by reflexivity.
  specialize (Hb ltac:(lra)).
  pose proof (Qfloor_le (p / inject_Z d)) as Hfl.
  assert (Hid : i * d <= 2 ^ 50).
  { assert (Hkd : (inject_Z (Qfloor (p / inject_Z d) * d) <= p)%Q).
    { pose proof (Qmult_le_compat_r _ _ (inject_Z d) Hfl
                    (Qlt_le_weak _ _ HdQ)) as H.
      assert (E : (p / inject_Z d * inject_Z d == p)%Q) by (now field).
      rewrite E in H. now rewrite inject_Z_mult. }
    assert (Hkd50 : Qfloor (p / inject_Z d) * d <= 2 ^ 50)
      by (rewrite Zle_Qle; lra).
    nia. }
  assert (Hi50 : i + 1 <= 2 ^ 50 + 1) by nia.
  destruct (Qlt_le_dec p (inject_Z (i * d) + (1 # 2))) as [Hlt|Hge];
    [exfalso|exact Hge].
  assert (Hhalf : (number (inject_Z (i * d) + (1 # 2))
                   == inject_Z (i * d) + (1 # 2))%Q).
  { apply (number_fixed _ (2 * (i * d) + 1) (- 1)); [lia | lia |].
    rewrite inject_Z_plus, !inject_Z_mult.
    change (2 ^ (- 1))%Q with (1 # 2)%Q. change (inject_Z 2) with 2%Q.
    change (inject_Z 1) with 1%Q. ring. }
  assert (H1 : (number p <= inject_Z (i * d) + (1 # 2))%Q).
  { rewrite <- Hhalf. apply number_mono. now apply Qlt_le_weak. }
  assert (H2 : (number p / inject_Z d
                <= inject_Z i + (1 # 2) / inject_Z d)%Q).
  { apply Qle_shift_div_r; [exact HdQ|].
    assert (E : ((inject_Z i + (1 # 2) / inject_Z d) * inject_Z d
                 == inject_Z (i * d) + (1 # 2))%Q)
      by (rewrite inject_Z_mult; now field).
    now rewrite E. }
  assert (Hhalfd : ((1 # 2) / inject_Z d <= 1 # 2)%Q).
  { apply Qle_shift_div_r; [exact HdQ|].
    rewrite <- (Qmult_1_r (1 # 2)) at 1.
    apply Qmult_le_l; [reflexivity|].
    change 1%Q with (inject_Z 1). rewrite <- Zle_Qle. lia. }
  assert (Hhalfd0 : (0 <= (1 # 2) / inject_Z d)%Q).
  { apply Qle_shift_div_l; [exact HdQ|]. now rewrite Qmult_0_l. }
  assert (H3 : (number (number p / inject_Z d) < inject_Z (i + 1))%Q).
  { rewrite <- (number_Z (i + 1)) by lia.
    apply Qle_lt_trans
      with (number (inject_Z i + (1 # 2) / inject_Z d));
      [now apply number_mono|].
    assert (Hi0 : (0 <= inject_Z i)%Q)
      by (change 0%Q with (inject_Z 0); rewrite <- Zle_Qle; lia).
    apply number_strict; [lra|].
    assert (Hy : (0 < inject_Z (i + 1))%Q) by (apply inject_Z_positive; lia).
    assert (Hs : ulp_exponent (inject_Z (i + 1)) <= - 2).
    { destruct (binade_spec _ Hy) as [Hbin _].
      assert (binade (inject_Z (i + 1)) < 51); [|unfold ulp_exponent; lia].
      apply pow2_lt_inv. eapply Qle_lt_trans; [exact Hbin|].
      change (2 ^ 51)%Q with (inject_Z (2 ^ 51)). rewrite <- Zlt_Qlt. lia. }
    pose proof (pow2_le _ _ Hs) as Hu.
    change (2 ^ (- 2))%Q with (1 # 4)%Q in Hu.
    revert Hu. generalize (ulp_exponent (inject_Z (i + 1))). intros s Hu.
    rewrite inject_Z_plus. change (inject_Z 1) with 1%Q. lra. }
  assert (H4 : totalFrames v c < i + 1).
  { rewrite totalFrames_rounded. fold p d. rewrite Zlt_Qlt.
    eapply Qle_lt_trans; [apply Qfloor_le | exact H3]. }
  lia.
Qed.

(** For positive finite doubles [D] and [F] whose product is at most
    [2^50], every time set on the page lies in [[0, D)], every captured
    frame's instant [(i * d) / F] lies before [D], and the [N] samples stop
    less than one step before the end: [D * F < (N + 1) * d]. *)
Theorem sample_times_cover (v : Variant) (c : Config) :
  (0 < durationSec c)%Q -> (durationSec c <= MAX_VALUE)%Q ->
  (0 < fps c)%Q -> (fps c <= MAX_VALUE)%Q ->
  1 <= frameStep_of v <= 2 ^ 50 ->
  (number (durationSec c) * number (fps c) <= 2 ^ 50)%Q ->
  Forall (fun t => (0 <= t)%Q /\ (t < number (durationSec c))%Q)
         (sampleTimes v c) /\
  (forall i : Z, 0 <= i < totalFrames v c ->
     (inject_Z (i * frameStep_of v) / number (fps c)
      < number (durationSec c))%Q) /\
  (number (durationSec c) * number (fps c)
   < inject_Z ((totalFrames v c + 1) * frameStep_of v))%Q.
Proof.
  intros Hdur HdurMax Hfps HfpsMax Hd Hprod.
  pose proof (number_nonneg _ (Qlt_le_weak _ _ Hdur)) as HD.
  pose proof (number_nonneg _ (Qlt_le_weak _ _ Hfps)) as HF.
  pose proof (inject_Z_positive (frameStep_of v) ltac:(lia)) as HdQ.
  assert (H5053 : (2 ^ 50 < 2 ^ 53)%Q) by reflexivity.
  assert (HFmax : (number (fps c) <= MAX_VALUE)%Q).
  { rewrite <- number_MAX_VALUE. now apply number_mono. }
  assert (Hbefore : forall i : Z, 0 <= i < totalFrames v c ->
            (0 < number (fps c))%Q /\
            (inject_Z (i * frameStep_of v) / number (fps c)
             + (1 # 2) / number (fps c) <= number (durationSec c))%Q).
  { intros i Hi.
    pose proof (captured_half_before v c i (Qlt_le_weak _ _ Hdur)
                  (Qlt_le_weak _ _ Hfps) Hd Hprod Hi) as Hhalf.
    assert (HFpos : (0 < number (fps c))%Q).
    { destruct (Qlt_le_dec 0 (number (fps c))) as [H|H]; [exact H|exfalso].
      assert (E : (number (fps c) == 0)%Q) by lra.
      rewrite E, Qmult_0_r in Hhalf.
      assert (0 <= inject_Z (i * frameStep_of v))%Q
        by (change 0%Q with (inject_Z 0); rewrite <- Zle_Qle; nia).
      lra. }
    split; [exact HFpos|].
    assert (E : (inject_Z (i * frameStep_of v) / number (fps c)
                 + (1 # 2) / number (fps c)
                 == (inject_Z (i * frameStep_of v) + (1 # 2))
                    / number (fps c))%Q)
      by (field; intros E; rewrite E in HFpos; discriminate).
    rewrite E. apply Qle_shift_div_r; [exact HFpos | exact Hhalf]. }
  split; [|split].
  - rewrite sampleTimes_schedule. unfold schedule.
    apply Forall_fmap, Forall_seqZ. intros i Hi. simpl.
    destruct (Hbefore i ltac:(lia)) as [HFpos Hgap].
    assert (Hid : Z.abs (i * frameStep_of v) <= 2 ^ 53).
    { pose proof (captured_half_before v c i (Qlt_le_weak _ _ Hdur)
                    (Qlt_le_weak _ _ Hfps) Hd Hprod ltac:(lia)) as Hhalf.
      assert (inject_Z (i * frameStep_of v) <= inject_Z (2 ^ 50))%Q
        by (change (inject_Z (2 ^ 50)) with (2 ^ 50)%Q; lra).
      rewrite <- Zle_Qle in *. nia. }
    rewrite (timeSec_nearest v c i Hid).
    assert (Hx0 : (0 <= inject_Z (i * frameStep_of v) / number (fps c))%Q).
    { apply Qle_shift_div_l; [exact HFpos|]. rewrite Qmult_0_l.
      change 0%Q with (inject_Z 0). rewrite <- Zle_Qle. nia. }
    split; [now apply number_nonneg|].
    rewrite <- (number_idem (durationSec c)).
    apply number_strict; [exact Hx0|].
    assert (HDpos : (0 < number (durationSec c))%Q).
    { assert (0 < (1 # 2) / number (fps c))%Q; [|lra].
      apply Qlt_shift_div_l; [exact HFpos|]. now rewrite Qmult_0_l. }
    assert (Hstep : (2 * 2 ^ ulp_exponent (number (durationSec c))
                     <= (1 # 2) / number (fps c))%Q).
    { apply Qle_shift_div_l; [exact HFpos|].
      destruct (two_ulps _ HDpos) as [Hu|Hu].
      - apply Qle_trans
          with (number (durationSec c) * 2 ^ (- 51) * number (fps c))%Q.
        + apply Qmult_le_compat_r; [exact Hu | exact HF].
        + assert (E : (number (durationSec c) * 2 ^ (- 51) * number (fps c)
                       == number (durationSec c) * number (fps c)
                          * 2 ^ (- 51))%Q) by ring.
          rewrite E.
          apply Qle_trans with (2 ^ 50 * 2 ^ (- 51))%Q;
            [|apply Qle_bool_imp_le; reflexivity].
          apply Qmult_le_compat_r; [exact Hprod|].
          apply Qlt_le_weak, pow2_pos.
      - rewrite Hu.
        apply Qle_trans with (2 ^ (- 1073) * MAX_VALUE)%Q.
        + apply Qmult_le_l; [apply pow2_pos | exact HFmax].
        + apply Qle_bool_imp_le. reflexivity. }
    lra.
  - intros i Hi. destruct (Hbefore i Hi) as [HFpos Hgap].
    assert (0 < (1 # 2) / number (fps c))%Q; [|lra].
    apply Qlt_shift_div_l; [exact HFpos|]. now rewrite Qmult_0_l.
  - pose proof (totalFrames_bounds v c (Qlt_le_weak _ _ Hdur)
                  (Qlt_le_weak _ _ Hfps) ltac:(lia) ltac:(lra)) as Hb.
    pose proof (Qlt_floor (number (durationSec c) * number (fps c)
                           / inject_Z (frameStep_of v))) as Hceil.
    revert Hb Hceil.
    generalize (Qfloor (number (durationSec c) * number (fps c)
                        / inject_Z (frameStep_of v))).
    intros k Hb Hceil.
    pose proof (Qmult_lt_compat_r _ _ (inject_Z (frameStep_of v)) HdQ Hceil)
      as H.
    assert (E : (number (durationSec c) * number (fps c)
                 / inject_Z (frameStep_of v) * inject_Z (frameStep_of v)
                 == number (durationSec c) * number (fps c))%Q)
      by (field; intros E; rewrite E in HdQ; discriminate).
    rewrite E in H. eapply Qlt_le_trans; [exact H|].
    rewrite <- inject_Z_mult, <- Zle_Qle. nia.
Qed.

Lemma sample_times_cover_witness :
  Forall (fun t => (0 <= t)%Q
                   /\ (t < number (durationSec four_point_three_five))%Q)
         (sampleTimes Plain four_point_three_five) /\
  (number (durationSec four_point_three_five)
   * number (fps four_point_three_five) < inject_Z ((434 + 1) * 1))%Q.
Proof.
  pose proof (sample_times_cover Plain four_point_three_five
                eq_refl ltac:(apply Qle_bool_imp_le; reflexivity)
                eq_refl ltac:(apply Qle_bool_imp_le; reflexivity)
                ltac:(simpl; lia)
                ltac:(apply Qle_bool_imp_le; vm_compute; reflexivity))
    as (Hin & _ & Hend).
  split; [exact Hin | exact Hend].
Defined.

End CoverageFacts.

(** ** How a job ends *)

Section OutcomeFacts.
Import JS Server.
Local Open Scope Z_scope.

Variables (v : Variant) (env : Env) (c : Config) (jobId : string).

Definition quiet_delta (mu : unit) (_ : Event) : unit := mu.
Definition quiet_ok (_ : unit) (_ : Job) (_ : Event) : Prop := True.

(** The job still carries its id, and [fact] is known of the outside. *)
Definition holding (fact : Prop) : unit -> Job -> Prop :=
  fun _ j => id j = jobId /\ fact.

Definition captured_up_to (i : Z) : Prop :=
  launch env = Resolves /\ newPage env = Resolves /\ goto env = Resolves /\
  pageData env = Resolves /\ startRender env = Resolves /\
  forall k, 0 <= k < i ->
    setTimelineTime env k = Resolves /\ screenshot env k = Resolves.

Definition doneJob : Job :=
  mkJob jobId "done" 100 "Completed" (Some (outFile c)).

Definition broken : unit -> Job -> Prop :=
  fun _ j => id j = jobId /\ ~ others_resolve v env c.

Local Abbreviation qspec := (spec quiet_delta quiet_ok).

Local Ltac quiet_await P' :=
  eapply spec_bind;
  [ apply (spec_await_knowing quiet_delta quiet_ok P'); [exact I|];
    let mu := fresh "mu" in
    let j := fresh "j" in
    let Hid := fresh "Hid" in
    let Hf := fresh "Hf" in
    intros mu j [Hid Hf]; split; [exact I|]; split;
    [ let Hr := fresh "Hr" in
      intros Hr; split; [exact Hid|]; unfold captured_up_to in *; tauto
    | let err := fresh "err" in
      let Hr := fresh "Hr" in
      intros err Hr; split; [exact Hid|];
      intros ((? & ? & ? & ? & ? & ?) & ? & ?); congruence ]
  | intros [] ].

Lemma outcome_assign (fact : Prop) (f : Job -> Job) E :
  (forall j, id (f j) = id j) ->
  qspec (holding fact) (assign f) (fun _ => holding fact) E.
Proof.
  intros Hf. apply spec_assign_to. intros mu j [Hid Hfact].
  split; [exact I|]. split; [now rewrite Hf | exact Hfact].
Qed.

Local Ltac quiet_assign :=
  eapply spec_bind;
  [ apply outcome_assign; reflexivity | intros [] ].

Lemma outcome_progressEvents (fact : Prop) (ps : list (option Q)) E :
  qspec (holding fact) (progressEvents ps) (fun _ => holding fact) E.
Proof.
  induction ps as [|p ps IH]; cbn [progressEvents].
  - apply spec_ret. auto.
  - eapply spec_bind;
      [apply (spec_emit_to quiet_delta quiet_ok (holding fact)); [exact I|];
       intros mu j Hj; split; [exact I | exact Hj]|].
    intros [].
    eapply spec_bind with (Q1 := fun _ => holding fact);
      [|intros []; exact IH].
    unfold onProgress. destruct p as [q|]; [|apply spec_ret; auto].
    destruct (Qeq_bool q 0); [apply spec_ret; auto|].
    apply (spec_assign_to quiet_delta quiet_ok (holding fact)).
    intros mu j Hj; split; [exact I | exact Hj].
Qed.

Lemma outcome_captureFrame (i : Z) :
  0 <= i < totalFrames v c ->
  qspec (holding (captured_up_to i))
        (captureFrame v env c (totalFrames v c) i)
        (fun _ => holding (captured_up_to (i + 1))) broken.
Proof.
  intros Hi. unfold captureFrame.
  eapply spec_bind with
    (Q1 := fun _ => holding (captured_up_to i /\ setTimelineTime env i = Resolves)).
  { apply spec_await_knowing; [exact I|].
    intros mu j [Hid Hf]. split; [exact I|]. split.
    - intros Hr. split; [exact Hid | tauto].
    - intros err Hr. split; [exact Hid|].
      intros ((_ & _ & _ & _ & _ & Hloop) & _).
      destruct (Hloop i Hi). congruence. }
  intros [].
  eapply spec_bind with (Q1 := fun _ => holding (captured_up_to (i + 1))).
  { apply spec_await_knowing; [exact I|].
    intros mu j [Hid [Hf Hset]]. split; [exact I|]. split.
    - intros Hr. split; [exact Hid|].
      destruct Hf as (H1 & H2 & H3 & H4 & H5 & Hloop).
      repeat (split; [assumption|]).
      intros k Hk. destruct (Z.eq_dec k i) as [->|Hne]; [tauto|].
      apply Hloop. lia.
    - intros err Hr. split; [exact Hid|].
      intros ((_ & _ & _ & _ & _ & Hloop) & _).
      destruct (Hloop i Hi). congruence. }
  intros []. quiet_assign.
  apply outcome_assign. reflexivity.
Qed.

Lemma outcome_generateVideo :
  qspec (holding True) (generateVideo v env c)
        (fun _ _ j => others_resolve v env c /\ j = doneJob) broken.
Proof.
  unfold generateVideo.
  quiet_assign. quiet_assign.
  quiet_await (holding (launch env = Resolves)).
  eapply spec_try_finally
    with (Q1 := fun _ _ j =>
                  (captures_resolve v env c /\ encoderEnd env = Resolves)
                  /\ j = doneJob)
         (E1 := broken).
  - quiet_await (holding (launch env = Resolves /\ newPage env = Resolves)).
    quiet_await (holding (launch env = Resolves /\ newPage env = Resolves /\
                          goto env = Resolves)).
    eapply spec_bind;
      [apply spec_resolveBackground; intros e mu j _ Hj; split; [exact I|exact Hj]
      |intros bgVideo].
    quiet_await (holding (launch env = Resolves /\ newPage env = Resolves /\
                          goto env = Resolves /\ pageData env = Resolves)).
    eapply spec_bind with (Q1 := fun _ => holding (captured_up_to 0)).
    { apply spec_await_knowing; [exact I|].
      intros mu j [Hid (H1 & H2 & H3 & H4)]. split; [exact I|]. split.
      - intros Hr. split; [exact Hid|].
        repeat (split; [assumption|]). intros k Hk. lia.
      - intros err Hr. split; [exact Hid|].
        intros ((_ & _ & _ & _ & Hc & _) & _). congruence. }
    intros [].
    eapply spec_bind with (Q1 := fun _ => holding (captures_resolve v env c)).
    { eapply spec_weaken;
        [apply (spec_for_loop quiet_delta quiet_ok _ 0 (totalFrames v c)
                  (fun i => holding (captured_up_to i)) broken);
         [intros i Hi; now apply outcome_captureFrame | lia | lia]
        | auto | | auto].
      intros a mu j [Hid Hf]. split; [exact Hid|].
      destruct Hf as (H1 & H2 & H3 & H4 & H5 & Hloop).
      repeat (split; [assumption|]). intros k Hk. apply Hloop. lia. }
    intros []. quiet_assign. quiet_assign.
    eapply spec_bind with
      (Q1 := fun _ => holding (captures_resolve v env c /\
                               encoderEnd env = Resolves)).
    { unfold encode.
      eapply spec_bind;
        [apply (spec_emit_to quiet_delta quiet_ok
                  (holding (captures_resolve v env c))); [exact I|];
         intros mu j Hj; split; [exact I | exact Hj]|].
      intros []. eapply spec_bind; [apply outcome_progressEvents|].
      intros []. destruct (encoderEnd env) as [|err] eqn:Hend.
      - apply spec_emit_to; [exact I|].
        intros mu j [Hid Hf]. split; [exact I|]. split; [exact Hid | tauto].
      - eapply spec_bind;
          [apply (spec_emit_to quiet_delta quiet_ok
                    (holding (captures_resolve v env c))); [exact I|];
           intros mu j Hj; split; [exact I | exact Hj]|].
        intros []. apply spec_throw. intros mu j [Hid _]. split; [exact Hid|].
        intros (_ & Hc & _). congruence. }
    intros []. 
    eapply spec_bind with
      (Q1 := fun _ _ j => (captures_resolve v env c /\ encoderEnd env = Resolves)
                          /\ id j = jobId /\ progress j = 100).
    { apply spec_assign. intros mu j [Hid Hf]. split; [exact I|]. simpl. auto. }
    intros [].
    eapply spec_bind with
      (Q1 := fun _ _ j => (captures_resolve v env c /\ encoderEnd env = Resolves)
                          /\ id j = jobId /\ progress j = 100 /\
                          status j = "done"%string).
    { apply spec_assign. intros mu j (Hf & Hid & Hp). split; [exact I|].
      simpl. auto. }
    intros [].
    eapply spec_bind with
      (Q1 := fun _ _ j => (captures_resolve v env c /\ encoderEnd env = Resolves)
                          /\ id j = jobId /\ progress j = 100 /\
                          status j = "done"%string /\
                          message j = "Completed"%string).
    { apply spec_assign. intros mu j (Hf & Hid & Hp & Hs). split; [exact I|].
      simpl. auto. }
    intros [].
    apply spec_assign. intros mu j (Hf & Hid & Hp & Hs & Hm). split; [exact I|].
    split; [exact Hf|].
    destruct j as [i s p m o]. simpl in *. subst. reflexivity.
  - intros [].
    eapply spec_bind with
      (Q1 := fun _ _ j => others_resolve v env c /\ j = doneJob).
    { apply spec_await_knowing; [exact I|].
      intros mu j [[Hcap Hend] Hj]. split; [exact I|]. split.
      - intros Hr. split; [|exact Hj]. split; [exact Hcap|]. auto.
      - intros err Hr. split; [now rewrite Hj|].
        intros (_ & _ & Hc). congruence. }
    intros [].
    apply spec_emit_to; [exact I|]. intros mu j Hj. split; [exact I | exact Hj].
  - eapply spec_bind;
      [apply (spec_await_to quiet_delta quiet_ok broken); [exact I|];
       intros mu j Hj; split; [exact I|]; split; exact Hj|].
    intros [].
    apply spec_emit_to; [exact I|]. intros mu j Hj. split; [exact I | exact Hj].
Qed.

End OutcomeFacts.

Lemma outcome_jobTask (v : Server.Variant) (env : Server.Env)
    (c : Server.Config) (jobId : string) :
  spec quiet_delta quiet_ok (holding jobId True) (Server.jobTask v env c)
       (fun _ _ j => (others_resolve v env c /\ j = doneJob c jobId) \/
                     (~ others_resolve v env c /\
                      Server.status j = "error"%string))
       (fun _ _ => False).
Proof.
  unfold Server.jobTask. eapply spec_catch with (E1 := broken v env c jobId).
  - eapply spec_weaken;
      [apply (outcome_generateVideo v env c jobId) | auto | | auto].
    intros a mu j Hj. now left.
  - intros err.
    eapply spec_bind with
      (Q1 := fun _ _ j => ~ others_resolve v env c /\
                          Server.status j = "error"%string).
    { apply spec_assign. intros mu j [_ Hn]. split; [exact I|]. simpl. auto. }
    intros []. apply spec_assign. intros mu j [Hn Hs]. split; [exact I|].
    right. simpl. auto.
Qed.

Lemma finalJob_cases (v : Server.Variant) (env : Server.Env)
    (c : Server.Config) (jobId : string) :
  (others_resolve v env c /\
   Server.finalJob v env c jobId = doneJob c jobId) \/
  (~ others_resolve v env c /\
   Server.status (Server.finalJob v env c jobId) = "error"%string).
Proof.
  destruct (outcome_jobTask v env c jobId tt (Server.newJob jobId))
    as (_ & _ & Hres); [split; [reflexivity | exact I]|].
  unfold Server.finalJob.
  change (snd (fst (Server.jobTask v env c (Server.newJob jobId))))
    with ((Server.jobTask v env c (Server.newJob jobId)).1.2).
  destruct ((Server.jobTask v env c (Server.newJob jobId)).2);
    [destruct Hres | exact Hres].
Qed.

(** A job ends [done] exactly when every awaited call other than the
    background resolves; it then is [{ status: 'done', progress: 100,
    message: 'Completed', outputFile: outFile }], whatever the encoder
    reported on the way.  In every other run it ends [error]. *)
Theorem job_outcome (v : Server.Variant) (env : Server.Env) (c : Server.Config)
    (jobId : string) :
  (others_resolve v env c <->
   Server.finalJob v env c jobId = doneJob c jobId) /\
  (~ others_resolve v env c <->
   Server.status (Server.finalJob v env c jobId) = "error"%string).
Proof.
  destruct (finalJob_cases v env c jobId) as [[Hyes Hdone]|[Hno Herr]].
  - split; split; try tauto.
    intros Hs. rewrite Hdone in Hs. discriminate Hs.
  - split; split; try tauto.
    intros Hd. rewrite Hd in Herr. discriminate Herr.
Qed.

(** ** The order of the calls of a job *)

Section OrderFacts.
Import JS Server.
Local Open Scope Z_scope.

(** Further projections of a log. *)
Definition screenshots (l : list Event) : list string :=
  omap (fun e => match e with EvScreenshot f => Some f | _ => None end) l.

Definition cleanups (l : list Event) : list string :=
  omap (fun e => match e with EvCleanupScheduled d => Some d | _ => None end) l.

Definition closes (l : list Event) : nat :=
  length (omap (fun e => match e with EvBrowserClose => Some tt | _ => None end) l).

(** What the order of the calls depends on: how often the browser was
    closed, the screenshots taken, the encoder runs started and the
    directories whose removal is scheduled. *)
Definition Summary : Type := nat * list string * list EncodeCmd * list string.

Definition summary (l : list Event) : Summary :=
  (closes l, screenshots l, encodeCmds l, cleanups l).

Definition record (s : Summary) (e : Event) : Summary :=
  match e with
  | EvScreenshot f => (s.1.1.1, s.1.1.2 ++ [f], s.1.2, s.2)
  | EvEncodeStart k => (s.1.1.1, s.1.1.2, s.1.2 ++ [k], s.2)
  | EvBrowserClose => (S s.1.1.1, s.1.1.2, s.1.2, s.2)
  | EvCleanupScheduled d => (s.1.1.1, s.1.1.2, s.1.2, s.2 ++ [d])
  | _ => s
  end.

Lemma summary_snoc (l : list Event) (e : Event) :
  summary (l ++ [e]) = record (summary l) e.
Proof.
  unfold summary, closes, screenshots, encodeCmds, cleanups.
  rewrite !omap_app, length_app.
  destruct e; simpl; rewrite ?app_nil_r, ?Nat.add_0_r, ?Nat.add_1_r;
    reflexivity.
Qed.

(** Calls on the browser or on its page. *)
Definition uses_browser (e : Event) : Prop :=
  match e with
  | EvNewPage | EvGoto | EvPageData | EvStartRender
  | EvSetTimelineTime _ | EvScreenshot _ | EvBrowserClose => True
  | _ => False
  end.

Definition resolved (o : Outcome) : bool :=
  match o with Resolves => true | Rejects _ => false end.

Variables (v : Variant) (env : Env) (c : Config).

Definition frameFile (i : Z) : string :=
  path_join (framesPath c) (FrameName.server_frame_file i).

Definition frameFiles (n : Z) : list string := fmap frameFile (seqZ 0 n).

(** The encoder run the code asks for. *)
Definition encodeCmd : EncodeCmd :=
  mkEncodeCmd (path_join (framesPath c) "frame_%05d.jpg")
              (inputRate v c) (fps c) (backgroundOf v env c).

(** The discipline every call is checked against. *)
Definition order_ok (s : Summary) (e : Event) : Prop :=
  match e with
  | EvNewPage | EvGoto | EvPageData | EvStartRender
  | EvSetTimelineTime _ | EvBrowserClose => s.1.1.1 = 0%nat
  | EvScreenshot _ => s.1.1.1 = 0%nat /\ s.1.2 = []
  | EvEncodeStart k =>
      s.1.1.2 = frameFiles (totalFrames v c) /\ s.1.2 = [] /\ k = encodeCmd
  | EvCleanupScheduled d => s.1.1.1 = 1%nat /\ d = framesPath c
  | _ => True
  end.

Definition ordered (s : Summary) (_ : Job) (e : Event) : Prop := order_ok s e.

Local Abbreviation ospec := (spec record ordered).

(** Before capture [i]: the browser is open, frames [0..i) are taken, the
    encoder has not run. *)
Definition capturing (i : Z) (fact : Prop) : Summary -> Job -> Prop :=
  fun s _ => s = (0%nat, frameFiles i, [], []) /\ fact.

(** What the capture loop and the encoder did, when the body is over. *)
Definition captured_as (shots : list string) (cmds : list EncodeCmd) : Prop :=
  shots `prefix_of` frameFiles (totalFrames v c) /\
  ((captures_resolve v env c /\ shots = frameFiles (totalFrames v c) /\
    cmds = [encodeCmd]) \/
   (~ captures_resolve v env c /\ cmds = [])).

Definition body_over : Summary -> Job -> Prop :=
  fun s _ => launch env = Resolves /\
    exists shots cmds, s = (0%nat, shots, cmds, []) /\ captured_as shots cmds.

Definition task_over : Summary -> Job -> Prop :=
  fun s _ => exists shots cmds,
    s = (if resolved (launch env) then 1%nat else 0%nat, shots, cmds,
         if resolved (launch env) && resolved (browserClose env)
         then [framesPath c] else []) /\
    captured_as shots cmds.

Lemma frameFiles_prefix (i : Z) :
  0 <= i <= Z.max 0 (totalFrames v c) ->
  frameFiles i `prefix_of` frameFiles (totalFrames v c).
Proof.
  intros Hi. unfold frameFiles.
  destruct (Z.le_gt_cases (totalFrames v c) 0) as [Hneg|Hpos].
  - replace i with 0 by lia. rewrite (seqZ_nil 0 0) by lia.
    apply prefix_nil.
  - replace (totalFrames v c) with (i + (totalFrames v c - i)) at 1 by lia.
    rewrite seqZ_app by lia. rewrite fmap_app. now apply prefix_app_r.
Qed.

Lemma frameFiles_snoc (i : Z) :
  0 <= i -> frameFiles i ++ [frameFile i] = frameFiles (i + 1).
Proof.
  intros Hi. unfold frameFiles. rewrite seqZ_snoc by lia.
  now rewrite fmap_app.
Qed.

Lemma order_assign (P : Summary -> Job -> Prop) (f : Job -> Job) E :
  (forall s j j', P s j -> P s j') ->
  ospec P (assign f) (fun _ => P) E.
Proof.
  intros HP. apply spec_assign. intros s j Hs.
  split; [exact I | now apply (HP s j)].
Qed.

Lemma order_progressEvents (P : Summary -> Job -> Prop)
    (ps : list (option Q)) E :
  (forall s j j', P s j -> P s j') ->
  ospec P (progressEvents ps) (fun _ => P) E.
Proof.
  intros HP. induction ps as [|p ps IH]; cbn [progressEvents].
  - apply spec_ret. auto.
  - eapply spec_bind with (Q1 := fun _ => P).
    { apply spec_emit. intros s j Hs. split; [exact I|]. split; [exact Hs|].
      reflexivity. }
    intros [].
    eapply spec_bind with (Q1 := fun _ => P); [|intros []; exact IH].
    unfold onProgress. destruct p as [q|]; [|apply spec_ret; auto].
    destruct (Qeq_bool q 0); [apply spec_ret; auto|].
    now apply order_assign.
Qed.

Local Ltac order_assign_step :=
  eapply spec_bind;
  [ apply order_assign; intros ? ? ? H; exact H | intros [] ].

(** A call on the page before the loop: nothing is captured yet. *)
Lemma order_page_call (call : Event) (o : Outcome) (fact : Prop) :
  uses_browser call ->
  (forall s, record s call = s) ->
  (o <> Resolves -> ~ captures_resolve v env c) ->
  ospec (capturing 0 (launch env = Resolves /\ fact)) (await call o)
        (fun _ => capturing 0 (launch env = Resolves /\ fact /\ o = Resolves))
        body_over.
Proof.
  intros Huse Hrec Hrej.
  apply spec_await_knowing; [destruct call; simpl in *; tauto|].
  intros s j [-> [Hl Hf]]. split.
  { unfold ordered. destruct call; simpl in *; tauto. }
  rewrite Hrec. split.
  - intros Hr. split; [reflexivity | tauto].
  - intros err Hr. split; [exact Hl|].
    exists [], []. split; [reflexivity|]. split; [apply prefix_nil|].
    right. split; [|reflexivity]. apply Hrej. congruence.
Qed.

Lemma order_captureFrame (i : Z) (fact : Prop) :
  0 <= i < totalFrames v c ->
  ospec (capturing i (launch env = Resolves /\ fact /\ captured_up_to env i))
        (captureFrame v env c (totalFrames v c) i)
        (fun _ => capturing (i + 1)
                    (launch env = Resolves /\ fact /\
                     captured_up_to env (i + 1)))
        body_over.
Proof.
  intros Hi. unfold captureFrame.
  eapply spec_bind with
    (Q1 := fun _ => capturing i
             (launch env = Resolves /\ fact /\ captured_up_to env i /\
              setTimelineTime env i = Resolves)).
  { apply spec_await_knowing; [exact I|].
    intros s j [-> (Hl & Hf & Hc)]. split; [reflexivity|]. split.
    - intros Hr. split; [reflexivity | tauto].
    - intros err Hr. split; [exact Hl|].
      exists (frameFiles i), []. split; [reflexivity|].
      split; [apply frameFiles_prefix; lia|].
      right. split; [|reflexivity].
      intros (_ & _ & _ & _ & _ & Hloop). destruct (Hloop i Hi). congruence. }
  intros [].
  eapply spec_bind with
    (Q1 := fun _ => capturing (i + 1)
             (launch env = Resolves /\ fact /\ captured_up_to env (i + 1))).
  { apply spec_await_knowing; [exact I|].
    intros s j [-> (Hl & Hf & Hc & Hset)]. split; [split; reflexivity|].
    cbn [record fst snd]. fold (frameFile i).
    rewrite frameFiles_snoc by lia. split.
    - intros Hr. split; [reflexivity|]. split; [exact Hl|]. split; [exact Hf|].
      destruct Hc as (H1 & H2 & H3 & H4 & H5 & Hloop).
      repeat (split; [assumption|]).
      intros k Hk. destruct (Z.eq_dec k i) as [->|Hne]; [tauto|].
      apply Hloop. lia.
    - intros err Hr. split; [exact Hl|].
      exists (frameFiles (i + 1)), []. split; [reflexivity|].
      split; [apply frameFiles_prefix; lia|].
      right. split; [|reflexivity].
      intros (_ & _ & _ & _ & _ & Hloop). destruct (Hloop i Hi). congruence. }
  intros []. order_assign_step.
  apply order_assign. intros ? ? ? H. exact H.
Qed.

(** After the loop: every frame is taken, the encoder ran as [cmds]. *)
Definition all_captured (cmds : list EncodeCmd) : Summary -> Job -> Prop :=
  fun s _ => s = (0%nat, frameFiles (totalFrames v c), cmds, []) /\
             launch env = Resolves /\ captures_resolve v env c.

Lemma frameFiles_max (n : Z) : frameFiles (Z.max 0 n) = frameFiles n.
Proof.
  unfold frameFiles, seqZ. now replace (Z.to_nat (Z.max 0 n)) with (Z.to_nat n) by lia.
Qed.

Lemma all_captured_over (s : Summary) (j j' : Job) :
  all_captured [encodeCmd] s j -> body_over s j'.
Proof.
  intros (-> & Hl & Hc). split; [exact Hl|].
  exists (frameFiles (totalFrames v c)), [encodeCmd].
  split; [reflexivity|]. split; [reflexivity|]. left. auto.
Qed.

Lemma order_encode :
  ospec (all_captured []) (encode v env c (backgroundOf v env c))
        (fun _ => all_captured [encodeCmd]) body_over.
Proof.
  unfold encode.
  eapply spec_bind with (Q1 := fun _ => all_captured [encodeCmd]).
  { apply spec_emit. intros s j (-> & Hl & Hc).
    split; [repeat split|]. split; [|reflexivity]. split; [reflexivity|auto]. }
  intros [].
  eapply spec_bind;
    [apply order_progressEvents; intros ? ? ? H; exact H | intros []].
  destruct (encoderEnd env) as [|err].
  - apply spec_emit. intros s j H. split; [exact I|]. split; [exact H|].
    reflexivity.
  - eapply spec_bind with (Q1 := fun _ => all_captured [encodeCmd]).
    { apply spec_emit. intros s j H. split; [exact I|]. split; [exact H|].
      reflexivity. }
    intros []. apply spec_throw. intros s j H. now apply (all_captured_over s j).
Qed.

Lemma order_finally :
  ospec body_over
        (await EvBrowserClose (browserClose env) ;;
         emit (EvCleanupScheduled (framesPath c)))
        (fun _ => task_over) task_over.
Proof.
  eapply spec_bind with
    (Q1 := fun _ s _ =>
             launch env = Resolves /\ browserClose env = Resolves /\
             exists shots cmds,
               s = (1%nat, shots, cmds, []) /\ captured_as shots cmds).
  { apply spec_await_knowing; [exact I|].
    intros s j (Hl & shots & cmds & -> & Hc). split; [reflexivity|]. split.
    - intros Hr. split; [exact Hl|]. split; [exact Hr|].
      exists shots, cmds. split; [reflexivity | exact Hc].
    - intros err Hr. exists shots, cmds. rewrite Hl, Hr.
      split; [reflexivity | exact Hc]. }
  intros []. apply spec_emit.
  intros s j (Hl & Hc & shots & cmds & -> & Hcap).
  split; [split; reflexivity|]. split; [|reflexivity].
  exists shots, cmds. rewrite Hl, Hc. split; [reflexivity | exact Hcap].
Qed.

Local Ltac page_call call o :=
  eapply spec_bind;
  [ apply (order_page_call call o);
    [ exact I | reflexivity
    | let Hn := fresh "Hn" in
      intros Hn (? & ? & ? & ? & ? & ?); now apply Hn ]
  | intros [] ].

Lemma order_generateVideo :
  ospec (fun s _ => s = summary []) (generateVideo v env c)
        (fun _ => task_over) task_over.
Proof.
  unfold generateVideo.
  order_assign_step. order_assign_step.
  eapply spec_bind with
    (Q1 := fun _ => capturing 0 (launch env = Resolves /\ True)).
  { apply spec_await_knowing; [exact I|].
    intros s j ->. split; [exact I|]. split.
    - intros Hr. split; [reflexivity | auto].
    - intros err Hr. exists [], []. rewrite Hr.
      split; [reflexivity|]. split; [apply prefix_nil|].
      right. split; [|reflexivity]. intros (Hl & _). congruence. }
  intros [].
  eapply spec_try_finally with (Q1 := fun _ => body_over) (E1 := body_over);
    [| intros []; apply order_finally | apply order_finally].
  page_call EvNewPage (newPage env).
  page_call EvGoto (goto env).
  eapply spec_bind.
  { apply spec_resolveBackground_result.
    intros e s j He Hs. destruct e; simpl in He; try contradiction;
      (split; [exact I | exact Hs]). }
  intros bgVideo. apply spec_assume. intros ->.
  page_call EvPageData (pageData env).
  page_call EvStartRender (startRender env).
  eapply spec_bind with (Q1 := fun _ => all_captured []).
  { eapply spec_weaken;
      [apply (spec_for_loop record ordered _ 0 (totalFrames v c)
                (fun i => capturing i
                   (launch env = Resolves /\ True /\ captured_up_to env i))
                body_over);
       [intros i Hi; now apply order_captureFrame | lia | lia]
      | | | auto].
    - intros s j [-> Hf]. split; [reflexivity|].
      split; [tauto|]. split; [exact I|].
      unfold captured_up_to. repeat (split; [tauto|]). intros k Hk. lia.
    - intros a s j [-> (Hl & _ & Hc)]. rewrite frameFiles_max.
      split; [reflexivity|]. split; [exact Hl|].
      destruct Hc as (H1 & H2 & H3 & H4 & H5 & Hloop).
      repeat (split; [assumption|]). intros k Hk. apply Hloop. lia. }
  intros []. order_assign_step. order_assign_step.
  eapply spec_bind; [apply order_encode | intros []].
  order_assign_step. order_assign_step. order_assign_step.
  apply spec_assign. intros s j H. split; [exact I|].
  now apply (all_captured_over s j).
Qed.

Lemma order_jobTask :
  ospec (fun s _ => s = summary []) (jobTask v env c)
        (fun _ => task_over) (fun _ _ => False).
Proof.
  unfold jobTask. eapply spec_catch with (E1 := task_over);
    [apply order_generateVideo|].
  intros err. order_assign_step. apply order_assign. intros ? ? ? H. exact H.
Qed.

Lemma after_summary (l : list Event) :
  forall l0 j, (after record (summary l0, j) l).1 = summary (l0 ++ l).
Proof.
  induction l as [|e l IH]; intros l0 j.
  - now rewrite app_nil_r.
  - cbn [after fold_left]. unfold advance at 2. cbn [fst snd].
    rewrite <- summary_snoc. fold (after record).
    unfold after in IH. rewrite IH. now rewrite <- app_assoc.
Qed.

Lemma accepted_at (pre : list Event) (e : Event) (post : list Event) :
  forall l0 j,
    accepted record ordered (summary l0, j) (pre ++ e :: post) ->
    order_ok (summary (l0 ++ pre)) e.
Proof.
  induction pre as [|e0 pre IH]; intros l0 j Hacc.
  - rewrite app_nil_r. exact (proj1 Hacc).
  - destruct Hacc as [_ Hacc]. unfold advance in Hacc. cbn [fst snd] in Hacc.
    rewrite <- summary_snoc in Hacc. apply IH in Hacc.
    now rewrite <- app_assoc in Hacc.
Qed.

Lemma summary_lifetime (jobId : string) :
  summary (lifetime v env c jobId) =
  summary (jobTask v env c (newJob jobId)).1.1.
Proof. reflexivity. Qed.

Lemma lifetime_checked (jobId : string) :
  accepted record ordered (summary [], newJob jobId)
           (jobTask v env c (newJob jobId)).1.1 /\
  task_over (summary (lifetime v env c jobId)) (newJob jobId).
Proof.
  destruct (order_jobTask (summary []) (newJob jobId) eq_refl)
    as (Hacc & _ & Hres).
  split; [exact Hacc|].
  rewrite summary_lifetime.
  rewrite after_summary in Hres. rewrite app_nil_l in Hres.
  destruct ((jobTask v env c (newJob jobId)).2); [destruct Hres | exact Hres].
Qed.

(** Every call of a job obeys the discipline, given what came before it. *)
Lemma lifetime_at (jobId : string) (pre : list Event) (e : Event)
    (post : list Event) :
  lifetime v env c jobId = pre ++ e :: post ->
  external e ->
  order_ok (summary pre) e.
Proof.
  intros Hsplit Hext. unfold lifetime in Hsplit.
  destruct pre as [|e0 pre]; simpl in Hsplit.
  - injection Hsplit as <- _. destruct Hext.
  - injection Hsplit as <- Hlog.
    destruct (lifetime_checked jobId) as [Hacc _].
    change (fst (fst (jobTask v env c (newJob jobId))))
      with ((jobTask v env c (newJob jobId)).1.1) in Hlog.
    rewrite Hlog in Hacc. apply accepted_at in Hacc.
    exact Hacc.
Qed.

Lemma closes_app (l k : list Event) : closes (l ++ k) = (closes l + closes k)%nat.
Proof. unfold closes. now rewrite omap_app, length_app. Qed.

(** The browser is closed exactly once in every run in which it was
    launched, and in no other; the removal of the frames directory is
    scheduled exactly when the launch and the close both succeed, so a
    failed launch or a failed close leaves the directory behind. *)
Theorem browser_and_frames_released (jobId : string) :
  closes (lifetime v env c jobId) =
    (if resolved (launch env) then 1 else 0)%nat /\
  cleanups (lifetime v env c jobId) =
    (if resolved (launch env) && resolved (browserClose env)
     then [framesPath c] else []).
Proof.
  destruct (lifetime_checked jobId) as [_ (shots & cmds & Hs & _)].
  unfold summary in Hs. injection Hs as Hn _ _ Hd. auto.
Qed.

(** Nothing uses the browser or its page after [browser.close()]. *)
Theorem browser_closed_last (jobId : string) (pre post : list Event) :
  lifetime v env c jobId = pre ++ EvBrowserClose :: post ->
  Forall (fun e => ~ uses_browser e) post.
Proof.
  intros Hsplit. apply Forall_forall. intros e Hin Huse.
  apply list_elem_of_split in Hin.
  destruct Hin as (l1 & l2 & ->).
  assert (Hat : order_ok (summary (pre ++ EvBrowserClose :: l1)) e).
  { apply (lifetime_at jobId _ e l2).
    - rewrite Hsplit. now rewrite <- app_assoc.
    - destruct e; simpl in *; tauto. }
  assert (Hopen : closes (pre ++ EvBrowserClose :: l1) = 0%nat)
    by (destruct e; simpl in *; tauto).
  rewrite closes_app in Hopen. unfold closes at 2 in Hopen.
  simpl in Hopen. lia.
Qed.

(** The encoder is started exactly when every capture succeeded, and
    then once, with the command the code builds: the frame pattern, the
    input rate, the output rate and the background that was resolved.
    The screenshots taken always are the first frame files, in order. *)
Theorem encoder_runs_iff_captured (jobId : string) :
  screenshots (lifetime v env c jobId)
    `prefix_of` frameFiles (totalFrames v c) /\
  ((captures_resolve v env c /\
    screenshots (lifetime v env c jobId) = frameFiles (totalFrames v c) /\
    encodeCmds (lifetime v env c jobId) = [encodeCmd]) \/
   (~ captures_resolve v env c /\
    encodeCmds (lifetime v env c jobId) = [])).
Proof.
  destruct (lifetime_checked jobId) as [_ (shots & cmds & Hs & Hpre & Hc)].
  change (screenshots (lifetime v env c jobId))
    with (summary (lifetime v env c jobId)).1.1.2.
  change (encodeCmds (lifetime v env c jobId))
    with (summary (lifetime v env c jobId)).1.2.
  rewrite Hs. split; [exact Hpre | exact Hc].
Qed.

Lemma omap_none {A B} (f : A -> option B) (l : list A) :
  Forall (fun a => f a = None) l -> omap f l = [].
Proof.
  induction 1 as [|a l Ha _ IH]; [reflexivity|].
  change (omap f (a :: l))
    with (match f a with Some b => b :: omap f l | None => omap f l end).
  now rewrite Ha.
Qed.

(** When the encoder is started, every frame has been captured, and no
    screenshot is taken afterwards. *)
Theorem encoder_after_captures (jobId : string) (pre post : list Event)
    (k : EncodeCmd) :
  lifetime v env c jobId = pre ++ EvEncodeStart k :: post ->
  screenshots pre = frameFiles (totalFrames v c) /\
  screenshots post = [] /\
  k = encodeCmd.
Proof.
  intros Hsplit.
  destruct (lifetime_at jobId pre (EvEncodeStart k) post Hsplit I)
    as (Hshots & _ & Hk).
  split; [exact Hshots|]. split; [|exact Hk].
  apply omap_none, Forall_forall. intros e Hin.
  destruct e; try reflexivity. exfalso.
  apply list_elem_of_split in Hin.
  destruct Hin as (l1 & l2 & ->).
  assert (Hat : order_ok (summary (pre ++ EvEncodeStart k :: l1))
                         (EvScreenshot file)).
  { apply (lifetime_at jobId _ _ l2); [|exact I].
    rewrite Hsplit. now rewrite <- app_assoc. }
  destruct Hat as [_ Hcmds]. cbn [summary fst snd] in Hcmds.
  unfold encodeCmds in Hcmds. rewrite omap_app in Hcmds.
  cbn [omap] in Hcmds. destruct (omap _ pre); discriminate Hcmds.
Qed.

End OrderFacts.

Lemma browser_closed_last_witness :
  Forall (fun e => ~ uses_browser e)
         (drop 21 (Server.lifetime Server.Plain (Server.calm [])
                     one_frame_job "job")).
Proof.
  apply (browser_closed_last Server.Plain (Server.calm []) one_frame_job "job"
           (take 20 (Server.lifetime Server.Plain (Server.calm [])
                       one_frame_job "job"))).
  vm_compute. reflexivity.
Defined.

Lemma encoder_after_captures_witness :
  screenshots (take 14 (Server.lifetime Server.Plain (Server.calm [])
                          one_frame_job "job")) =
    frameFiles one_frame_job (Server.totalFrames Server.Plain one_frame_job) /\
  screenshots (drop 15 (Server.lifetime Server.Plain (Server.calm [])
                          one_frame_job "job")) = [] /\
  encodeCmd Server.Plain (Server.calm []) one_frame_job =
    encodeCmd Server.Plain (Server.calm []) one_frame_job.
Proof.
  apply (encoder_after_captures Server.Plain (Server.calm []) one_frame_job
           "job").
  vm_compute. reflexivity.
Defined.

(** ** C4: a job whose background cannot be resolved is still rendered *)

Section BackgroundRendered.
Import JS Server.
Local Open Scope Z_scope.

(** C4: when the background of a job cannot be resolved (the download or
    the scaling fails), the job goes through exactly the records, and ends
    in exactly the record, of the same job submitted without a background,
    and the encoder is never given a video to overlay the frames on.  When
    every other call resolves, the job is rendered and encoded: the
    timeline is set to each of the [totalFrames] sample times in turn,
    each of the frames [frame_00000.jpg], [frame_00001.jpg], ... is
    captured, the encoder is invoked once, without overlay, and the job
    ends [done] with its output file. *)
Theorem background_failure_not_fatal (d : Z) (env : Env) (c : Config)
    (jobId : string) :
  background_fails env c ->
  snapshots (lifetime (Decimated d) env c jobId) =
    snapshots (lifetime (Decimated d) env (without_background c) jobId) /\
  finalJob (Decimated d) env c jobId =
    finalJob (Decimated d) env (without_background c) jobId /\
  Forall (fun cmd => overlayOn cmd = None)
         (encodeCmds (lifetime (Decimated d) env c jobId)) /\
  (others_resolve (Decimated d) env c ->
     timestamps (lifetime (Decimated d) env c jobId) =
       fmap (timeSec (Decimated d) c)
            (seqZ 0 (totalFrames (Decimated d) c)) /\
     screenshots (lifetime (Decimated d) env c jobId) =
       fmap (fun i => path_join (framesPath c) (FrameName.server_frame_file i))
            (seqZ 0 (totalFrames (Decimated d) c)) /\
     encodeCmds (lifetime (Decimated d) env c jobId) =
       [plain_encode (Decimated d) c] /\
     status (finalJob (Decimated d) env c jobId) = "done"%string /\
     outputFile (finalJob (Decimated d) env c jobId) = Some (outFile c)).
Proof.
  intros Hfail.
  destruct (failed_background_records d env c jobId Hfail)
    as (Hsnap & Hjob & Hnone & Hdone).
  split; [exact Hsnap|]. split; [exact Hjob|]. split; [exact Hnone|].
  intros Hothers. destruct (Hdone Hothers) as (Hcmd & Hstatus & Hout).
  split; [|split; [|split; [exact Hcmd|split; [exact Hstatus|exact Hout]]]].
  - apply (timestamps_of_lifetime (Decimated d) env c jobId).
    apply Hothers.
  - destruct (lifetime_checked (Decimated d) env c jobId)
      as [_ (shots & cmds & Hs & _ & Hc)].
    change (screenshots (lifetime (Decimated d) env c jobId))
      with (summary (lifetime (Decimated d) env c jobId)).1.1.2.
    rewrite Hs. cbn [fst snd].
    destruct Hc as [(_ & Hshots & _)|[Hno _]]; [exact Hshots|].
    destruct Hno. apply Hothers.
Qed.

Lemma background_failure_not_fatal_witness :
  background_fails download_fails remote_background_job /\
  status (finalJob (Decimated 2) download_fails remote_background_job "job")
    = "done"%string /\
  timestamps (lifetime (Decimated 2) download_fails remote_background_job "job")
    = [0%Q] /\
  screenshots (lifetime (Decimated 2) download_fails remote_background_job "job")
    = ["data/frames/job/frame_00000.jpg"%string] /\
  snapshots (lifetime (Decimated 2) download_fails remote_background_job "job") =
    snapshots (lifetime (Decimated 2) download_fails
                 (without_background remote_background_job) "job").
Proof.
  assert (Hf : background_fails download_fails remote_background_job).
  { split; [discriminate|]. split; [reflexivity|]. left. eexists. reflexivity. }
  assert (Ho : others_resolve (Decimated 2) download_fails
                 remote_background_job).
  { split; [|split; reflexivity].
    do 5 (split; [reflexivity|]). intros k _. split; reflexivity. }
  pose proof (background_failure_not_fatal 2 download_fails
                remote_background_job "job" Hf) as (Hsnap & _ & _ & Hrun).
  destruct (Hrun Ho) as (Htimes & Hshots & _ & Hdone & _).
  split; [exact Hf|]. split; [exact Hdone|].
  split; [rewrite Htimes; vm_compute; reflexivity|].
  split; [rewrite Hshots; vm_compute; reflexivity | exact Hsnap].
Defined.

End BackgroundRendered.

(** ** Frame names are never reused *)

Section FrameNameMore.
Import JS FrameName.
Local Open Scope Z_scope.

(** The number a string of decimal digits stands for, continuing from
    [acc]. *)
Definition digit_value (a : ascii) : Z := Z.of_N (N_of_ascii a) - 48.

Fixpoint number_from (acc : Z) (s : string) : Z :=
  match s with
  | EmptyString => acc
  | String a s' => number_from (acc * 10 + digit_value a) s'
  end.

Lemma digit_value_digit_char (d : Z) :
  0 <= d < 10 -> digit_value (digit_char d) = d.
Proof.
  intros Hd.
  assert (Hcases : d = 0 \/ d = 1 \/ d = 2 \/ d = 3 \/ d = 4 \/
                   d = 5 \/ d = 6 \/ d = 7 \/ d = 8 \/ d = 9) by lia.
  repeat (destruct Hcases as [->|Hcases]; [reflexivity|]).
  subst d. reflexivity.
Qed.

Lemma number_from_fixed (w : nat) :
  forall (acc n : Z) (rest : string),
    0 <= n < 10 ^ Z.of_nat w ->
    number_from acc (fixed_digits w n +:+ rest) =
    number_from (acc * 10 ^ Z.of_nat w + n) rest.
Proof.
  induction w as [|w IH]; intros acc n rest Hn.
  - change (10 ^ Z.of_nat 0) with 1 in *. cbn [fixed_digits].
    rewrite append_Empty. f_equal. lia.
  - pose proof (pow10_pos w) as Hpos. rewrite pow10_succ in *.
    cbn [fixed_digits]. rewrite append_String. cbn [number_from].
    rewrite digit_value_digit_char.
    2:{ split; [apply Z.div_pos; lia|].
        apply Z.div_lt_upper_bound; lia. }
    rewrite IH by (apply Z.mod_pos_bound; lia).
    f_equal. pose proof (Z.div_mod n (10 ^ Z.of_nat w) ltac:(lia)). nia.
Qed.

Lemma number_from_zeros (k : nat) (s : string) :
  number_from 0 (repeat_char "0" k +:+ s) = number_from 0 s.
Proof.
  induction k as [|k IH]; cbn [repeat_char].
  - now rewrite append_Empty.
  - rewrite append_String. cbn [number_from]. exact IH.
Qed.

(** Reading back what [String(n)] wrote gives [n]. *)
Lemma number_from_String_of_Z (n : Z) (rest : string) :
  0 <= n ->
  number_from 0 (String_of_Z n +:+ rest) = number_from n rest.
Proof.
  intros Hn. unfold String_of_Z.
  destruct (Z.ltb_spec n 0) as [?|_]; [lia|].
  pose proof (digits_fuel_enough n Hn) as Hfuel.
  destruct (digits_acc_fixed (Z.to_nat (Z.log2 n)) (digits_fuel n) n
              EmptyString Hn Hfuel ltac:(unfold digits_fuel; lia) Hfuel)
    as (k & _ & Heq & _).
  rewrite append_nil_r in Heq.
  rewrite <- (number_from_zeros k), <- append_assoc, <- Heq.
  rewrite number_from_fixed by (split; [exact Hn | exact Hfuel]).
  f_equal.
Qed.

Lemma number_from_linear (s : string) :
  forall acc,
    number_from acc s =
    acc * 10 ^ Z.of_nat (String.length s) + number_from 0 s.
Proof.
  induction s as [|a s IH]; intros acc.
  - cbn [number_from String.length]. change (10 ^ Z.of_nat 0) with 1. lia.
  - cbn [number_from String.length]. rewrite pow10_succ.
    rewrite (IH (acc * 10 + digit_value a)), (IH (0 * 10 + digit_value a)).
    ring.
Qed.

Lemma append_inv_head (p a b : string) : p +:+ a = p +:+ b -> a = b.
Proof.
  induction p as [|x p IH]; [now rewrite !append_Empty|].
  rewrite !append_String. intros H. injection H as H. now apply IH.
Qed.

(** A zero-padded ordinal determines the ordinal, whatever follows it. *)
Lemma padded_ordinal_inj (w : nat) (rest : string) (i j : Z) :
  0 <= i -> 0 <= j ->
  padStart (String_of_Z i) w "0" +:+ rest =
  padStart (String_of_Z j) w "0" +:+ rest ->
  i = j.
Proof.
  intros Hi Hj Heq. apply (f_equal (number_from 0)) in Heq.
  unfold padStart in Heq. rewrite !append_assoc, !number_from_zeros in Heq.
  rewrite !number_from_String_of_Z in Heq by assumption.
  rewrite (number_from_linear rest i), (number_from_linear rest j) in Heq.
  pose proof (pow10_pos (String.length rest)). nia.
Qed.

Lemma frame_file_inj (w : nat) (ext : string) (i j : Z) :
  0 <= i -> 0 <= j -> frame_file w ext i = frame_file w ext j -> i = j.
Proof.
  intros Hi Hj Heq. unfold frame_file in Heq.
  apply append_inv_head in Heq. now apply padded_ordinal_inj in Heq.
Qed.

(** Two different ordinals never give the same frame file name, whether
    or not they fit the padding width. *)
Theorem frame_names_distinct (w : nat) (ext : string) (i j : Z) :
  0 <= i -> 0 <= j -> i <> j -> frame_file w ext i <> frame_file w ext j.
Proof.
  intros Hi Hj Hne Heq. apply Hne. now apply (frame_file_inj w ext).
Qed.

Lemma frame_names_distinct_witness :
  server_frame_file 99999 <> server_frame_file 100000.
Proof.
  apply (frame_names_distinct 5 ".jpg" 99999 100000); lia.
Defined.

(** No screenshot of a job overwrites an earlier one: the files the
    screenshots of one job are written to are pairwise distinct. *)
Theorem screenshots_not_overwritten (v : Server.Variant) (env : Server.Env)
    (c : Server.Config) (jobId : string) :
  NoDup (screenshots (Server.lifetime v env c jobId)).
Proof.
  destruct (lifetime_checked v env c jobId)
    as [_ (shots & cmds & Hs & [rest Hpre] & _)].
  change (screenshots (Server.lifetime v env c jobId))
    with (summary (Server.lifetime v env c jobId)).1.1.2.
  rewrite Hs. cbn [fst snd].
  assert (Hall : NoDup (frameFiles c (Server.totalFrames v c))).
  { unfold frameFiles. apply NoDup_fmap_2_strong; [|apply NoDup_seqZ].
    intros x y Hx Hy Heq. apply elem_of_seqZ in Hx, Hy.
    unfold frameFile, path_join in Heq.
    do 2 apply append_inv_head in Heq.
    apply (frame_file_inj 5 ".jpg"); [lia | lia | exact Heq]. }
  rewrite Hpre in Hall. now apply NoDup_app in Hall.
Qed.

End FrameNameMore.

(** ** What a poll shows *)

Section ApiFacts.
Import JS Server Api.

(** The allocator hands out objects in order and every registered id
    leads to an object. *)
Definition well_formed (s : State) : Prop :=
  (forall o, (size (heap s) <= o)%nat -> heap s !! o = None) /\
  (forall jobId obj, jobs s !! jobId = Some obj -> is_Some (heap s !! obj)).

Definition submits (jobId : string) (a : Action) : Prop :=
  match a with Submit _ id _ => id = jobId | _ => False end.

(** The record a task leaves behind once it has made all the assignments
    of [todo]. *)
Definition last_job (todo : list Event) (job : Job) : Job :=
  fold_left (fun j e => match e with EvJob j' => j' | _ => j end) todo job.

Lemma well_formed_init : well_formed init.
Proof. split; intros *; [reflexivity | intros H; discriminate H]. Qed.

Lemma well_formed_post v body jobId env s :
  well_formed s -> well_formed (post_generate v body jobId env s).1.
Proof.
  intros [Hfresh Hreg]. unfold post_generate, fresh_object.
  destruct (run_to_call _ _) as [[job' calls] rest]. simpl.
  split; simpl.
  - intros o Ho.
    rewrite map_size_insert_None in Ho by (apply Hfresh; lia).
    rewrite lookup_insert_ne by lia. apply Hfresh. lia.
  - intros id obj Hid. apply lookup_insert_is_Some.
    destruct (decide (size (heap s) = obj)) as [|Hne]; [now left|].
    right. split; [exact Hne|].
    destruct (decide (jobId = id)) as [->|Hidne].
    + rewrite lookup_insert_eq in Hid. congruence.
    + rewrite lookup_insert_ne in Hid by exact Hidne. now apply (Hreg id).
Qed.

Lemma well_formed_resume obj s : well_formed s -> well_formed (resume obj s).
Proof.
  intros [Hfresh Hreg]. unfold resume.
  destruct (heap s !! obj) as [cur|] eqn:Hcur; [|now split].
  destruct (tasks s !! obj) as [todo|]; [|now split].
  destruct (run_to_call todo cur) as [[job' calls] rest].
  split; simpl.
  - intros o Ho. rewrite map_size_insert_Some in Ho by (rewrite Hcur; eauto).
    destruct (decide (obj = o)) as [->|Hne].
    + rewrite (Hfresh o Ho) in Hcur. discriminate.
    + rewrite lookup_insert_ne by exact Hne. now apply Hfresh.
  - intros id o Hid. apply lookup_insert_is_Some.
    destruct (decide (obj = o)) as [|Hne]; [now left|].
    right. split; [exact Hne | now apply (Hreg id)].
Qed.

Lemma well_formed_step v a s : well_formed s -> well_formed (step v a s).1.
Proof.
  intros Hwf. destruct a as [body id env | id | obj]; simpl.
  - pose proof (well_formed_post v body id env s Hwf) as H.
    now destruct (post_generate v body id env s).
  - exact Hwf.
  - now apply well_formed_resume.
Qed.

Lemma well_formed_exec v actions :
  forall s, well_formed s -> well_formed (exec v actions s).1.
Proof.
  induction actions as [|a rest IH]; intros s Hwf; [exact Hwf|].
  simpl. pose proof (well_formed_step v a s Hwf) as H1.
  destruct (step v a s) as [s1 r]. specialize (IH s1 H1).
  now destruct (exec v rest s1).
Qed.

Lemma registered_step v a s jobId :
  is_Some (jobs (step v a s).1 !! jobId) <->
  is_Some (jobs s !! jobId) \/ submits jobId a.
Proof.
  destruct a as [body id env | id | obj]; simpl.
  - unfold post_generate.
    destruct (run_to_call _ _) as [[job' calls] rest]. simpl.
    rewrite lookup_insert_is_Some. split.
    + intros [->|[_ H]]; auto.
    + intros [H | ->]; [|now left].
      destruct (decide (id = jobId)); [now left | now right].
  - tauto.
  - unfold resume.
    destruct (heap s !! obj); [|tauto].
    destruct (tasks s !! obj); [|tauto].
    destruct (run_to_call _ _) as [[job' calls] rest]. simpl. tauto.
Qed.

Lemma registered_exec v actions :
  forall s jobId,
    is_Some (jobs (exec v actions s).1 !! jobId) <->
    is_Some (jobs s !! jobId) \/ Exists (submits jobId) actions.
Proof.
  induction actions as [|a rest IH]; intros s jobId.
  - simpl. rewrite Exists_nil. tauto.
  - simpl. pose proof (registered_step v a s jobId) as H1.
    destruct (step v a s) as [s1 r]. specialize (IH s1 jobId).
    destruct (exec v rest s1) as [s2 rs]. simpl in *.
    rewrite Exists_cons. tauto.
Qed.

(** A poll answers [404] exactly for the ids the server never issued. *)
Theorem not_found_iff_never_submitted (v : Variant) (actions : list Action)
    (jobId : string) :
  get_progress jobId (exec v actions init).1 = NotFound <->
  ~ Exists (submits jobId) actions.
Proof.
  pose proof (well_formed_exec v actions init well_formed_init) as [_ Hreg].
  pose proof (registered_exec v actions init jobId) as Hiff.
  unfold get_progress.
  destruct (jobs (exec v actions init).1 !! jobId) as [obj|] eqn:Hid.
  - destruct (Hreg jobId obj Hid) as [job Hjob]. rewrite Hjob.
    split; [discriminate|]. intros Hn. exfalso. apply Hn.
    destruct (proj1 Hiff (mk_is_Some _ _ eq_refl)) as [[x Hx]|H];
      [discriminate Hx | exact H].
  - split; [|reflexivity]. intros _ Hsub.
    destruct (proj2 Hiff (or_intror Hsub)) as [x Hx]. discriminate Hx.
Qed.

Lemma last_job_after {Mon} (delta : Mon -> Event -> Mon) (l : list Event) :
  forall mu j, (after delta (mu, j) l).2 = last_job l j.
Proof.
  induction l as [|e l IH]; intros mu j; [reflexivity|].
  cbn [after fold_left last_job]. unfold advance at 2. cbn [fst snd].
  apply IH.
Qed.

Lemma last_job_jobTask v env c jobId :
  last_job (jobTask v env c (newJob jobId)).1.1 (newJob jobId) =
  finalJob v env c jobId.
Proof.
  destruct (order_jobTask v env c (summary []) (newJob jobId) eq_refl)
    as (_ & Hjob & _).
  rewrite last_job_after in Hjob. exact Hjob.
Qed.

Lemma run_to_call_last (todo : list Event) :
  forall job,
    last_job (run_to_call todo job).2 (run_to_call todo job).1.1 =
    last_job todo job.
Proof.
  induction todo as [|e todo IH]; intros job; [reflexivity|].
  destruct e; try reflexivity. simpl. apply IH.
Qed.

(** Job [jobId] is object [obj], and its task is on the way to [final]. *)
Definition tracked (jobId : string) (obj : nat) (final : Job) (s : State) : Prop :=
  jobs s !! jobId = Some obj /\
  exists job todo,
    heap s !! obj = Some job /\ tasks s !! obj = Some todo /\
    last_job todo job = final.

Lemma tracked_post v body jobId env s :
  tracked jobId (fresh_object s)
          (finalJob v env (config_of v body jobId) jobId)
          (post_generate v body jobId env s).1.
Proof.
  unfold post_generate.
  pose proof (run_to_call_last
                (jobTask v env (config_of v body jobId) (newJob jobId)).1.1
                (newJob jobId)) as Hlast.
  rewrite last_job_jobTask in Hlast.
  change (fst (fst (jobTask v env (config_of v body jobId) (newJob jobId))))
    with ((jobTask v env (config_of v body jobId) (newJob jobId)).1.1).
  destruct (run_to_call _ _) as [[job' calls] rest]. simpl in *.
  split; simpl; [apply lookup_insert_eq|].
  exists job', rest.
  split; [apply lookup_insert_eq|]. split; [apply lookup_insert_eq | exact Hlast].
Qed.

Lemma tracked_step v a s jobId obj final :
  well_formed s -> ~ submits jobId a ->
  tracked jobId obj final s -> tracked jobId obj final (step v a s).1.
Proof.
  intros [Hfresh Hreg] Hns (Hid & job & todo & Hjob & Htodo & Hlast).
  destruct a as [body id env | id | o]; simpl.
  - unfold post_generate, fresh_object.
    destruct (run_to_call _ _) as [[job' calls] rest]. simpl.
    assert (Hne : size (heap s) <> obj).
    { intros <-. rewrite Hfresh in Hjob by lia. discriminate. }
    split; simpl.
    + rewrite lookup_insert_ne by (simpl in Hns; congruence). exact Hid.
    + exists job, todo. rewrite !lookup_insert_ne by exact Hne. auto.
  - split; [exact Hid|]. exists job, todo. auto.
  - unfold resume. destruct (decide (o = obj)) as [->|Hne].
    + rewrite Hjob, Htodo.
      pose proof (run_to_call_last todo job) as Hrun.
      destruct (run_to_call todo job) as [[job' calls] rest]. simpl in *.
      split; [exact Hid|]. exists job', rest.
      split; [apply lookup_insert_eq|].
      split; [apply lookup_insert_eq | congruence].
    + destruct (heap s !! o); [|split; [exact Hid | exists job, todo; auto]].
      destruct (tasks s !! o); [|split; [exact Hid | exists job, todo; auto]].
      destruct (run_to_call _ _) as [[job' calls] rest]. simpl.
      split; [exact Hid|]. exists job, todo. simpl.
      rewrite !lookup_insert_ne by exact Hne. auto.
Qed.

Lemma tracked_exec v actions jobId obj final :
  forall s,
    well_formed s -> Forall (fun a => ~ submits jobId a) actions ->
    tracked jobId obj final s ->
    tracked jobId obj final (exec v actions s).1.
Proof.
  induction actions as [|a rest IH]; intros s Hwf Hns Ht; [exact Ht|].
  simpl. apply Forall_cons in Hns as [Ha Hrest].
  pose proof (well_formed_step v a s Hwf) as Hwf1.
  pose proof (tracked_step v a s jobId obj final Hwf Ha Ht) as Ht1.
  destruct (step v a s) as [s1 r]. specialize (IH s1 Hwf1 Hrest Ht1).
  now destruct (exec v rest s1).
Qed.

(** Once its task is over, a job is served as its task left it, whatever
    other jobs were submitted, run or polled before and in between. *)
Theorem finished_job_is_served (v : Variant) (before later : list Action)
    (body : Body) (jobId : string) (env : Env) :
  let s0 := (exec v before init).1 in
  let s := (exec v later (post_generate v body jobId env s0).1).1 in
  let final := finalJob v env (config_of v body jobId) jobId in
  Forall (fun a => ~ submits jobId a) later ->
  tasks s !! fresh_object s0 = Some [] ->
  get_progress jobId s =
    JobView jobId (status final) (progress final) (message final)
      (match outputFile final with
       | Some f => if String.eqb f "" then None
                   else Some ("/videos/" +:+ basename f)
       | None => None
       end).
Proof.
  intros s0 s final Hns Hdone.
  assert (Hwf : well_formed (post_generate v body jobId env s0).1)
    by (apply well_formed_post, well_formed_exec, well_formed_init).
  destruct (tracked_exec v later jobId (fresh_object s0) final _ Hwf Hns
              (tracked_post v body jobId env s0))
    as (Hid & job & todo & Hjob & Htodo & Hlast).
  fold s in Hid, Hjob, Htodo. rewrite Htodo in Hdone.
  injection Hdone as ->. simpl in Hlast. subst job.
  unfold get_progress. now rewrite Hid, Hjob.
Qed.

End ApiFacts.

Section ServedFacts.
Import JS Server Api.

(** A request for a one-second, one-frame video, and the task of the
    first job resumed until it is over. *)
Definition one_second_body : Body :=
  mkBody None None None None (Some 1%Q) (Some 1%Q) None None None None None.

Definition resumed_to_the_end : list Action := repeat (Resume 0) 12.

Lemma finished_job_is_served_witness :
  get_progress "job"
    (exec Plain resumed_to_the_end
       (post_generate Plain one_second_body "job" (calm [])
          (exec Plain [] init).1).1).1 =
  JobView "job" "done" 100 "Completed" (Some "/videos/job.mp4").
Proof.
  apply (finished_job_is_served Plain [] resumed_to_the_end one_second_body
           "job" (calm [])).
  - repeat constructor; intros H; exact H.
  - vm_compute. reflexivity.
Defined.

Fixpoint no_slash (s : string) : bool :=
  match s with
  | EmptyString => true
  | String c s' => negb (Ascii.eqb c "/") && no_slash s'
  end.

Lemma basename_from_plain (b : string) :
  forall acc, no_slash b = true -> basename_from b acc = acc +:+ b.
Proof.
  induction b as [|x b IH]; intros acc Hb; cbn [basename_from].
  - now rewrite append_nil_r.
  - cbn [no_slash] in Hb. apply andb_prop in Hb as [Hx Hb].
    apply negb_true_iff in Hx. rewrite Hx, IH by exact Hb.
    now rewrite append_assoc, append_String, append_Empty.
Qed.

Lemma basename_from_dir (p b : string) :
  forall acc,
    basename_from (p +:+ String "/" b) acc = basename_from b EmptyString.
Proof.
  induction p as [|x p IH]; intros acc.
  - rewrite append_Empty. reflexivity.
  - rewrite append_String. cbn [basename_from].
    destruct (Ascii.eqb x "/"); apply IH.
Qed.

Lemma no_slash_append (a b : string) :
  no_slash a = true -> no_slash b = true -> no_slash (a +:+ b) = true.
Proof.
  intros Ha Hb. induction a as [|x a IH]; [now rewrite append_Empty|].
  rewrite append_String. cbn [no_slash] in *.
  apply andb_prop in Ha as [Hx Ha]. now rewrite Hx, IH.
Qed.

(** [path.basename(path.join(dir, base))] is [base] for a plain file
    name. *)
Lemma basename_path_join (dir base : string) :
  no_slash base = true -> basename (path_join dir base) = base.
Proof.
  intros Hb. unfold basename, path_join.
  change ("/" +:+ base) with (String "/" base).
  rewrite basename_from_dir, basename_from_plain by exact Hb.
  apply append_Empty.
Qed.

(** A client that polls after a run in which nothing but the background
    may have failed is told [done], [100], [Completed], and is given the
    URL of the video of its own job. *)
Theorem successful_job_is_downloadable (v : Variant)
    (before later : list Action) (body : Body) (jobId : string) (env : Env) :
  let s0 := (exec v before init).1 in
  let s := (exec v later (post_generate v body jobId env s0).1).1 in
  no_slash jobId = true ->
  others_resolve v env (config_of v body jobId) ->
  Forall (fun a => ~ submits jobId a) later ->
  tasks s !! fresh_object s0 = Some [] ->
  get_progress jobId s =
    JobView jobId "done" 100 "Completed"
            (Some ("/videos/" +:+ jobId +:+ ".mp4")).
Proof.
  intros s0 s Hid Hothers Hns Hdone.
  assert (Hwf : well_formed (post_generate v body jobId env s0).1)
    by (apply well_formed_post, well_formed_exec, well_formed_init).
  destruct (tracked_exec v later jobId (fresh_object s0) _ _ Hwf Hns
              (tracked_post v body jobId env s0))
    as (Hreg & job & todo & Hjob & Htodo & Hlast).
  fold s in Hreg, Hjob, Htodo. rewrite Htodo in Hdone.
  injection Hdone as ->. simpl in Hlast. subst job.
  assert (Hfinal : finalJob v env (config_of v body jobId) jobId =
                   doneJob (config_of v body jobId) jobId).
  { destruct (finalJob_cases v env (config_of v body jobId) jobId)
      as [[_ H]|[H _]]; [exact H | now destruct H]. }
  unfold get_progress. rewrite Hreg, Hjob, Hfinal.
  unfold doneJob. cbn [status progress message outputFile config_of outFile].
  rewrite basename_path_join
    by (apply no_slash_append; [exact Hid | reflexivity]).
  unfold path_join at 1. rewrite append_String. reflexivity.
Qed.

Lemma successful_job_is_downloadable_witness :
  get_progress "job"
    (exec (Decimated 2) resumed_to_the_end
       (post_generate (Decimated 2) one_second_body "job" (calm [Some 50%Q])
          (exec (Decimated 2) [] init).1).1).1 =
  JobView "job" "done" 100 "Completed" (Some "/videos/job.mp4").
Proof.
  apply (successful_job_is_downloadable (Decimated 2) [] resumed_to_the_end
           one_second_body "job" (calm [Some 50%Q])).
  - reflexivity.
  - repeat split; reflexivity.
  - repeat constructor; intros H; exact H.
  - vm_compute. reflexivity.
Defined.

End ServedFacts.

(** ** What the canvas versions write, and when they throw *)

Section WrittenFrames.
Import JS Canvas.
Local Open Scope Z_scope.

(** A loop over a range: [Inv f] holds before iteration [f]; an
    iteration that throws leaves a state described by [Bad]. *)
Lemma for_each_range {St} (Inv : Z -> St -> Prop)
    (Bad : Z -> St -> string -> Prop)
    (body : Z -> St -> St * option string) (lo hi : Z) :
  (forall f st, lo <= f < hi -> Inv f st ->
     match body f st with
     | (st', None) => Inv (f + 1) st'
     | (st', Some e) => Bad f st' e
     end) ->
  forall (k : nat) (f : Z) (st : St),
    lo <= f -> f + Z.of_nat k = hi -> Inv f st ->
    match for_each (seqZ f (Z.of_nat k)) body st with
    | (st', None) => Inv hi st'
    | (st', Some e) => exists g, lo <= g < hi /\ Bad g st' e
    end.
Proof.
  intros Hbody. induction k as [|k IH]; intros f st Hlo Hhi Hinv.
  - simpl. now replace hi with f by lia.
  - rewrite seqZ_cons by lia. cbn [for_each].
    specialize (Hbody f st ltac:(lia) Hinv).
    destruct (body f st) as [st' [e|]].
    + exists f. split; [lia | exact Hbody].
    + replace (Z.pred (Z.of_nat (S k))) with (Z.of_nat k) by lia.
      apply IH; [lia | lia | exact Hbody].
Qed.

Definition has_message (d : Dialogue) : bool :=
  match d_message d with Some _ => true | None => false end.

Lemma existsb_all_false {A} (g : A -> bool) (l : list A) :
  Forall (fun a => g a = false) l -> existsb g l = false.
Proof.
  induction 1 as [|a l Ha _ IH]; [reflexivity|].
  cbn [existsb]. now rewrite Ha, IH.
Qed.

Context {Picture : Type}.
Variable num : Picture -> Z.
Variable tempDir : string.

Definition frameName (k : Z) : string :=
  path_join tempDir (FrameName.canvas_frame_file k).

(** The frames written so far are the first [f], named and numbered in
    order. *)
Definition numbered (f : Z) (w : Written Picture) : Prop :=
  frameIndex w = f /\
  map fst (frames w) = fmap frameName (seqZ 0 f) /\
  map (fun fr => num fr.2) (frames w) = seqZ 0 f.

Lemma numbered_writeFrame (f : Z) (w : Written Picture) (pic : Picture) :
  0 <= f -> numbered f w -> num pic = f ->
  numbered (f + 1) (writeFrame tempDir pic w).
Proof.
  intros Hf (Hi & Hn & Hnum) Hst. unfold numbered, writeFrame.
  cbn [frames frameIndex].
  rewrite !map_app, Hn, Hnum, Hi, seqZ_snoc by lia. cbn [map fst snd].
  rewrite fmap_app. rewrite Hst. repeat split; reflexivity.
Qed.

Lemma numbered_length (f : Z) (w : Written Picture) :
  numbered f w -> length (frames w) = Z.to_nat f.
Proof.
  intros (_ & Hn & _). rewrite <- (length_map fst), Hn, length_fmap.
  apply length_seqZ.
Qed.

Lemma numbered_named (f : Z) (w : Written Picture) :
  0 <= f -> numbered f w ->
  map fst (frames w) = fmap frameName (seqZ 0 (Z.of_nat (length (frames w)))) /\
  map (fun fr => num fr.2) (frames w) = seqZ 0 (Z.of_nat (length (frames w))) /\
  NoDup (map fst (frames w)).
Proof.
  intros Hf Hw. rewrite (numbered_length f w Hw), Z2Nat.id by exact Hf.
  destruct Hw as (_ & Hn & Hnum). split; [exact Hn|]. split; [exact Hnum|].
  rewrite Hn. apply NoDup_fmap_2_strong; [|apply NoDup_seqZ].
  intros x y Hx Hy Heq. apply elem_of_seqZ in Hx, Hy.
  unfold frameName, path_join in Heq. do 2 apply append_inv_head in Heq.
  apply (frame_file_inj 6 ".png"); [lia | lia | exact Heq].
Qed.

End WrittenFrames.

Section LaterFrames.
Import JS Canvas Canvas.V2.
Local Open Scope Z_scope.

Variable data : VideoData.
Variable tempDir : string.

Local Abbreviation numbered := (numbered frameNumber tempDir).

(** Before frame [f]: one message was added at each multiple of sixty
    passed, and each of them has a text. *)
Definition at_frame (f : Z) (t : Timeline) : Prop :=
  0 <= f /\
  currentMessageIndex t =
    Z.min (Z.of_nat (length (v_dialogues data))) (Z.max 0 ((f - 1) / 60)) /\
  first_shown data (currentMessageIndex t) (shownMessages t) /\
  numbered f (written t) /\
  Forall (fun d => has_message d = true)
         (take (Z.to_nat (currentMessageIndex t)) (v_dialogues data)).

(** Frame [f] threw: it is the frame at which the first dialogue without a
    text came into view. *)
Definition thrown_at (f : Z) (t : Timeline) (e : string) : Prop :=
  e = "TypeError: Cannot read properties of undefined (reading 'split')"%string /\
  numbered f (written t) /\
  exists (k : nat) (d : Dialogue),
    f = 60 * (Z.of_nat k + 1) /\
    v_dialogues data !! k = Some d /\ has_message d = false /\
    Forall (fun d => has_message d = true) (take k (v_dialogues data)).

Lemma framesPerMessage_60 : Math_floor (inject_Z frameRate * 2) = 60.
Proof. reflexivity. Qed.

Definition lacks_text (m : VisibleMessage) : bool :=
  match d_message (vm_dialogue m) with None => true | Some _ => false end.

Lemma lacks_text_has_message (m : VisibleMessage) :
  lacks_text m = negb (has_message (vm_dialogue m)).
Proof. unfold lacks_text, has_message. now destruct (d_message _). Qed.

(** The last eight of a list that ends in [x] contain [x]. *)
Lemma window_last (l : list VisibleMessage) (x : VisibleMessage) :
  Forall (fun m => lacks_text m = false) l ->
  existsb lacks_text (drop (length (l ++ [x]) - 8) (l ++ [x])) = lacks_text x.
Proof.
  intros Hl. rewrite length_app. cbn [length].
  rewrite drop_app_le by lia. rewrite existsb_app.
  rewrite existsb_all_false by now apply Forall_drop.
  cbn [existsb]. now rewrite orb_false_r.
Qed.

Lemma window_clean (l : list VisibleMessage) :
  Forall (fun m => lacks_text m = false) l ->
  existsb lacks_text (drop (length l - 8) l) = false.
Proof. intros Hl. apply existsb_all_false. now apply Forall_drop. Qed.

Definition animate (m : VisibleMessage) : VisibleMessage :=
  mkVisible (vm_dialogue m) (min1 (animationProgress m + (1 # 10))) (index m).

Lemma shown_have_text (n : Z) (vis : list VisibleMessage) :
  first_shown data n vis ->
  Forall (fun d => has_message d = true) (take (Z.to_nat n) (v_dialogues data)) ->
  Forall (fun m => lacks_text m = false) (map animate vis).
Proof.
  intros (_ & Hd & _) Hall. rewrite <- Hd in Hall.
  apply Forall_forall. intros m Hm.
  apply (proj1 (list_elem_of_In _ _)), in_map_iff in Hm as (m0 & <- & Hm0).
  rewrite lacks_text_has_message. cbn [animate vm_dialogue].
  rewrite (proj1 (Forall_forall _ _) Hall (vm_dialogue m0)); [reflexivity|].
  apply list_elem_of_In, in_map, Hm0.
Qed.

Lemma frameStep_at_frame (f : Z) (t : Timeline) :
  0 <= f < totalFrames data -> at_frame f t ->
  match frameStep data tempDir f t with
  | (t', None) => at_frame (f + 1) t'
  | (t', Some e) => thrown_at f t' e
  end.
Proof.
  intros Hf (_ & Hcmi & Hfirst & Hnum & Htext).
  unfold totalFrames in Hf. rewrite framesPerMessage_60 in Hf.
  change (frameRate * 2) with 60 in Hf.
  unfold frameStep. cbv zeta. rewrite !framesPerMessage_60.
  destruct ((0 <? f) && (f mod 60 =? 0)
            && (currentMessageIndex t <? Z.of_nat (length (v_dialogues data))))
    eqn:Hcond; cbv beta iota.
  - apply andb_true_iff in Hcond as [Hcond Hlt].
    apply andb_true_iff in Hcond as [Hpos Hmod].
    apply Z.ltb_lt in Hlt, Hpos. apply Z.eqb_eq in Hmod.
    pose proof (first_shown_push data _ _ Hfirst Hlt) as Hpush.
    pose proof Hfirst as (Hrange & _).
    destruct (lookup_lt_is_Some_2 (v_dialogues data)
                (Z.to_nat (currentMessageIndex t)) ltac:(lia)) as [d Hd].
    assert (Hat : at_index (v_dialogues data) (currentMessageIndex t) = Some d).
    { unfold at_index. destruct (Z.ltb_spec (currentMessageIndex t) 0); [lia|].
      exact Hd. }
    rewrite Hat in *. cbn [spread] in *.
    unfold createFrame. cbn [visibleMessages].
    fold animate. fold lacks_text. rewrite map_app. cbn [map].
    rewrite window_last by exact (shown_have_text _ _ Hfirst Htext).
    rewrite lacks_text_has_message. cbn [animate vm_dialogue].
    destruct (has_message d) eqn:Hmsg; cbn [negb].
    + split; [lia|]. cbn [currentMessageIndex shownMessages written].
      split; [revert Hcmi; Z.div_mod_to_equations; lia|].
      split.
      { pose proof (first_shown_animate data _ _ Hpush) as Hnext.
        rewrite map_app in Hnext. exact Hnext. }
      split; [now apply numbered_writeFrame; [lia | |]|].
      replace (Z.to_nat (currentMessageIndex t + 1))
        with (S (Z.to_nat (currentMessageIndex t))) by lia.
      rewrite (take_S_r _ _ _ Hd). apply Forall_app. split; [exact Htext|].
      constructor; [exact Hmsg | constructor].
    + split; [reflexivity|]. cbn [written]. split; [exact Hnum|].
      exists (Z.to_nat (currentMessageIndex t)), d.
      split; [revert Hcmi; Z.div_mod_to_equations; lia|]. auto.
  - unfold createFrame. cbn [visibleMessages].
    fold animate. fold lacks_text.
    rewrite window_clean by exact (shown_have_text _ _ Hfirst Htext).
    split; [lia|]. cbn [currentMessageIndex shownMessages written].
    split.
    { apply andb_false_iff in Hcond as [Hcond|Hge].
      - apply andb_false_iff in Hcond as [Hpos|Hmod].
        + apply Z.ltb_ge in Hpos. revert Hcmi. Z.div_mod_to_equations. lia.
        + apply Z.eqb_neq in Hmod. revert Hcmi Hmod.
          Z.div_mod_to_equations. lia.
      - apply Z.ltb_ge in Hge. revert Hcmi. Z.div_mod_to_equations. lia. }
    split; [apply first_shown_animate; exact Hfirst|].
    split; [now apply numbered_writeFrame; [lia | |]|]. exact Htext.
Qed.

Definition start : Timeline := mkTimeline 0 [] 1 (mkWritten [] 0).

Lemma at_frame_start : at_frame 0 start.
Proof.
  split; [lia|].
  split; [cbn [start currentMessageIndex]; change ((0 - 1) / 60) with (-1); lia|].
  split; [split; [cbn; lia | split; reflexivity]|].
  split; [repeat split|]. constructor.
Qed.

Lemma generateFrames_run :
  match generateFrames data tempDir with
  | (t, None) => at_frame (totalFrames data) t
  | (t, Some e) => exists f, 0 <= f < totalFrames data /\ thrown_at f t e
  end.
Proof.
  unfold generateFrames. fold start.
  assert (Htotal : 0 <= totalFrames data).
  { unfold totalFrames. rewrite framesPerMessage_60.
    change (frameRate * 2) with 60. lia. }
  replace (seqZ 0 (totalFrames data))
    with (seqZ 0 (Z.of_nat (Z.to_nat (totalFrames data))))
    by (now rewrite Z2Nat.id).
  apply (for_each_range at_frame thrown_at _ 0 (totalFrames data));
    [intros f st; apply frameStep_at_frame | lia | lia | apply at_frame_start].
Qed.

Lemma later_frames_cases :
  match (generateFrames data tempDir).2 with
  | None =>
      Forall (fun d => has_message d = true) (v_dialogues data) /\
      length (frames (written (generateFrames data tempDir).1)) =
        (60 * length (v_dialogues data) + 60)%nat
  | Some e =>
      e = "TypeError: Cannot read properties of undefined (reading 'split')"%string /\
      exists (k : nat) (d : Dialogue),
        v_dialogues data !! k = Some d /\ has_message d = false /\
        Forall (fun d => has_message d = true) (take k (v_dialogues data)) /\
        length (frames (written (generateFrames data tempDir).1)) =
          (60 * (k + 1))%nat
  end.
Proof.
  pose proof generateFrames_run as Hrun.
  destruct (generateFrames data tempDir) as [t [e|]]; cbn [fst snd].
  - destruct Hrun as (f & Hf & -> & Hnum & k & d & -> & Hd & Hmsg & Hall).
    split; [reflexivity|]. exists k, d.
    rewrite (numbered_length _ _ _ _ Hnum). repeat split; auto. lia.
  - destruct Hrun as (_ & Hcmi & _ & Hnum & Hall).
    unfold totalFrames in *. rewrite framesPerMessage_60 in *.
    change (frameRate * 2) with 60 in *.
    assert (Hn : currentMessageIndex t = Z.of_nat (length (v_dialogues data)))
      by (revert Hcmi; Z.div_mod_to_equations; lia).
    rewrite Hn, Nat2Z.id, firstn_all in Hall.
    split; [exact Hall|]. rewrite (numbered_length _ _ _ _ Hnum). lia.
Qed.

(** The later version draws all its [60 * n + 60] frames exactly when
    every dialogue has a text.  Otherwise it throws when the first
    dialogue without one comes into view, at frame [60 * (k + 1)], and the
    frames written until then stay where they are. *)
Theorem later_frames_outcome :
  match (generateFrames data tempDir).2 with
  | None =>
      Forall (fun d => has_message d = true) (v_dialogues data) /\
      length (frames (written (generateFrames data tempDir).1)) =
        (60 * length (v_dialogues data) + 60)%nat
  | Some e =>
      e = "TypeError: Cannot read properties of undefined (reading 'split')"%string /\
      exists (k : nat) (d : Dialogue),
        v_dialogues data !! k = Some d /\ has_message d = false /\
        Forall (fun d => has_message d = true) (take k (v_dialogues data)) /\
        length (frames (written (generateFrames data tempDir).1)) =
          (60 * (k + 1))%nat
  end.
Proof. exact later_frames_cases. Qed.

Lemma later_numbered :
  exists f, 0 <= f /\ numbered f (written (generateFrames data tempDir).1).
Proof.
  pose proof generateFrames_run as Hrun.
  destruct (generateFrames data tempDir) as [t [e|]]; cbn [fst].
  - destruct Hrun as (f & Hf & _ & Hnum & _). exists f. split; [lia | exact Hnum].
  - exists (totalFrames data). destruct Hrun as (_ & _ & _ & Hnum & _).
    split; [|exact Hnum]. unfold totalFrames. rewrite framesPerMessage_60.
    change (frameRate * 2) with 60. lia.
Qed.

End LaterFrames.

Section EarlierFrames.
Import JS Canvas Canvas.V1.
Local Open Scope Z_scope.

Variable dialogues : list Dialogue.
Variable backgroundType : string.
Variable tempDir : string.

Local Abbreviation numbered := (numbered p_frameNumber tempDir).
Local Abbreviation n := (Z.of_nat (length dialogues)).

Definition lacks (d : Dialogue) : bool :=
  match d_message d with None => true | Some _ => false end.

Lemma lacks_has_message (d : Dialogue) : lacks d = negb (has_message d).
Proof. unfold lacks, has_message. now destruct (d_message d). Qed.

Lemma progress_gt_tenth (f : Z) :
  Qgtb (inject_Z f / inject_Z (frameRate * 2)) (1 # 10) = (6 <? f).
Proof.
  unfold Qgtb. change (frameRate * 2) with 60.
  destruct (Z.ltb_spec 6 f) as [Hf|Hf].
  - apply negb_true_iff. apply not_true_iff_false. intros Hle.
    apply Qle_bool_iff in Hle. unfold Qle, Qdiv, Qmult, Qinv in Hle.
    simpl in Hle. lia.
  - apply negb_false_iff. apply Qle_bool_iff.
    unfold Qle, Qdiv, Qmult, Qinv. simpl. lia.
Qed.

(** Frame [f] of dialogue [i]: the texts of the dialogues before [i] are
    there, and that of [i] is once it was drawn. *)
Definition row_at (i f : Z) (w : Written Picture) : Prop :=
  numbered (60 * i + f) w /\
  (7 < f -> exists d, dialogues !! Z.to_nat i = Some d /\ has_message d = true).

Definition row_thrown (i f : Z) (w : Written Picture) (e : string) : Prop :=
  e = "TypeError: Cannot read properties of undefined (reading 'split')"%string /\
  numbered (60 * i + 7) w /\
  exists d, dialogues !! Z.to_nat i = Some d /\ has_message d = false.

Lemma row_step (i f : Z) (w : Written Picture) :
  0 <= i < n -> 0 <= f < 60 ->
  Forall (fun d => has_message d = true) (take (Z.to_nat i) dialogues) ->
  row_at i f w ->
  match draw tempDir
          (createFrame (at_index dialogues i)
             (take (Z.to_nat (i + 1)) dialogues) backgroundType
             (inject_Z f / inject_Z (frameRate * 2)) (frameIndex w)) w with
  | (w', None) => row_at i (f + 1) w'
  | (w', Some e) => row_thrown i f w' e
  end.
Proof.
  intros Hi Hf Hbefore [Hnum Hseen].
  destruct (lookup_lt_is_Some_2 dialogues (Z.to_nat i) ltac:(lia)) as [d Hd].
  assert (Hat : at_index dialogues i = Some d).
  { unfold at_index. destruct (Z.ltb_spec i 0); [lia | exact Hd]. }
  replace (Z.to_nat (i + 1)) with (S (Z.to_nat i)) by lia.
  rewrite (take_S_r _ _ _ Hd), Hat.
  unfold createFrame, visible. rewrite progress_gt_tenth. fold lacks.
  destruct (Z.ltb_spec 6 f) as [Hlate|Hearly].
  - rewrite existsb_app. rewrite existsb_all_false.
    2:{ eapply Forall_impl; [exact Hbefore|]. intros x Hx.
        rewrite lacks_has_message, Hx. reflexivity. }
    cbn [existsb orb]. rewrite orb_false_r, lacks_has_message.
    destruct (has_message d) eqn:Hmsg; cbn [negb draw].
    + split.
      * replace (60 * i + (f + 1)) with (60 * i + f + 1) by lia.
        apply numbered_writeFrame; [lia | exact Hnum |].
        cbn [p_frameNumber]. apply Hnum.
      * intros _. exists d. auto.
    + split; [reflexivity|]. split; [|exists d; auto].
      assert (f = 7 \/ 7 < f) as [->|Hgt] by lia; [exact Hnum|].
      destruct (Hseen Hgt) as (d' & Hd' & Hmsg'). congruence.
  - rewrite length_app. cbn [length].
    replace (length (take (Z.to_nat i) dialogues) + 1 - 1)%nat
      with (length (take (Z.to_nat i) dialogues)) by lia.
    rewrite take_app_length.
    rewrite existsb_all_false.
    2:{ eapply Forall_impl; [exact Hbefore|]. intros x Hx.
        rewrite lacks_has_message, Hx. reflexivity. }
    cbn [draw]. split.
    + replace (60 * i + (f + 1)) with (60 * i + f + 1) by lia.
      apply numbered_writeFrame; [lia | exact Hnum |].
      cbn [p_frameNumber]. apply Hnum.
    + intros Hgt. lia.
Qed.

(** Before the frames of dialogue [i]. *)
Definition rows_at (i : Z) (w : Written Picture) : Prop :=
  numbered (60 * i) w /\
  Forall (fun d => has_message d = true) (take (Z.to_nat i) dialogues).

Definition rows_thrown (i : Z) (w : Written Picture) (e : string) : Prop :=
  e = "TypeError: Cannot read properties of undefined (reading 'split')"%string /\
  numbered (60 * i + 7) w /\
  exists d, dialogues !! Z.to_nat i = Some d /\ has_message d = false /\
  Forall (fun d => has_message d = true) (take (Z.to_nat i) dialogues).

Lemma rows_step (i : Z) (w : Written Picture) :
  0 <= i < n -> rows_at i w ->
  match for_each (seqZ 0 (frameRate * 2))
          (fun f w =>
             draw tempDir
               (createFrame (at_index dialogues i)
                  (take (Z.to_nat (i + 1)) dialogues) backgroundType
                  (inject_Z f / inject_Z (frameRate * 2)) (frameIndex w)) w)
          w with
  | (w', None) => rows_at (i + 1) w'
  | (w', Some e) => rows_thrown i w' e
  end.
Proof.
  intros Hi [Hnum Hbefore].
  pose proof (for_each_range (row_at i) (row_thrown i)
                (fun f w =>
                   draw tempDir
                     (createFrame (at_index dialogues i)
                        (take (Z.to_nat (i + 1)) dialogues) backgroundType
                        (inject_Z f / inject_Z (frameRate * 2)) (frameIndex w)) w)
                0 60
                (fun f st Hf => row_step i f st Hi Hf Hbefore)
                60%nat 0 w ltac:(lia) ltac:(lia)) as Hrow.
  change (Z.of_nat 60) with (frameRate * 2) in Hrow.
  destruct (for_each _ _ w) as [w' [e|]].
  - destruct Hrow as (g & _ & He & Hn & d & Hd & Hmsg);
      [split; [now rewrite Z.add_0_r | lia]|].
    split; [exact He|]. split; [exact Hn|]. exists d. auto.
  - destruct Hrow as [Hn Hseen];
      [split; [now rewrite Z.add_0_r | lia]|].
    split; [now replace (60 * (i + 1)) with (60 * i + 60) by lia|].
    destruct (Hseen ltac:(lia)) as (d & Hd & Hmsg).
    replace (Z.to_nat (i + 1)) with (S (Z.to_nat i)) by lia.
    rewrite (take_S_r _ _ _ Hd). apply Forall_app. split; [exact Hbefore|].
    constructor; [exact Hmsg | constructor].
Qed.

(** Frame [f] of the hold on the last dialogue. *)
Definition hold_at (f : Z) (w : Written Picture) : Prop :=
  numbered (60 * n + f) w /\ (0 < f -> dialogues <> []).

Definition hold_thrown (f : Z) (w : Written Picture) (e : string) : Prop :=
  e = "TypeError: Cannot read properties of undefined (reading 'image')"%string /\
  dialogues = [] /\ numbered 0 w.

Lemma hold_step (f : Z) (w : Written Picture) :
  0 <= f < 30 ->
  Forall (fun d => has_message d = true) dialogues ->
  hold_at f w ->
  match draw tempDir
          (createFrame (at_index dialogues (n - 1)) dialogues backgroundType 1
             (frameIndex w)) w with
  | (w', None) => hold_at (f + 1) w'
  | (w', Some e) => hold_thrown f w' e
  end.
Proof.
  intros Hf Hall [Hnum Hne].
  unfold createFrame, visible. change (Qgtb 1 (1 # 10)) with true.
  cbv iota. fold lacks. rewrite existsb_all_false.
  2:{ eapply Forall_impl; [exact Hall|]. intros x Hx.
      rewrite lacks_has_message, Hx. reflexivity. }
  destruct (at_index dialogues (n - 1)) as [d|] eqn:Hat; cbn [draw].
  - split.
    + replace (60 * n + (f + 1)) with (60 * n + f + 1) by lia.
      apply numbered_writeFrame; [lia | exact Hnum |].
      cbn [p_frameNumber]. apply Hnum.
    + intros _ Hempty. rewrite Hempty in Hat. discriminate Hat.
  - assert (Hempty : dialogues = []).
    { apply nil_length_inv. unfold at_index in Hat.
      destruct (Z.ltb_spec (n - 1) 0) as [|Hge]; [lia|].
      apply lookup_ge_None_1 in Hat. lia. }
    split; [reflexivity|]. split; [exact Hempty|].
    assert (f = 0) as -> by (destruct (Z.eq_dec f 0); [assumption|];
                             exfalso; apply Hne; [lia | exact Hempty]).
    rewrite Hempty in Hnum. exact Hnum.
Qed.

Lemma earlier_run :
  match generateFrames dialogues backgroundType tempDir with
  | (w, None) =>
      numbered (60 * n + 30) w /\ dialogues <> [] /\
      Forall (fun d => has_message d = true) dialogues
  | (w, Some e) =>
      (hold_thrown 0 w e) \/
      (exists i, 0 <= i < n /\ rows_thrown i w e)
  end.
Proof.
  unfold generateFrames. cbv zeta.
  pose proof (for_each_range rows_at rows_thrown
                (fun i w =>
                   for_each (seqZ 0 (frameRate * 2))
                     (fun f w =>
                        draw tempDir
                          (createFrame (at_index dialogues i)
                             (take (Z.to_nat (i + 1)) dialogues) backgroundType
                             (inject_Z f / inject_Z (frameRate * 2))
                             (frameIndex w)) w) w)
                0 n rows_step (length dialogues) 0 (mkWritten [] 0)
                ltac:(lia) ltac:(lia)) as Hrows.
  destruct (for_each (seqZ 0 n) _ (mkWritten [] 0)) as [w [e|]].
  - right. apply Hrows. split; [repeat split | constructor].
  - destruct Hrows as [Hnum Hall]; [split; [repeat split | constructor]|].
    rewrite Nat2Z.id, firstn_all in Hall.
    pose proof (for_each_range hold_at hold_thrown
                  (fun f w =>
                     draw tempDir
                       (createFrame (at_index dialogues (n - 1)) dialogues
                          backgroundType 1 (frameIndex w)) w)
                  0 30 (fun f st Hf => hold_step f st Hf Hall)
                  30%nat 0 w ltac:(lia) ltac:(lia)) as Hhold.
    change (Z.of_nat 30) with frameRate in Hhold.
    destruct (for_each (seqZ 0 frameRate) _ w) as [w' [e|]].
    + left. destruct Hhold as (g & _ & He & Hempty & Hw');
        [split; [now rewrite Z.add_0_r | lia]|].
      split; [exact He|]. split; assumption.
    + destruct Hhold as [Hn Hne];
        [split; [now rewrite Z.add_0_r | lia]|].
      split; [exact Hn|]. split; [apply Hne; lia | exact Hall].
Qed.

Lemma earlier_frames_cases :
  match (generateFrames dialogues backgroundType tempDir).2 with
  | None =>
      dialogues <> [] /\
      Forall (fun d => has_message d = true) dialogues /\
      length (frames (generateFrames dialogues backgroundType tempDir).1) =
        (60 * length dialogues + 30)%nat
  | Some e =>
      (dialogues = [] /\
       e = "TypeError: Cannot read properties of undefined (reading 'image')"%string /\
       frames (generateFrames dialogues backgroundType tempDir).1 = []) \/
      (e = "TypeError: Cannot read properties of undefined (reading 'split')"%string /\
       exists (k : nat) (d : Dialogue),
         dialogues !! k = Some d /\ has_message d = false /\
         Forall (fun d => has_message d = true) (take k dialogues) /\
         length (frames (generateFrames dialogues backgroundType tempDir).1) =
           (60 * k + 7)%nat)
  end.
Proof.
  pose proof earlier_run as Hrun.
  destruct (generateFrames dialogues backgroundType tempDir) as [w [e|]];
    cbn [fst snd].
  - destruct Hrun as [(He & Hempty & Hnum) | (i & Hi & He & Hnum & d & Hd & Hmsg & Hall)].
    + left. split; [exact Hempty|]. split; [exact He|].
      apply nil_length_inv. now rewrite (numbered_length _ _ _ _ Hnum).
    + right. split; [exact He|]. exists (Z.to_nat i), d.
      rewrite (numbered_length _ _ _ _ Hnum). repeat split; auto. lia.
  - destruct Hrun as (Hnum & Hne & Hall). split; [exact Hne|].
    split; [exact Hall|]. rewrite (numbered_length _ _ _ _ Hnum). lia.
Qed.

(** The earlier version draws all its [60 * n + 30] frames exactly when
    there is a dialogue and every dialogue has a text.  With no dialogue
    it throws before the first frame; otherwise it throws at the eighth
    frame of the first dialogue without a text, and the frames written
    until then stay where they are. *)
Theorem earlier_frames_outcome :
  match (generateFrames dialogues backgroundType tempDir).2 with
  | None =>
      dialogues <> [] /\
      Forall (fun d => has_message d = true) dialogues /\
      length (frames (generateFrames dialogues backgroundType tempDir).1) =
        (60 * length dialogues + 30)%nat
  | Some e =>
      (dialogues = [] /\
       e = "TypeError: Cannot read properties of undefined (reading 'image')"%string /\
       frames (generateFrames dialogues backgroundType tempDir).1 = []) \/
      (e = "TypeError: Cannot read properties of undefined (reading 'split')"%string /\
       exists (k : nat) (d : Dialogue),
         dialogues !! k = Some d /\ has_message d = false /\
         Forall (fun d => has_message d = true) (take k dialogues) /\
         length (frames (generateFrames dialogues backgroundType tempDir).1) =
           (60 * k + 7)%nat)
  end.
Proof. exact earlier_frames_cases. Qed.

Lemma earlier_numbered :
  exists f, 0 <= f /\
    numbered f (generateFrames dialogues backgroundType tempDir).1.
Proof.
  pose proof earlier_run as Hrun.
  destruct (generateFrames dialogues backgroundType tempDir) as [w [e|]];
    cbn [fst].
  - destruct Hrun as [(_ & _ & Hnum) | (i & Hi & _ & Hnum & _)].
    + exists 0. split; [lia | exact Hnum].
    + exists (60 * i + 7). split; [lia | exact Hnum].
  - exists (60 * n + 30). split; [lia | apply Hrun].
Qed.

End EarlierFrames.

(** In both versions the frames written are [frame_000000.png],
    [frame_000001.png], ... of the job's directory, in order, each drawn
    with its own ordinal as frame number, and no file is written twice;
    this holds for the frames a failed job leaves behind as well. *)
Theorem canvas_frames_named (dialogues : list Canvas.Dialogue)
    (backgroundType tempDir : string) (data : Canvas.V2.VideoData) :
  (let fs := Canvas.frames
               (Canvas.V1.generateFrames dialogues backgroundType tempDir).1 in
   map fst fs = fmap (frameName tempDir) (seqZ 0 (Z.of_nat (length fs))) /\
   map (fun fr => Canvas.V1.p_frameNumber fr.2) fs
     = seqZ 0 (Z.of_nat (length fs)) /\
   NoDup (map fst fs)) /\
  (let fs := Canvas.frames
               (Canvas.V2.written (Canvas.V2.generateFrames data tempDir).1) in
   map fst fs = fmap (frameName tempDir) (seqZ 0 (Z.of_nat (length fs))) /\
   map (fun fr => Canvas.V2.frameNumber fr.2) fs
     = seqZ 0 (Z.of_nat (length fs)) /\
   NoDup (map fst fs)).
Proof.
  split; cbv zeta.
  - destruct (earlier_numbered dialogues backgroundType tempDir) as (f & Hf & Hnum).
    exact (numbered_named _ _ f _ Hf Hnum).
  - destruct (later_numbered data tempDir) as (f & Hf & Hnum).
    exact (numbered_named _ _ f _ Hf Hnum).
Qed.

(** A job of the canvas controller ends [completed] exactly when
    [dialogues] is an array, every dialogue has a text, the encoder
    succeeds and, in the earlier version, there is a dialogue. *)
Theorem canvas_job_completes (ver : Canvas.Version) (body : Canvas.Body)
    (jobId : string) (encoder : Server.Outcome) :
  Canvas.controller ver body jobId encoder
    = (Canvas.Started jobId, Some "completed"%string) <->
  exists ds,
    Canvas.b_dialogues body = Some ds /\
    Forall (fun d => has_message d = true) ds /\
    (ver = Canvas.Earlier -> ds <> []) /\
    encoder = Server.Resolves.
Proof.
  unfold Canvas.controller, Canvas.generateVideo.
  destruct (Canvas.b_dialogues body) as [ds|]; cbn [default].
  2:{ split; [discriminate | intros (ds & Hd & _); discriminate Hd]. }
  destruct ver.
  - pose proof (earlier_frames_cases ds
                  (default "minecraft"%string (Canvas.b_background body))
                  (JS.path_join "temp" jobId)) as Hrun.
    destruct (Canvas.V1.generateFrames _ _ _) as [w [e|]]; cbn [fst snd] in *.
    + split; [discriminate|]. intros (ds' & Hd & Hall & Hne & _).
      injection Hd as <-.
      destruct Hrun as [(Hempty & _) | (_ & k & d & Hk & Hmsg & _)].
      * now destruct (Hne eq_refl).
      * apply (proj1 (Forall_lookup _ _) Hall) in Hk. congruence.
    + destruct Hrun as (Hne & Hall & _). destruct encoder as [|err].
      * split; [|reflexivity]. intros _. exists ds. auto.
      * split; [discriminate|]. intros (_ & _ & _ & _ & Henc). discriminate Henc.
  - pose proof (later_frames_cases
                  (Canvas.V2.mkVideoData
                     (default "Mensagem no Ultrassom"%string (Canvas.b_title body))
                     (default 1%Z (Canvas.b_episode body))
                     (default 7%Z (Canvas.b_totalEpisodes body)) ds
                     (default "minecraft"%string (Canvas.b_background body)))
                  (JS.path_join "temp" jobId)) as Hrun.
    destruct (Canvas.V2.generateFrames _ _) as [t [e|]];
      cbn [fst snd Canvas.V2.v_dialogues] in *.
    + split; [discriminate|]. intros (ds' & Hd & Hall & _).
      injection Hd as <-.
      destruct Hrun as (_ & k & d & Hk & Hmsg & _).
      apply (proj1 (Forall_lookup _ _) Hall) in Hk. congruence.
    + destruct Hrun as (Hall & _). destruct encoder as [|err].
      * split; [|reflexivity]. intros _. exists ds.
        repeat split; [exact Hall | discriminate].
      * split; [discriminate|]. intros (_ & _ & _ & _ & Henc). discriminate Henc.
Qed.

(** ** The state a frame of the later version is drawn from *)

Section LaterRanges.
Import JS Canvas Canvas.V2.
Local Open Scope Z_scope.

Variable data : VideoData.
Variable tempDir : string.

Local Abbreviation n := (Z.of_nat (length (v_dialogues data))).

Definition animation_ok (m : VisibleMessage) : Prop :=
  ((1 # 10) <= animationProgress m)%Q /\ (animationProgress m <= 1)%Q.

(** What the drawing code relies on: a chapter among the seven, progress
    values that are fractions, an experience bar that is a fraction once
    there is a dialogue (and [NaN] only when there is none), and bubbles
    whose opacity is between a tenth and one. *)
Definition state_ok (st : RenderState) : Prop :=
  1 <= currentChapter st <= 7 /\ totalChapters st = 7 /\
  (0 <= globalProgress st)%Q /\ (globalProgress st < 1)%Q /\
  (0 <= messageProgress st)%Q /\ (messageProgress st < 1)%Q /\
  match xpProgress st with
  | None => v_dialogues data = []
  | Some q => v_dialogues data <> [] /\ (0 <= q)%Q /\ (q <= 1)%Q
  end /\
  Forall animation_ok (visibleMessages st).

Definition ranges_ok (t : Timeline) : Prop :=
  0 <= currentMessageIndex t <= n /\
  1 <= chapter t <= 7 /\
  Forall animation_ok (shownMessages t) /\
  Forall (fun fr => state_ok fr.2) (frames (written t)).

Lemma fraction_range (a b : Z) :
  0 <= a -> 0 < b ->
  (0 <= inject_Z a / inject_Z b)%Q /\
  (a < b -> (inject_Z a / inject_Z b < 1)%Q) /\
  (a <= b -> (inject_Z a / inject_Z b <= 1)%Q).
Proof.
  intros Ha Hb.
  assert (HB : (0 < inject_Z b)%Q) by (apply inject_Z_pos; lia).
  split; [|split].
  - apply Qle_shift_div_l; [exact HB|]. rewrite Qmult_0_l.
    apply inject_Z_nonneg. lia.
  - intros Hlt. apply Qlt_shift_div_r; [exact HB|]. rewrite Qmult_1_l.
    now rewrite <- Zlt_Qlt.
  - intros Hle. apply Qle_shift_div_r; [exact HB|]. rewrite Qmult_1_l.
    now rewrite <- Zle_Qle.
Qed.

Lemma min1_range (x : Q) :
  (0 <= x)%Q -> animation_ok (mkVisible (mkDialogue None None None None None)
                                (min1 (x + (1 # 10))) 0).
Proof.
  intros Hx. unfold animation_ok, min1. cbn [animationProgress].
  destruct (Qle_bool 1 (x + (1 # 10))) eqn:Hle.
  - split; [discriminate | apply Qle_refl].
  - split.
    + rewrite <- (Qplus_0_l (1 # 10)) at 1. apply Qplus_le_compat;
        [exact Hx | apply Qle_refl].
    + apply Qlt_le_weak, Qnot_le_lt. intros H.
      apply Qle_bool_iff in H. congruence.
Qed.

Lemma animate_ok (vis : list VisibleMessage) :
  Forall (fun m => (0 <= animationProgress m)%Q) vis ->
  Forall animation_ok (map animate vis).
Proof.
  intros H. apply Forall_forall. intros m Hm.
  apply (proj1 (list_elem_of_In _ _)), in_map_iff in Hm as (m0 & <- & Hm0).
  apply list_elem_of_In in Hm0.
  exact (min1_range _ (proj1 (Forall_forall _ _) H m0 Hm0)).
Qed.

Lemma animation_nonneg (vis : list VisibleMessage) :
  Forall animation_ok vis ->
  Forall (fun m => (0 <= animationProgress m)%Q) vis.
Proof.
  intros H. eapply Forall_impl; [exact H|]. intros m [Hlo _].
  eapply Qle_trans; [|exact Hlo]. discriminate.
Qed.

Lemma chapter_range (c : Z) :
  0 <= c -> 0 < n ->
  1 <= Z.min 7 (Math_floor (inject_Z c / inject_Z n * inject_Z 7) + 1) <= 7.
Proof.
  intros Hc Hn.
  assert (H0 : 0 <= Math_floor (inject_Z c / inject_Z n * inject_Z 7)).
  { unfold Math_floor. change 0 with (Qfloor 0). apply Qfloor_resp_le.
    apply Qmult_le_0_compat; [|discriminate].
    apply (fraction_range c n Hc Hn). }
  lia.
Qed.

Lemma frameStep_ranges (f : Z) (t : Timeline) :
  0 <= f < totalFrames data -> ranges_ok t ->
  ranges_ok (frameStep data tempDir f t).1.
Proof.
  intros Hf (Hcmi & Hchap & Hanim & Hframes).
  unfold totalFrames in Hf. rewrite framesPerMessage_60 in Hf.
  change (frameRate * 2) with 60 in Hf.
  unfold frameStep. cbv zeta. rewrite !framesPerMessage_60.
  change (frameRate * 2) with 60.
  set (total := n * 60 + 60) in *.
  assert (Hglobal : (0 <= inject_Z f / inject_Z total)%Q /\
                    (inject_Z f / inject_Z total < 1)%Q).
  { destruct (fraction_range f total ltac:(lia) ltac:(lia)) as (H0 & H1 & _).
    split; [exact H0 | apply H1; lia]. }
  assert (Hmessage : (0 <= inject_Z (f mod 60) / inject_Z 60)%Q /\
                     (inject_Z (f mod 60) / inject_Z 60 < 1)%Q).
  { pose proof (Z.mod_pos_bound f 60 ltac:(lia)).
    destruct (fraction_range (f mod 60) 60 ltac:(lia) ltac:(lia))
      as (H0 & H1 & _).
    split; [exact H0 | apply H1; lia]. }
  assert (Hxp : forall c, 0 <= c <= n ->
            match ratio c n with
            | None => v_dialogues data = []
            | Some q => v_dialogues data <> [] /\ (0 <= q)%Q /\ (q <= 1)%Q
            end).
  { intros c Hc. unfold ratio. destruct (Z.eqb_spec n 0) as [Hz|Hnz].
    - apply nil_length_inv. lia.
    - split; [intros Hnil; rewrite Hnil in Hnz; now apply Hnz|].
      destruct (fraction_range c n ltac:(lia) ltac:(lia)) as (H0 & _ & H1).
      split; [exact H0 | apply H1; lia]. }
  destruct ((0 <? f) && (f mod 60 =? 0)
            && (currentMessageIndex t <? n)) eqn:Hcond; cbv beta iota.
  - apply andb_true_iff in Hcond as [_ Hlt]. apply Z.ltb_lt in Hlt.
    fold animate.
    assert (Hvis : Forall animation_ok
              (map animate
                 (shownMessages t ++
                    [mkVisible (spread (at_index (v_dialogues data)
                                          (currentMessageIndex t)))
                               0 (currentMessageIndex t)]))).
    { apply animate_ok, Forall_app. split; [now apply animation_nonneg|].
      constructor; [discriminate | constructor]. }
    pose proof (chapter_range (currentMessageIndex t + 1) ltac:(lia) ltac:(lia))
      as Hnext.
    unfold createFrame.
    match goal with
    | |- context [existsb ?g ?l] => destruct (existsb g l)
    end; unfold ranges_ok;
      cbn [fst currentMessageIndex shownMessages chapter written].
    + split; [lia|]. split; [exact Hnext|]. split; [exact Hvis | exact Hframes].
    + split; [lia|]. split; [exact Hnext|]. split; [exact Hvis|].
      unfold writeFrame. cbn [frames]. apply Forall_app.
      split; [exact Hframes|]. constructor; [|constructor].
      cbn [snd]. unfold state_ok.
      cbn [currentChapter totalChapters globalProgress messageProgress
           xpProgress visibleMessages].
      split; [exact Hnext|]. split; [reflexivity|].
      split; [apply Hglobal|]. split; [apply Hglobal|].
      split; [apply Hmessage|]. split; [apply Hmessage|].
      split; [apply Hxp; lia | exact Hvis].
  - fold animate.
    assert (Hvis : Forall animation_ok (map animate (shownMessages t)))
      by now apply animate_ok, animation_nonneg.
    unfold createFrame.
    match goal with
    | |- context [existsb ?g ?l] => destruct (existsb g l)
    end; unfold ranges_ok;
      cbn [fst currentMessageIndex shownMessages chapter written].
    + split; [lia|]. split; [exact Hchap|]. split; [exact Hvis | exact Hframes].
    + split; [lia|]. split; [exact Hchap|]. split; [exact Hvis|].
      unfold writeFrame. cbn [frames]. apply Forall_app.
      split; [exact Hframes|]. constructor; [|constructor].
      cbn [snd]. unfold state_ok.
      cbn [currentChapter totalChapters globalProgress messageProgress
           xpProgress visibleMessages].
      split; [exact Hchap|]. split; [reflexivity|].
      split; [apply Hglobal|]. split; [apply Hglobal|].
      split; [apply Hmessage|]. split; [apply Hmessage|].
      split; [apply Hxp; lia | exact Hvis].
Qed.

(** Every frame of the later version is drawn from a state within these
    ranges. *)
Theorem later_frames_in_range :
  Forall (fun fr => state_ok fr.2)
         (frames (written (generateFrames data tempDir).1)).
Proof.
  assert (Htotal : 0 <= totalFrames data).
  { unfold totalFrames. rewrite framesPerMessage_60.
    change (frameRate * 2) with 60. lia. }
  pose proof (for_each_range (fun _ => ranges_ok) (fun _ t _ => ranges_ok t)
                (frameStep data tempDir) 0 (totalFrames data)) as Hloop.
  specialize (Hloop
    (fun f st Hf Hst =>
       match frameStep data tempDir f st as r
         return ranges_ok r.1 ->
                match r with
                | (st', None) => ranges_ok st'
                | (st', Some _) => ranges_ok st'
                end
       with (st', Some _) => fun H => H | (st', None) => fun H => H end
         (frameStep_ranges f st Hf Hst))
    (Z.to_nat (totalFrames data)) 0 start ltac:(lia) ltac:(lia)).
  rewrite Z2Nat.id in Hloop by exact Htotal.
  unfold generateFrames. fold start.
  destruct (for_each _ _ start) as [t [e|]]; cbn [fst].
  - destruct Hloop as (g & _ & Hok); [|apply Hok].
    split; [cbn; lia|]. split; [cbn; lia|]. split; constructor.
  - apply Hloop. split; [cbn; lia|]. split; [cbn; lia|]. split; constructor.
Qed.

End LaterRanges.

(** ** More on [wrapText] *)

Lemma wrapText_keeps_text_witness :
  String.concat " "
    (Canvas.wrapText (fun s => inject_Z (Z.of_nat (String.length s)))
       "we did it babe" 9%Q)
  = "we did it babe"%string.
Proof.
  apply (wrapText_keeps_text (fun s => inject_Z (Z.of_nat (String.length s)))
           "we did it babe" 9%Q).
  vm_compute. repeat constructor.
Defined.

Section WrapMore.
Import Canvas.

Variable measureText : string -> Q.
Variable maxWidth : Q.

Lemma greedy_lines_all_nonempty (words : list string) :
  forall line,
    Forall (fun l => nonempty l = true)
           (greedy_lines measureText maxWidth line words).
Proof.
  induction words as [|word rest IH]; intros line; cbn [greedy_lines].
  - destruct (nonempty line) eqn:Hline; repeat constructor; exact Hline.
  - destruct (nonempty line) eqn:Hline; [|apply IH].
    destruct (Qle_bool _ _); [apply IH|].
    constructor; [exact Hline | apply IH].
Qed.

Lemma greedy_lines_length (words : list string) :
  forall line,
    (length (greedy_lines measureText maxWidth line words)
     <= (if nonempty line then 1 else 0) + length words)%nat.
Proof.
  induction words as [|word rest IH]; intros line; cbn [greedy_lines length].
  - destruct (nonempty line); cbn [length]; lia.
  - destruct (nonempty line).
    + destruct (Qle_bool _ _).
      * specialize (IH (line +:+ " " +:+ word)).
        destruct (nonempty (line +:+ " " +:+ word)); lia.
      * cbn [length]. specialize (IH word). destruct (nonempty word); lia.
    + specialize (IH word). destruct (nonempty word); lia.
Qed.

Lemma greedy_lines_nil (words : list string) :
  forall line,
    greedy_lines measureText maxWidth line words = [] <->
    nonempty line = false /\ Forall (fun w => nonempty w = false) words.
Proof.
  induction words as [|word rest IH]; intros line; cbn [greedy_lines].
  - destruct (nonempty line); split; try discriminate; auto.
    intros [H _]. discriminate H.
  - destruct (nonempty line) eqn:Hline.
    + split; [|intros [H _]; discriminate H].
      intros Hnil. exfalso.
      apply (greedy_lines_nonempty measureText maxWidth (word :: rest) line Hline).
      cbn [greedy_lines]. rewrite Hline. exact Hnil.
    + rewrite IH. rewrite Forall_cons. tauto.
Qed.

(** [wrapText] never returns an empty line and never more lines than the
    text has words; it returns no line at all exactly when the text is
    empty or made of spaces only (the caller then takes [Math.max()] of
    nothing for the width of the bubble). *)
Theorem wrapText_lines (text : string) :
  Forall (fun l => nonempty l = true) (wrapText measureText text maxWidth) /\
  (length (wrapText measureText text maxWidth)
   <= length (split_space text))%nat /\
  (wrapText measureText text maxWidth = [] <->
   Forall (fun w => w = EmptyString) (split_space text)).
Proof.
  rewrite wrapText_greedy_wrap. unfold greedy_wrap. split; [|split].
  - apply greedy_lines_all_nonempty.
  - apply (greedy_lines_length (split_space text) EmptyString).
  - rewrite greedy_lines_nil. split.
    + intros [_ H]. eapply Forall_impl; [exact H|].
      intros w Hw. unfold nonempty in Hw. apply negb_false_iff in Hw.
      now apply String.eqb_eq in Hw.
    + intros H. split; [reflexivity|]. eapply Forall_impl; [exact H|].
      intros w ->. reflexivity.
Qed.

End WrapMore.

(** ** Names of uploaded files *)

Section UploadFacts.
Import JS Upload.
Local Open Scope Z_scope.

Lemma in_class_digit_char (d : Z) :
  in_class (Z.of_N (N_of_ascii (digit_char d))) = true.
Proof.
  unfold digit_char.
  repeat match goal with
         | |- context [match ?x with _ => _ end] => destruct x
         end; reflexivity.
Qed.

Lemma units_String (a : ascii) (s : string) :
  units (String a s) = Z.of_N (N_of_ascii a) :: units s.
Proof. reflexivity. Qed.

Lemma digits_acc_in_class (fuel : nat) :
  forall n acc,
    Forall (fun u => in_class u = true) (units acc) ->
    Forall (fun u => in_class u = true) (units (digits_acc fuel n acc)).
Proof.
  induction fuel as [|f IH]; intros n acc Hacc; cbn [digits_acc];
    [exact Hacc|].
  destruct (n <? 10).
  - rewrite units_String. constructor; [apply in_class_digit_char | exact Hacc].
  - apply IH. rewrite units_String.
    constructor; [apply in_class_digit_char | exact Hacc].
Qed.

Lemma sanitize_in_class (name : list Z) :
  Forall (fun u => in_class u = true) (sanitize name).
Proof.
  unfold sanitize. apply Forall_forall. intros u Hu.
  apply (proj1 (list_elem_of_In _ _)), in_map_iff in Hu as (u0 & <- & _).
  destruct (in_class u0) eqn:Hu0; [exact Hu0 | reflexivity].
Qed.

(** The name an upload is stored under consists of letters, digits, [_],
    [.] and [-] only, whatever name the client sent: it contains no path
    separator, so the file lands in the uploads directory itself.  The
    replacement keeps the length, leaves a clean name alone, and doing it
    twice changes nothing more. *)
Theorem upload_name_is_plain (now : Z) (originalname : list Z) :
  0 <= now ->
  Forall (fun u => in_class u = true) (filename now originalname) /\
  ~ In 47 (filename now originalname) /\
  ~ In 92 (filename now originalname) /\
  length (sanitize originalname) = length originalname /\
  sanitize (sanitize originalname) = sanitize originalname /\
  (Forall (fun u => in_class u = true) originalname ->
   sanitize originalname = originalname).
Proof.
  intros Hnow.
  assert (Hall : Forall (fun u => in_class u = true) (filename now originalname)).
  { unfold filename. apply Forall_app. split.
    - unfold String_of_Z. destruct (Z.ltb_spec now 0) as [?|_]; [lia|].
      apply digits_acc_in_class. constructor.
    - constructor; [reflexivity | apply sanitize_in_class]. }
  split; [exact Hall|].
  split; [|split].
  - intros Hin. apply list_elem_of_In in Hin.
    pose proof (proj1 (Forall_forall _ _) Hall _ Hin) as H. discriminate H.
  - intros Hin. apply list_elem_of_In in Hin.
    pose proof (proj1 (Forall_forall _ _) Hall _ Hin) as H. discriminate H.
  - split; [apply length_map|]. split.
    + unfold sanitize. rewrite map_map. apply map_ext. intros u.
      destruct (in_class u) eqn:Hu; [now rewrite Hu | reflexivity].
    + intros Hclean. unfold sanitize. rewrite <- (map_id originalname) at 2.
      apply map_ext_in. intros u Hu. apply list_elem_of_In in Hu.
      now rewrite (proj1 (Forall_forall _ _) Hclean u Hu).
Qed.

Lemma upload_name_is_plain_witness :
  ~ In 47 (filename 1700000000000 (units "../../etc/passwd")).
Proof.
  exact (proj1 (proj2 (upload_name_is_plain 1700000000000
                         (units "../../etc/passwd") ltac:(lia)))).
Defined.

End UploadFacts.

(** ** What a client that sees [done] has in hand *)

Section ClientViewFacts.
Import JS Server Api.

(** A record that says [done] is complete: the last four assignments of
    [generateVideo] are made without an [await] in between. *)
Definition complete_when_done (jobId : string) (j : Job) : Prop :=
  id j = jobId /\
  (status j = "done"%string ->
   progress j = 100%Z /\ message j = "Completed"%string /\
   outputFile j = Some (path_join "data/videos" (jobId +:+ ".mp4"))).

(** Whenever the task gives way to others, at a call to the outside, the
    record is as [P] wants it. *)
Definition seen_ok (P : Job -> Prop) (_ : unit) (j : Job) (e : Event) : Prop :=
  match e with EvJob _ => True | _ => P j end.

Fixpoint views_ok (P : Job -> Prop) (todo : list Event) (job : Job) : Prop :=
  match todo with
  | [] => P job
  | EvJob job' :: rest => views_ok P rest job'
  | _ :: rest => P job /\ views_ok P rest job
  end.

Lemma accepted_views (P : Job -> Prop) (l : list Event) :
  forall j,
    accepted quiet_delta (seen_ok P) (tt, j) l ->
    P (last_job l j) ->
    views_ok P l j.
Proof.
  induction l as [|e l IH]; intros j Hacc Hlast; [exact Hlast|].
  destruct Hacc as [Hok Hacc].
  destruct e; cbn [views_ok]; try (split; [exact Hok|]);
    apply IH; assumption.
Qed.

Lemma run_to_call_views (P : Job -> Prop) (todo : list Event) :
  forall job,
    views_ok P todo job ->
    P (run_to_call todo job).1.1 /\
    views_ok P (run_to_call todo job).2 (run_to_call todo job).1.1.
Proof.
  induction todo as [|e todo IH]; intros job Hv.
  - split; exact Hv.
  - destruct e; cbn [run_to_call views_ok fst snd] in *;
      try exact Hv. now apply IH.
Qed.

Section Task.

Variables (v : Variant) (env : Env) (body : Body) (jobId : string).

Local Abbreviation c := (config_of v body jobId).
Local Abbreviation vspec := (spec quiet_delta (seen_ok (complete_when_done jobId))).

Definition working : unit -> Job -> Prop :=
  fun _ j => id j = jobId /\ status j <> "done"%string.

Definition viewable : unit -> Job -> Prop :=
  fun _ j => complete_when_done jobId j.

Lemma working_viewable mu j : working mu j -> viewable mu j.
Proof. intros [Hid Hs]. split; [exact Hid|]. intros Hd. now destruct Hs. Qed.

Lemma view_assign (f : Job -> Job) E :
  (forall j, id (f j) = id j) ->
  (forall j, status j <> "done"%string -> status (f j) <> "done"%string) ->
  vspec working (assign f) (fun _ => working) E.
Proof.
  intros Hid Hst. apply spec_assign_to. intros mu j [Hj Hs].
  split; [exact I|]. split; [now rewrite Hid | now apply Hst].
Qed.

Lemma view_call (call : Event) (o : Outcome) :
  external call -> vspec working (await call o) (fun _ => working) working.
Proof.
  intros Hext. apply spec_await_to; [exact Hext|]. intros mu j Hj.
  split; [|split; exact Hj].
  destruct call; try exact I; now apply (working_viewable mu).
Qed.

Lemma view_emit (e : Event) E :
  external e -> vspec working (emit e) (fun _ => working) E.
Proof.
  intros Hext. apply spec_emit_to; [exact Hext|]. intros mu j Hj.
  split; [|exact Hj].
  destruct e; try exact I; now apply (working_viewable mu).
Qed.

Local Ltac side :=
  first [ exact I | reflexivity | intros ? H; exact H | discriminate ].

Local Ltac step_with lem :=
  eapply spec_bind; [apply lem; side | intros []].

Lemma view_progressEvents (ps : list (option Q)) E :
  vspec working (progressEvents ps) (fun _ => working) E.
Proof.
  induction ps as [|p ps IH]; cbn [progressEvents].
  - apply spec_ret. auto.
  - step_with view_emit.
    eapply spec_bind with (Q1 := fun _ => working); [|intros []; exact IH].
    unfold onProgress. destruct p as [q|]; [|apply spec_ret; auto].
    destruct (Qeq_bool q 0); [apply spec_ret; auto|].
    apply view_assign; side.
Qed.

Lemma view_captureFrame (i : Z) :
  vspec working (captureFrame v env c (totalFrames v c) i)
        (fun _ => working) working.
Proof.
  unfold captureFrame.
  step_with view_call. step_with view_call. step_with view_assign.
  apply view_assign; side.
Qed.

Lemma view_finally :
  vspec viewable
        (await EvBrowserClose (browserClose env) ;;
         emit (EvCleanupScheduled (framesPath c)))
        (fun _ => viewable) viewable.
Proof.
  eapply spec_bind with (Q1 := fun _ => viewable).
  - apply spec_await_to; [exact I|]. intros mu j Hj. auto.
  - intros []. apply spec_emit_to; [exact I|]. intros mu j Hj. auto.
Qed.

Lemma view_generateVideo :
  vspec working (generateVideo v env c) (fun _ => viewable) viewable.
Proof.
  unfold generateVideo.
  step_with view_assign. step_with view_assign.
  eapply spec_bind with (Q1 := fun _ => working).
  { eapply spec_weaken; [apply view_call; exact I | auto | auto |].
    apply working_viewable. }
  intros [].
  eapply spec_try_finally with (Q1 := fun _ => viewable) (E1 := viewable);
    [| intros []; apply view_finally | apply view_finally].
  eapply spec_weaken
    with (P' := working) (Q' := fun _ => viewable) (E' := working);
    [| auto | auto | apply working_viewable].
  step_with view_call. step_with view_call.
  eapply spec_bind.
  { apply spec_resolveBackground. intros e mu j He Hj. split; [|exact Hj].
    destruct e; try exact I; now apply (working_viewable mu). }
  intros bgVideo.
  step_with view_call. step_with view_call.
  eapply spec_bind with (Q1 := fun _ => working).
  { eapply spec_weaken;
      [apply (spec_for_loop quiet_delta _ _ 0 (totalFrames v c)
                (fun _ => working) working);
       [intros i _; apply view_captureFrame | lia | lia]
      | auto | auto | auto]. }
  intros []. step_with view_assign. step_with view_assign.
  eapply spec_bind with (Q1 := fun _ => working).
  { unfold encode. step_with view_emit.
    eapply spec_bind; [apply view_progressEvents | intros []].
    destruct (encoderEnd env) as [|err].
    - apply view_emit. exact I.
    - step_with view_emit. apply spec_throw. auto. }
  intros [].
  eapply spec_bind with
    (Q1 := fun _ _ j => id j = jobId /\ progress j = 100%Z).
  { apply spec_assign. intros mu j [Hid _]. split; [exact I|]. auto. }
  intros [].
  eapply spec_bind with
    (Q1 := fun _ _ j => id j = jobId /\ progress j = 100%Z).
  { apply spec_assign. intros mu j [Hid Hp]. split; [exact I|]. auto. }
  intros [].
  eapply spec_bind with
    (Q1 := fun _ _ j => id j = jobId /\ progress j = 100%Z /\
                        message j = "Completed"%string).
  { apply spec_assign. intros mu j [Hid Hp]. split; [exact I|]. auto. }
  intros [].
  apply spec_assign. intros mu j (Hid & Hp & Hm). split; [exact I|].
  unfold viewable, complete_when_done. simpl. auto.
Qed.

Lemma view_jobTask :
  vspec working (jobTask v env c) (fun _ => viewable) (fun _ _ => False).
Proof.
  unfold jobTask. eapply spec_catch with (E1 := viewable);
    [apply view_generateVideo|].
  intros err.
  eapply spec_bind with (Q1 := fun _ => working).
  { apply spec_assign. intros mu j [Hid _]. split; [exact I|].
    split; [exact Hid | discriminate]. }
  intros []. eapply spec_weaken;
    [apply (view_assign _ (fun _ _ => False)); side | auto | | auto].
  intros ? mu j. apply working_viewable.
Qed.

Lemma jobTask_views :
  views_ok (complete_when_done jobId)
           (jobTask v env c (newJob jobId)).1.1 (newJob jobId).
Proof.
  destruct (view_jobTask tt (newJob jobId)) as (Hacc & Hjob & Hres);
    [split; [reflexivity | discriminate]|].
  apply accepted_views; [exact Hacc|].
  rewrite last_job_after in Hjob. rewrite Hjob.
  destruct ((jobTask v env c (newJob jobId)).2); [destruct Hres | exact Hres].
Qed.

End Task.

(** Every registered job is viewable now and at every later call of its
    task. *)
Definition served_ok (s : State) : Prop :=
  forall jobId obj,
    jobs s !! jobId = Some obj ->
    exists job todo,
      heap s !! obj = Some job /\ tasks s !! obj = Some todo /\
      complete_when_done jobId job /\
      views_ok (complete_when_done jobId) todo job.

Lemma served_ok_post v body jobId env s :
  well_formed s -> served_ok s ->
  served_ok (post_generate v body jobId env s).1.
Proof.
  intros [Hfresh Hreg] Hs. unfold post_generate, fresh_object.
  pose proof (run_to_call_views _ _ _ (jobTask_views v env body jobId))
    as [Hnow Hlater].
  change (fst (fst (jobTask v env (config_of v body jobId) (newJob jobId))))
    with ((jobTask v env (config_of v body jobId) (newJob jobId)).1.1).
  destruct (run_to_call _ _) as [[job' calls] rest]. cbn [fst snd] in *.
  intros id obj Hid. cbn [jobs heap tasks] in *.
  destruct (decide (jobId = id)) as [<-|Hne].
  - rewrite lookup_insert_eq in Hid. injection Hid as <-.
    exists job', rest. rewrite !lookup_insert_eq. auto.
  - rewrite lookup_insert_ne in Hid by exact Hne.
    destruct (Hs id obj Hid) as (job & todo & Hjob & Htodo & Hview).
    exists job, todo.
    assert (Hobj : size (heap s) <> obj).
    { intros <-. rewrite Hfresh in Hjob by lia. discriminate. }
    rewrite !lookup_insert_ne by exact Hobj. auto.
Qed.

Lemma served_ok_resume o s : served_ok s -> served_ok (resume o s).
Proof.
  intros Hs. unfold resume.
  destruct (heap s !! o) as [cur|] eqn:Hcur; [|exact Hs].
  destruct (tasks s !! o) as [todo0|] eqn:Htodo0; [|exact Hs].
  intros id obj Hid.
  destruct (run_to_call todo0 cur) as [[job' calls] rest] eqn:Hrun.
  cbn [jobs heap tasks] in *.
  destruct (Hs id obj Hid) as (job & todo & Hjob & Htodo & Hnow & Hlater).
  destruct (decide (o = obj)) as [->|Hne].
  - rewrite Hcur in Hjob. rewrite Htodo0 in Htodo.
    injection Hjob as <-. injection Htodo as <-.
    pose proof (run_to_call_views _ _ _ Hlater) as [H1 H2].
    rewrite Hrun in H1, H2. cbn [fst snd] in *.
    exists job', rest. rewrite !lookup_insert_eq. auto.
  - exists job, todo. rewrite !lookup_insert_ne by exact Hne. auto.
Qed.

Lemma served_ok_exec v actions :
  forall s, well_formed s -> served_ok s -> served_ok (exec v actions s).1.
Proof.
  induction actions as [|a rest IH]; intros s Hwf Hs; [exact Hs|].
  simpl. pose proof (well_formed_step v a s Hwf) as Hwf1.
  assert (Hs1 : served_ok (step v a s).1).
  { destruct a as [body id env | id | obj]; simpl.
    - pose proof (served_ok_post v body id env s Hwf Hs) as H.
      now destruct (post_generate v body id env s).
    - exact Hs.
    - now apply served_ok_resume. }
  destruct (step v a s) as [s1 r]. specialize (IH s1 Hwf1 Hs1).
  now destruct (exec v rest s1).
Qed.

(** A poll that says [done] also says [100] and [Completed] and gives the
    URL of the video: a client that stops polling at [done] has the
    link. *)
Theorem done_is_complete (v : Variant) (actions : list Action)
    (jobId : string) (p : Z) (m : string) (u : option string) :
  no_slash jobId = true ->
  get_progress jobId (exec v actions init).1 = JobView jobId "done" p m u ->
  p = 100%Z /\ m = "Completed"%string /\
  u = Some ("/videos/" +:+ jobId +:+ ".mp4").
Proof.
  intros Hplain Hpoll.
  assert (Hs : served_ok (exec v actions init).1).
  { apply served_ok_exec; [apply well_formed_init|].
    intros id obj Hid. discriminate Hid. }
  unfold get_progress in Hpoll.
  destruct (jobs (exec v actions init).1 !! jobId) as [obj|] eqn:Hid;
    [|discriminate].
  destruct (Hs jobId obj Hid) as (job & todo & Hjob & _ & [_ Hdone] & _).
  rewrite Hjob in Hpoll. injection Hpoll as Hst Hp Hm Hu.
  destruct (Hdone Hst) as (Hp' & Hm' & Hout).
  split; [congruence|]. split; [congruence|].
  rewrite Hout in Hu. rewrite <- Hu.
  rewrite basename_path_join
    by (apply no_slash_append; [exact Hplain | reflexivity]).
  unfold path_join at 1. rewrite append_String. reflexivity.
Qed.

Lemma done_is_complete_witness :
  100%Z = 100%Z /\ "Completed"%string = "Completed"%string /\
  Some "/videos/job.mp4"%string = Some ("/videos/" +:+ "job" +:+ ".mp4").
Proof.
  apply (done_is_complete Plain
           (Submit one_second_body "job" (calm []) :: resumed_to_the_end)
           "job" 100 "Completed" (Some "/videos/job.mp4"%string)).
  - reflexivity.
  - vm_compute. reflexivity.
Defined.

End ClientViewFacts.

(** ** Timeline time and playback time *)

Section PlaybackFacts.
Import JS Server.
Local Open Scope Z_scope.









End PlaybackFacts.

(** ** The list of videos and the download *)

Section ListingFacts.
Import JS Listing.




Variable stat : string -> Z * Q.






End ListingFacts.

(** ** Which error a failed job reports *)

Section ReportedError.
Import JS Server.
Local Open Scope Z_scope.

(** How a computation ends from job [j]: its result and the job it
    leaves. *)
Definition ends {A} (m : M A) (j : Job) (R : string + A -> Job -> Prop) : Prop :=
  R (m j).2 (m j).1.2.

Lemma ends_ret {A} (a : A) j (R : string + A -> Job -> Prop) :
  R (inr a) j -> ends (mret a) j R.
Proof. exact (fun H => H). Qed.

Lemma ends_bind {A B} (m : M A) (k : A -> M B) j
    (R : string + B -> Job -> Prop) :
  ends m j (fun r j1 => match r with
                        | inl e => R (inl e) j1
                        | inr a => ends (k a) j1 R
                        end) ->
  ends (mbind k m) j R.
Proof.
  unfold ends, mbind, M_bind, bind.
  destruct (m j) as [[l1 j1] [e|a]]; cbn [fst snd]; [exact (fun H => H)|].
  now destruct (k a j1) as [[l2 j2] r].
Qed.

Lemma ends_throw {A} (e : string) j (R : string + A -> Job -> Prop) :
  R (inl e) j -> ends (throw e) j R.
Proof. exact (fun H => H). Qed.

Lemma ends_emit (e : Event) j (R : string + unit -> Job -> Prop) :
  R (inr tt) j -> ends (emit e) j R.
Proof. exact (fun H => H). Qed.

Lemma ends_assign (f : Job -> Job) j (R : string + unit -> Job -> Prop) :
  R (inr tt) (f j) -> ends (assign f) j R.
Proof. exact (fun H => H). Qed.

Lemma ends_await (call : Event) (o : Outcome) j
    (R : string + unit -> Job -> Prop) :
  match o with Resolves => R (inr tt) j | Rejects e => R (inl e) j end ->
  ends (await call o) j R.
Proof. unfold ends, await. now destruct o. Qed.

Lemma ends_try_finally {A} (body : M A) (fin : M unit) j
    (R : string + A -> Job -> Prop) :
  ends body j (fun r j1 =>
    ends fin j1 (fun r2 j2 => match r2 with
                              | inl e => R (inl e) j2
                              | inr _ => R r j2
                              end)) ->
  ends (try_finally body fin) j R.
Proof.
  unfold ends, try_finally.
  destruct (body j) as [[l1 j1] r]; cbn [fst snd].
  now destruct (fin j1) as [[l2 j2] [e|[]]].
Qed.

Lemma ends_catch {A} (m : M A) (h : string -> M A) j
    (R : string + A -> Job -> Prop) :
  ends m j (fun r j1 => match r with
                        | inl e => ends (h e) j1 R
                        | inr a => R (inr a) j1
                        end) ->
  ends (catch m h) j R.
Proof.
  unfold ends, catch.
  destruct (m j) as [[l1 j1] [e|a]]; cbn [fst snd]; [|exact (fun H => H)].
  now destruct (h e j1) as [[l2 j2] r].
Qed.

Lemma ends_weaken {A} (m : M A) j (R R' : string + A -> Job -> Prop) :
  ends m j R -> (forall r j', R r j' -> R' r j') -> ends m j R'.
Proof. unfold ends. auto. Qed.

(** The error of the first call that rejects. *)
Fixpoint first_rejection (l : list Outcome) : option string :=
  match l with
  | [] => None
  | Resolves :: l' => first_rejection l'
  | Rejects e :: _ => Some e
  end.

Lemma first_rejection_app (l k : list Outcome) :
  first_rejection (l ++ k) =
  match first_rejection l with
  | Some e => Some e
  | None => first_rejection k
  end.
Proof.
  induction l as [|[|e] l IH]; cbn [app first_rejection]; auto.
Qed.

Variables (v : Variant) (env : Env) (c : Config).

(** The calls awaited for the frames from [i] on. *)
Definition capture_calls (i n : Z) : list Outcome :=
  flat_map (fun k => [setTimelineTime env k; screenshot env k]) (seqZ i n).

(** The calls awaited inside [try], in order; the background is not among
    them, its failure is caught. *)
Definition body_calls : list Outcome :=
  [newPage env; goto env; pageData env; startRender env]
    ++ capture_calls 0 (totalFrames v c) ++ [encoderEnd env].

(** The error the job reports: that of the launch, or else that of
    [browser.close()], which replaces whatever [try] threw, or else that
    of the first call in [try] that rejects. *)
Definition reported : option string :=
  match launch env with
  | Rejects e => Some e
  | Resolves =>
      match browserClose env with
      | Rejects e => Some e
      | Resolves => first_rejection body_calls
      end
  end.

Definition stops_with (failure : option string)
    (r : string + unit) (_ : Job) : Prop :=
  match failure with Some e => r = inl e | None => r = inr tt end.

Lemma ends_resolveBackground j (R : string + option string -> Job -> Prop) :
  (forall bg, R (inr bg) j) -> ends (resolveBackground v env c) j R.
Proof.
  intros HR. unfold resolveBackground. destruct v as [|d]; [apply HR|].
  apply ends_catch. unfold ensureBackgroundVideo.
  destruct (String.eqb (backgroundUrl c) ""); [apply HR|].
  destruct (String.prefix "/backgrounds/" (backgroundUrl c)); [apply HR|].
  apply ends_bind, ends_await. destruct (ytdlp env); [|apply HR].
  apply ends_bind, ends_await. destruct (scale env); apply HR.
Qed.

Lemma ends_progressEvents (ps : list (option Q)) j
    (R : string + unit -> Job -> Prop) :
  (forall j', R (inr tt) j') -> ends (progressEvents ps) j R.
Proof.
  intros HR. revert j. induction ps as [|p ps IH]; intros j;
    cbn [progressEvents]; [apply HR|].
  apply ends_bind, ends_emit, ends_bind.
  unfold onProgress. destruct p as [q|]; [|apply IH].
  destruct (Qeq_bool q 0); [apply IH|]. apply ends_assign, IH.
Qed.

Lemma ends_capture (fuel : nat) :
  forall i j,
    0 <= i -> (Z.to_nat (totalFrames v c - i) <= fuel)%nat ->
    ends (for_loop fuel i (totalFrames v c)
            (captureFrame v env c (totalFrames v c))) j
         (stops_with (first_rejection
                        (capture_calls i (totalFrames v c - i)))).
Proof.
  induction fuel as [|f IH]; intros i j Hi Hfuel; cbn [for_loop].
  - unfold capture_calls. rewrite seqZ_nil by lia. reflexivity.
  - destruct (Z.ltb_spec i (totalFrames v c)) as [Hlt|Hge].
    2:{ unfold capture_calls. rewrite seqZ_nil by lia. reflexivity. }
    unfold capture_calls. rewrite seqZ_cons by lia.
    cbn [flat_map app first_rejection].
    replace (Z.pred (totalFrames v c - i))
      with (totalFrames v c - Z.succ i) by lia.
    apply ends_bind. unfold captureFrame.
    apply ends_bind, ends_await.
    destruct (setTimelineTime env i); [|reflexivity].
    apply ends_bind, ends_await.
    destruct (screenshot env i); [|reflexivity].
    apply ends_bind, ends_assign, ends_assign.
    replace (i + 1) with (Z.succ i) by lia. apply IH; lia.
Qed.

Lemma ends_body j :
  ends (await EvNewPage (newPage env) ;;
        await EvGoto (goto env) ;;
        bgVideo ← resolveBackground v env c;
        await EvPageData (pageData env) ;;
        await EvStartRender (startRender env) ;;
        for_loop (Z.to_nat (totalFrames v c)) 0 (totalFrames v c)
          (captureFrame v env c (totalFrames v c)) ;;
        assign (with_message "Encoding video") ;;
        assign (with_progress 85) ;;
        encode v env c bgVideo ;;
        assign (with_progress 100) ;;
        assign (with_status "done") ;;
        assign (with_message "Completed") ;;
        assign (with_outputFile (outFile c))) j
       (fun r j' =>
          match first_rejection body_calls with
          | Some e => r = inl e
          | None => r = inr tt /\ status j' = "done"%string
          end).
Proof.
  unfold body_calls. cbn [app first_rejection].
  apply ends_bind, ends_await. destruct (newPage env); [|reflexivity].
  apply ends_bind, ends_await. destruct (goto env); [|reflexivity].
  apply ends_bind, ends_resolveBackground. intros bgVideo.
  apply ends_bind, ends_await. destruct (pageData env); [|reflexivity].
  apply ends_bind, ends_await. destruct (startRender env); [|reflexivity].
  apply ends_bind.
  eapply ends_weaken;
    [apply (ends_capture (Z.to_nat (totalFrames v c)) 0); lia|].
  rewrite Z.sub_0_r, first_rejection_app. intros r j1 Hr.
  destruct (first_rejection (capture_calls 0 (totalFrames v c))) as [e|];
    cbn [stops_with] in Hr; subst r; [reflexivity|].
  cbn [first_rejection].
  apply ends_bind, ends_assign, ends_bind, ends_assign, ends_bind.
  unfold encode. apply ends_bind, ends_emit, ends_bind, ends_progressEvents.
  intros j2. destruct (encoderEnd env) as [|err].
  - apply ends_emit, ends_bind, ends_assign, ends_bind, ends_assign,
      ends_bind, ends_assign, ends_assign. split; reflexivity.
  - apply ends_bind, ends_emit, ends_throw. reflexivity.
Qed.

(** A job that fails reports the error of [puppeteer.launch], or else
    that of [browser.close()], which hides whatever went wrong before
    it, or else that of the first call inside [try] that rejected; a job
    with none of these ends [done]. *)
Theorem job_reports (jobId : string) :
  match reported with
  | Some e =>
      status (finalJob v env c jobId) = "error"%string /\
      message (finalJob v env c jobId) = e
  | None => status (finalJob v env c jobId) = "done"%string
  end.
Proof.
  assert (Hends :
    ends (jobTask v env c) (newJob jobId)
         (fun _ j => match reported with
                     | Some e => status j = "error"%string /\ message j = e
                     | None => status j = "done"%string
                     end)).
  { unfold jobTask. apply ends_catch. unfold generateVideo.
    apply ends_bind, ends_assign, ends_bind, ends_assign.
    apply ends_bind, ends_await. unfold reported.
    destruct (launch env) as [|e0].
    2:{ apply ends_bind, ends_assign, ends_assign. split; reflexivity. }
    apply ends_try_finally.
    eapply ends_weaken; [apply ends_body|]. intros r j1 Hr.
    apply ends_bind, ends_await.
    destruct (browserClose env) as [|e1].
    2:{ apply ends_bind, ends_assign, ends_assign. split; reflexivity. }
    apply ends_emit.
    destruct (first_rejection body_calls) as [e|].
    - subst r. apply ends_bind, ends_assign, ends_assign. split; reflexivity.
    - destruct Hr as [-> Hdone]. exact Hdone. }
  exact Hends.
Qed.

End ReportedError.
